(** * mydb.storage: the single-file table store, its codecs and their laws

    A shallow embedding of [src/mydb/storage/__init__.py].

    - A Python [str] is the list of its code points, [bytes] the list of its
      byte values, both over [Z]; a Python [int] is a [Z]. A string is
      _text_ when [str.encode] accepts it, that is when it holds no lone
      surrogate; the laws about names are stated for text.
    - A raised exception is the [Raise] case of [result], under the name of
      its Python class. The failures the specification names are
      NameTooLong = [ValueError] (raised by [create]),
      AlreadyExists = [FileExistsError],
      UnsupportedFeature = [NotImplementedError],
      ValueTooLarge = [AssertionError] (the length assertion of the value
      codec), OutOfRange = [OverflowError].
    - Code that touches a file object or the file system threads that state
      explicitly and keeps it when an exception escapes.
    - Library calls ([str.encode], [bytes.decode], [int.to_bytes],
      [int.from_bytes], pydantic's JSON dump and validation,
      [urllib.parse.quote_plus] and [unquote_plus], [pathlib]) are embedded
      next to the code that calls them, from their documented behaviour.
    - The file system is a finite map from resolved paths to files and
      directories; it puts no bound on the length of a file name, and
      nothing but the modelled code changes it. *)

From Stdlib Require Import ZArith List Lia Bool String Ascii.
From stdpp Require Import base option list gmap sets.

Local Open Scope Z_scope.

(** ** Python values and exceptions *)

Abbreviation bytes := (list Z) (only parsing).
Abbreviation str := (list Z) (only parsing).

(** A code-point string from an ASCII/Latin-1 literal. *)
Definition py (s : string) : str :=
  (fun a => Z.of_N (N_of_ascii a)) <$> list_ascii_of_string s.

Definition len {A} (l : list A) : Z := Z.of_nat (length l).

Inductive exn : Type :=
  | ColumnDoesNotExist (msg : str)
  | ValueError
  | FileExistsError
  | FileNotFoundError
  | IsADirectoryError
  | NotADirectoryError
  | NotImplementedError
  | AssertionError
  | OverflowError
  | RuntimeError
  | KeyError
  | ZeroDivisionError
  | UnicodeEncodeError
  | UnicodeDecodeError
  | PydanticSerializationError
  | ValidationError.

#[global] Instance exn_eq_dec : EqDecision exn.
Proof. solve_decision. Defined.

Inductive result (A : Type) : Type :=
  | Ok (a : A)
  | Raise (e : exn).
Arguments Ok {A} a.
Arguments Raise {A} e.

#[global] Instance result_eq_dec `{EqDecision A} : EqDecision (result A).
Proof. solve_decision. Defined.

#[global] Instance result_ret : MRet result := fun _ a => Ok a.
#[global] Instance result_bind : MBind result := fun _ _ f m =>
  match m with Ok a => f a | Raise e => Raise e end.
#[global] Instance result_fmap : FMap result := fun _ _ f m =>
  match m with Ok a => Ok (f a) | Raise e => Raise e end.

(** [assert cond], with assertions enabled. *)
Definition assert (cond : bool) : result unit :=
  if cond then Ok tt else Raise AssertionError.

(** The values a caller can hand to [insert]; [VOther] stands for an object
    that is neither a [str] nor an [int]. *)
Inductive value : Type :=
  | VStr (s : str)
  | VInt (n : Z)
  | VOther.

#[global] Instance value_eq_dec : EqDecision value.
Proof. solve_decision. Defined.

(** ** UTF-8 ([str.encode("utf-8")], [bytes.decode("utf-8")]) *)

Definition is_surrogate (c : Z) : bool := (0xD800 <=? c) && (c <=? 0xDFFF).

(** One code point, strict error handling: surrogates (and anything that is
    not a code point) are refused. *)
Definition utf8_encode_char (c : Z) : result bytes :=
  if c <? 0 then Raise UnicodeEncodeError
  else if c <? 0x80 then Ok [c]
  else if c <? 0x800 then Ok [0xC0 + c / 64; 0x80 + c mod 64]
  else if c <? 0x10000 then
    if is_surrogate c then Raise UnicodeEncodeError
    else Ok [0xE0 + c / 4096; 0x80 + (c / 64) mod 64; 0x80 + c mod 64]
  else if c <? 0x110000 then
    Ok [0xF0 + c / 262144; 0x80 + (c / 4096) mod 64;
        0x80 + (c / 64) mod 64; 0x80 + c mod 64]
  else Raise UnicodeEncodeError.

Fixpoint str_encode (s : str) : result bytes :=
  match s with
  | [] => Ok []
  | c :: s' =>
      cs ← utf8_encode_char c;
      rest ← str_encode s';
      Ok (cs ++ rest)
  end.

Inductive decode_errors : Type := strict | replace.

Definition is_continuation (b : Z) : bool := (0x80 <=? b) && (b <? 0xC0).

(** What the decoder does with an ill-formed prefix: [strict] raises,
    [replace] emits U+FFFD and resumes with [k]. *)
Definition on_decode_error (errors : decode_errors) (k : result str) : result str :=
  match errors with
  | strict => Raise UnicodeDecodeError
  | replace => cons 0xFFFD <$> k
  end.

(** CPython's decoder: shortest form only, no surrogates, nothing above
    U+10FFFF; an ill-formed sequence is skipped up to the offending byte. *)
Fixpoint bytes_decode (errors : decode_errors) (bs : bytes) : result str :=
  match bs with
  | [] => Ok []
  | b0 :: r0 =>
    if (0 <=? b0) && (b0 <? 0x80) then cons b0 <$> bytes_decode errors r0
    else if (b0 <? 0xC2) || (0xF5 <=? b0) then
      on_decode_error errors (bytes_decode errors r0)
    else if b0 <? 0xE0 then
      match r0 with
      | [] => on_decode_error errors (Ok [])
      | b1 :: r1 =>
        if is_continuation b1
        then cons ((b0 mod 32) * 64 + b1 mod 64) <$> bytes_decode errors r1
        else on_decode_error errors (bytes_decode errors r0)
      end
    else if b0 <? 0xF0 then
      match r0 with
      | [] => on_decode_error errors (Ok [])
      | b1 :: r1 =>
        if negb (is_continuation b1)
           || (if b1 <? 0xA0 then b0 =? 0xE0 else b0 =? 0xED)
        then on_decode_error errors (bytes_decode errors r0)
        else
          match r1 with
          | [] => on_decode_error errors (Ok [])
          | b2 :: r2 =>
            if is_continuation b2
            then cons ((b0 mod 16) * 4096 + (b1 mod 64) * 64 + b2 mod 64)
                   <$> bytes_decode errors r2
            else on_decode_error errors (bytes_decode errors r1)
          end
      end
    else
      match r0 with
      | [] => on_decode_error errors (Ok [])
      | b1 :: r1 =>
        if negb (is_continuation b1)
           || (if b1 <? 0x90 then b0 =? 0xF0 else b0 =? 0xF4)
        then on_decode_error errors (bytes_decode errors r0)
        else
          match r1 with
          | [] => on_decode_error errors (Ok [])
          | b2 :: r2 =>
            if negb (is_continuation b2)
            then on_decode_error errors (bytes_decode errors r1)
            else
              match r2 with
              | [] => on_decode_error errors (Ok [])
              | b3 :: r3 =>
                if is_continuation b3
                then cons ((b0 mod 8) * 262144 + (b1 mod 64) * 4096
                           + (b2 mod 64) * 64 + b3 mod 64)
                       <$> bytes_decode errors r3
                else on_decode_error errors (bytes_decode errors r2)
              end
          end
      end
  end.

(** ** Byte-string helpers *)

(** [b"\x00" * n]: empty when [n <= 0]. *)
Definition zeros (n : Z) : bytes := replicate (Z.to_nat n) 0.

(** [value.lstrip(b"\x00")] *)
Fixpoint lstrip_nul (bs : bytes) : bytes :=
  match bs with
  | [] => []
  | b :: r => if b =? 0 then lstrip_nul r else bs
  end.

(** The [n] low base-256 digits of [u], most significant first. *)
Fixpoint big_endian (n : nat) (u : Z) : bytes :=
  match n with
  | O => []
  | S n' => big_endian n' (u / 256) ++ [u mod 256]
  end.

(** [value.to_bytes(length, "big", signed=True)] *)
Definition int_to_bytes (v : Z) (length : Z) : result bytes :=
  if (- 2 ^ (8 * length - 1) <=? v) && (v <? 2 ^ (8 * length - 1))
  then Ok (big_endian (Z.to_nat length) (v mod 2 ^ (8 * length)))
  else Raise OverflowError.

Definition unsigned_of_bytes (bs : bytes) : Z :=
  fold_left (fun acc b => acc * 256 + b) bs 0.

(** [int.from_bytes(bs, "big", signed=True)] *)
Definition int_from_bytes (bs : bytes) : Z :=
  let u := unsigned_of_bytes bs in
  if (0 <? len bs) && (2 ^ (8 * len bs - 1) <=? u) then u - 2 ^ (8 * len bs) else u.

(** ** Datatype registry and schema model *)

Inductive DataTypes : Type := STRING | INTEGER.

#[global] Instance DataTypes_eq_dec : EqDecision DataTypes.
Proof. solve_decision. Defined.

Definition _DATATYPE_LENGHTS (datatype : DataTypes) : Z :=
  match datatype with STRING => 16 | INTEGER => 8 end.

Definition ALL_DATATYPES : list DataTypes := [STRING; INTEGER].

Definition MAX_TABLE_NAME_LENGTH : Z := 255.

Record ColumnInfo : Type := mkColumnInfo { name : str; datatype : DataTypes }.

Record TableInfo : Type := mkTableInfo { columns : list ColumnInfo }.

#[global] Instance ColumnInfo_eq_dec : EqDecision ColumnInfo.
Proof. solve_decision. Defined.
#[global] Instance TableInfo_eq_dec : EqDecision TableInfo.
Proof. solve_decision. Defined.

Definition sum (l : list Z) : Z := fold_left Z.add l 0.

(** [TableInfo.column_offsets]: a later column of the same name overwrites
    the entry of an earlier one. *)
Definition column_offsets (self : TableInfo) : gmap (list Z) Z :=
  (fold_left
     (fun (acc : Z * gmap (list Z) Z) col =>
        let '(offset, offsets) := acc in
        (offset + _DATATYPE_LENGHTS (datatype col), <[name col := offset]> offsets))
     (columns self) (0, ∅)).2.

(** [TableInfo.columns_dict] *)
Definition columns_dict (self : TableInfo) : gmap (list Z) ColumnInfo :=
  fold_left (fun d col => <[name col := col]> d) (columns self) ∅.

(** [TableInfo.row_length] *)
Definition row_length (self : TableInfo) : Z :=
  sum ((fun col => _DATATYPE_LENGHTS (datatype col)) <$> columns self).

(** ** JSON, as pydantic writes and reads it *)

#[local] Unset Elimination Schemes.
Inductive json : Type :=
  | JNull
  | JBool (b : bool)
  | JNum (raw : str)
  | JStr (s : str)
  | JArr (items : list json)
  | JObj (fields : list (str * json)).
#[local] Set Elimination Schemes.

Inductive token : Type :=
  | TLBrace | TRBrace | TLBrack | TRBrack | TColon | TComma
  | TStr (s : str)
  | TNum (raw : str)
  | TNull | TTrue | TFalse.

Definition datatype_name (d : DataTypes) : str :=
  match d with STRING => py "STRING" | INTEGER => py "INTEGER" end.

(** The JSON value of a model: fields in declaration order. *)
Definition ColumnInfo_to_json (col : ColumnInfo) : json :=
  JObj [(py "name", JStr (name col)); (py "datatype", JStr (datatype_name (datatype col)))].

Definition TableInfo_to_json (info : TableInfo) : json :=
  JObj [(py "columns", JArr (ColumnInfo_to_json <$> columns info))].

(** [sep.join(parts)] on token lists. *)
Fixpoint sep_by (sep : token) (parts : list (list token)) : list token :=
  match parts with
  | [] => []
  | [x] => x
  | x :: rest => x ++ sep :: sep_by sep rest
  end.

Fixpoint json_tokens (j : json) : list token :=
  match j with
  | JNull => [TNull]
  | JBool b => [if b then TTrue else TFalse]
  | JNum raw => [TNum raw]
  | JStr s => [TStr s]
  | JArr items => TLBrack :: sep_by TComma (map json_tokens items) ++ [TRBrack]
  | JObj fields =>
      TLBrace ::
      sep_by TComma (map (fun kv => TStr (fst kv) :: TColon :: json_tokens (snd kv)) fields)
      ++ [TRBrace]
  end.

(** Lower-case hexadecimal digit of [d < 16]. *)
Definition hex_digit (d : Z) : Z := if d <? 10 then 48 + d else 87 + d.

(** One character inside a JSON string: the quote, the backslash and the
    control characters are escaped, everything else is written as it is. *)
Definition json_escape_char (c : Z) : str :=
  if c =? 34 then [92; 34]
  else if c =? 92 then [92; 92]
  else if c =? 8 then [92; 98]
  else if c =? 9 then [92; 116]
  else if c =? 10 then [92; 110]
  else if c =? 12 then [92; 102]
  else if c =? 13 then [92; 114]
  else if c <? 32 then [92; 117; 48; 48; hex_digit (c / 16); hex_digit (c mod 16)]
  else [c].

Definition json_string (s : str) : str := 34 :: flat_map json_escape_char s ++ [34].

Definition render_token (t : token) : str :=
  match t with
  | TLBrace => [123] | TRBrace => [125]
  | TLBrack => [91] | TRBrack => [93]
  | TColon => [58] | TComma => [44]
  | TStr s => json_string s
  | TNum raw => raw
  | TNull => py "null" | TTrue => py "true" | TFalse => py "false"
  end.

(** Compact form ([indent=None]): no white space between tokens. *)
Definition render (ts : list token) : str := flat_map render_token ts.

(** [model.model_dump_json(indent=None)]: the writer works on UTF-8 and
    refuses a string that is not text. *)
Definition model_dump_json (info : TableInfo) : result str :=
  match mapM (fun col => str_encode (name col)) (columns info) with
  | Ok _ => Ok (render (json_tokens (TableInfo_to_json info)))
  | Raise _ => Raise PydanticSerializationError
  end.

Definition hex_value (c : Z) : option Z :=
  if (48 <=? c) && (c <=? 57) then Some (c - 48)
  else if (65 <=? c) && (c <=? 70) then Some (c - 55)
  else if (97 <=? c) && (c <=? 102) then Some (c - 87)
  else None.

Definition hex4 (h1 h2 h3 h4 : Z) : option Z :=
  a ← hex_value h1; b ← hex_value h2; c ← hex_value h3; d ← hex_value h4;
  Some (((a * 16 + b) * 16 + c) * 16 + d).

Definition is_whitespace (c : Z) : bool :=
  (c =? 32) || (c =? 9) || (c =? 10) || (c =? 13).

Definition is_digit (c : Z) : bool := (48 <=? c) && (c <=? 57).

Definition is_number_char (c : Z) : bool :=
  is_digit c || (c =? 45) || (c =? 43) || (c =? 46) || (c =? 101) || (c =? 69).

Fixpoint drop_digits (s : str) : str :=
  match s with
  | c :: r => if is_digit c then drop_digits r else s
  | [] => []
  end.

(** The JSON number grammar: [-? int frac? exp?]. *)
Definition valid_number (raw : str) : bool :=
  let after_int :=
    match (match raw with 45 :: r => r | _ => raw end) with
    | c :: r =>
        if c =? 48 then Some r
        else if is_digit c then Some (drop_digits r) else None
    | [] => None
    end in
  let after_frac :=
    match after_int with
    | Some (46 :: c :: r) => if is_digit c then Some (drop_digits r) else None
    | other => other
    end in
  match after_frac with
  | Some [] => true
  | Some (e :: r) =>
      if (e =? 101) || (e =? 69) then
        match (match r with s :: r' => if (s =? 43) || (s =? 45) then r' else r | [] => r end) with
        | c :: r' => is_digit c && bool_decide (drop_digits r' = [])
        | [] => false
        end
      else false
  | None => false
  end.

Inductive lex_state : Type :=
  | Outside
  | InStr (acc : str)
  | InNum (acc : str).

(** The tokens of a JSON text, [None] when it is ill-formed. Escapes are
    decoded; a [\u] escape of a surrogate must be one half of a pair. *)
Fixpoint lex (st : lex_state) (input : str) : option (list token) :=
  match st, input with
  | Outside, [] => Some []
  | InStr _, [] => None
  | InNum acc, [] => if valid_number acc then Some [TNum acc] else None
  | InNum acc, c :: r =>
      if is_number_char c then lex (InNum (acc ++ [c])) r
      else if valid_number acc then
        cons (TNum acc) <$>
          (if is_whitespace c then lex Outside r
           else if c =? 125 then cons TRBrace <$> lex Outside r
           else if c =? 93 then cons TRBrack <$> lex Outside r
           else if c =? 44 then cons TComma <$> lex Outside r
           else None)
      else None
  | Outside, c :: r =>
      if is_whitespace c then lex Outside r
      else if c =? 123 then cons TLBrace <$> lex Outside r
      else if c =? 125 then cons TRBrace <$> lex Outside r
      else if c =? 91 then cons TLBrack <$> lex Outside r
      else if c =? 93 then cons TRBrack <$> lex Outside r
      else if c =? 58 then cons TColon <$> lex Outside r
      else if c =? 44 then cons TComma <$> lex Outside r
      else if c =? 34 then lex (InStr []) r
      else if is_digit c || (c =? 45) then lex (InNum [c]) r
      else if c =? 110 then
        match r with
        | 117 :: 108 :: 108 :: r' => cons TNull <$> lex Outside r'
        | _ => None
        end
      else if c =? 116 then
        match r with
        | 114 :: 117 :: 101 :: r' => cons TTrue <$> lex Outside r'
        | _ => None
        end
      else if c =? 102 then
        match r with
        | 97 :: 108 :: 115 :: 101 :: r' => cons TFalse <$> lex Outside r'
        | _ => None
        end
      else None
  | InStr acc, c :: r =>
      if c =? 34 then cons (TStr acc) <$> lex Outside r
      else if c =? 92 then
        match r with
        | [] => None
        | e :: r1 =>
            if e =? 34 then lex (InStr (acc ++ [34])) r1
            else if e =? 92 then lex (InStr (acc ++ [92])) r1
            else if e =? 47 then lex (InStr (acc ++ [47])) r1
            else if e =? 98 then lex (InStr (acc ++ [8])) r1
            else if e =? 102 then lex (InStr (acc ++ [12])) r1
            else if e =? 110 then lex (InStr (acc ++ [10])) r1
            else if e =? 114 then lex (InStr (acc ++ [13])) r1
            else if e =? 116 then lex (InStr (acc ++ [9])) r1
            else if e =? 117 then
              match r1 with
              | h1 :: h2 :: h3 :: h4 :: r2 =>
                  match hex4 h1 h2 h3 h4 with
                  | None => None
                  | Some u =>
                      if (0xD800 <=? u) && (u <? 0xDC00) then
                        match r2 with
                        | 92 :: 117 :: l1 :: l2 :: l3 :: l4 :: r3 =>
                            match hex4 l1 l2 l3 l4 with
                            | None => None
                            | Some w =>
                                if (0xDC00 <=? w) && (w <? 0xE000)
                                then lex (InStr (acc ++ [0x10000 + (u - 0xD800) * 1024
                                                          + (w - 0xDC00)])) r3
                                else None
                            end
                        | _ => None
                        end
                      else if (0xDC00 <=? u) && (u <? 0xE000) then None
                      else lex (InStr (acc ++ [u])) r2
                  end
              | _ => None
              end
            else None
        end
      else if (0 <=? c) && (c <? 32) then None
      else lex (InStr (acc ++ [c])) r
  end.

(** Recursive descent over the tokens; the fuel bounds the number of nested
    calls, which never exceeds twice the number of tokens. *)
Fixpoint parse_value (fuel : nat) (ts : list token) : option (json * list token) :=
  match fuel with
  | O => None
  | S fuel =>
      match ts with
      | TStr s :: r => Some (JStr s, r)
      | TNum raw :: r => Some (JNum raw, r)
      | TNull :: r => Some (JNull, r)
      | TTrue :: r => Some (JBool true, r)
      | TFalse :: r => Some (JBool false, r)
      | TLBrack :: TRBrack :: r => Some (JArr [], r)
      | TLBrack :: r => '(items, r') ← parse_items fuel r; Some (JArr items, r')
      | TLBrace :: TRBrace :: r => Some (JObj [], r)
      | TLBrace :: r => '(fields, r') ← parse_fields fuel r; Some (JObj fields, r')
      | _ => None
      end
  end
with parse_items (fuel : nat) (ts : list token) : option (list json * list token) :=
  match fuel with
  | O => None
  | S fuel =>
      '(x, r) ← parse_value fuel ts;
      match r with
      | TComma :: r' => '(rest, r'') ← parse_items fuel r'; Some (x :: rest, r'')
      | TRBrack :: r' => Some ([x], r')
      | _ => None
      end
  end
with parse_fields (fuel : nat) (ts : list token)
  : option (list (str * json) * list token) :=
  match fuel with
  | O => None
  | S fuel =>
      match ts with
      | TStr k :: TColon :: r =>
          '(x, r') ← parse_value fuel r;
          match r' with
          | TComma :: r'' =>
              '(rest, r3) ← parse_fields fuel r''; Some ((k, x) :: rest, r3)
          | TRBrace :: r'' => Some ([(k, x)], r'')
          | _ => None
          end
      | _ => None
      end
  end.

Definition parse_json (text : str) : option json :=
  ts ← lex Outside text;
  '(j, rest) ← parse_value (2 * length ts + 1) ts;
  match rest with [] => Some j | _ => None end.

(** The value of a key of a JSON object; of two equal keys the later counts. *)
Definition get_field (k : str) (fields : list (str * json)) : option json :=
  snd <$> last (filter (fun kv => kv.1 = k) fields).

Definition required {A} (o : option A) : result A :=
  match o with Some a => Ok a | None => Raise ValidationError end.

Definition validate_datatype (j : json) : result DataTypes :=
  match j with
  | JStr s =>
      if bool_decide (s = py "STRING") then Ok STRING
      else if bool_decide (s = py "INTEGER") then Ok INTEGER
      else Raise ValidationError
  | _ => Raise ValidationError
  end.

Definition validate_str (j : json) : result str :=
  match j with JStr s => Ok s | _ => Raise ValidationError end.

Definition validate_ColumnInfo (j : json) : result ColumnInfo :=
  match j with
  | JObj fields =>
      n ← required (get_field (py "name") fields) ≫= validate_str;
      d ← required (get_field (py "datatype") fields) ≫= validate_datatype;
      Ok (mkColumnInfo n d)
  | _ => Raise ValidationError
  end.

Definition validate_TableInfo (j : json) : result TableInfo :=
  match j with
  | JObj fields =>
      cols ← required (get_field (py "columns") fields);
      match cols with
      | JArr items => mkTableInfo <$> mapM validate_ColumnInfo items
      | _ => Raise ValidationError
      end
  | _ => Raise ValidationError
  end.

(** [TableInfo.model_validate_json(data)]: the bytes must be UTF-8, the text
    JSON, and the value an object with the model's fields (others are
    ignored). *)
Definition model_validate_json (data : bytes) : result TableInfo :=
  match bytes_decode strict data with
  | Raise _ => Raise ValidationError
  | Ok text => required (parse_json text) ≫= validate_TableInfo
  end.

(** ** Header codec *)

Definition _serialize_header (table_info : TableInfo) : result bytes :=
  as_string ← model_dump_json table_info;
  if bool_decide (10 ∈ as_string) then Raise RuntimeError
  else
    encoded ← str_encode as_string;
    Ok (encoded ++ [10]).

Definition endswith (bs : bytes) (b : Z) : bool := bool_decide (last bs = Some b).

Definition _deserialize_header (serialized_header : bytes) : result (TableInfo * Z) :=
  _ ← assert (endswith serialized_header 10);
  info ← model_validate_json (removelast serialized_header);
  Ok (info, len serialized_header).

(** ** Value codec *)

Definition left_pad (value : bytes) (length : Z) : bytes :=
  zeros (length - len value) ++ value.

Definition _serialize_value (datatype : DataTypes) (v : value) : result bytes :=
  as_bytes ←
    match datatype, v with
    | STRING, VStr s =>
        encoded ← str_encode s;
        Ok (left_pad encoded (_DATATYPE_LENGHTS STRING))
    | INTEGER, VInt n => int_to_bytes n (_DATATYPE_LENGHTS INTEGER)
    | _, _ => Raise ValueError
    end;
  _ ← assert (len as_bytes =? _DATATYPE_LENGHTS datatype);
  Ok as_bytes.

(** A binary file object: its whole content and the current position. *)
Record IOBase : Type := mkIO { content : bytes; pos : Z }.

Definition BytesIO (initial : bytes) : IOBase := mkIO initial 0.

(** [fd.read(n)]: at most [n] bytes from the current position, which moves
    past them. Positions are never negative in the code below. *)
Definition read (n : Z) (fd : IOBase) : bytes * IOBase :=
  let got := take (Z.to_nat n) (drop (Z.to_nat (pos fd)) (content fd)) in
  (got, mkIO (content fd) (pos fd + len got)).

(** [fd.seek(p)] *)
Definition seek (p : Z) (fd : IOBase) : IOBase := mkIO (content fd) p.

Definition _deserialize_value (datatype : DataTypes) (fd : IOBase)
  : result value * IOBase :=
  let '(value_as_bytes, fd) := read (_DATATYPE_LENGHTS datatype) fd in
  match datatype with
  | STRING => (VStr <$> bytes_decode strict (lstrip_nul value_as_bytes), fd)
  | INTEGER => (Ok (VInt (int_from_bytes value_as_bytes)), fd)
  end.

(** ** Row codec *)

(** [dict(pairs)] when only looked up: of two equal keys the later counts. *)
Definition mapping {V} (pairs : list (list Z * V)) : gmap (list Z) V :=
  fold_left (fun d '(k, v) => <[k := v]> d) pairs ∅.

(** [d[k]] *)
Definition getitem {V} (d : gmap (list Z) V) (k : str) : result V :=
  match d !! k with Some v => Ok v | None => Raise KeyError end.

Definition _serialize_row (table_info : TableInfo) (values : gmap (list Z) value)
  : result bytes :=
  parts ← mapM (fun col => v ← getitem values (name col);
                           _serialize_value (datatype col) v)
               (columns table_info);
  let serialized := concat parts in
  _ ← assert (len serialized =? row_length table_info);
  Ok serialized.

(** Code that reads through a file object: the object is threaded along and
    survives an exception. *)
Definition IO (A : Type) : Type := IOBase → result A * IOBase.

#[global] Instance IO_ret : MRet IO := fun _ a fd => (Ok a, fd).
#[global] Instance IO_bind : MBind IO := fun _ _ f m fd =>
  match m fd with
  | (Ok a, fd') => f a fd'
  | (Raise e, fd') => (Raise e, fd')
  end.

Definition io_lift {A} (r : result A) : IO A := fun fd => (r, fd).
Definition io_seek (p : Z) : IO unit := fun fd => (Ok tt, seek p fd).

(** The generator, run to its end: the values of the requested columns, in
    the order requested, each read at its own offset. *)
Definition _deserialize_row (table_info : TableInfo) (row_start : Z)
    (columns : list str) : IO (list value) :=
  _ ← io_seek row_start;
  let offsets := column_offsets table_info in
  let as_dict := columns_dict table_info in
  mapM (fun col =>
          offset ← io_lift (getitem offsets col);
          _ ← io_seek (row_start + offset);
          info ← io_lift (getitem as_dict col);
          _deserialize_value (datatype info))
       columns.

(** ** File names ([urllib.parse]) *)

Definition _ALWAYS_SAFE : bytes :=
  py "ABCDEFGHIJKLMNOPQRSTUVWXYZabcdefghijklmnopqrstuvwxyz0123456789_.-~".

(** Upper-case hexadecimal digit of [d < 16]. *)
Definition HEX_digit (d : Z) : Z := if d <? 10 then 48 + d else 55 + d.

(** [chr(b) if b in safe else '%{:02X}'.format(b)] *)
Definition quoter (safe : bytes) (b : Z) : str :=
  if bool_decide (b ∈ _ALWAYS_SAFE ++ safe) then [b]
  else [37; HEX_digit (b / 16); HEX_digit (b mod 16)].

Definition quote_from_bytes (bs : bytes) (safe : bytes) : str :=
  flat_map (quoter safe) bs.

Definition quote (string : str) (safe : bytes) : result str :=
  match string with
  | [] => Ok []
  | _ => bs ← str_encode string; Ok (quote_from_bytes bs safe)
  end.

(** [s.replace(old, new)] for single characters. *)
Definition replace_char (old new : Z) (s : str) : str :=
  (fun c => if c =? old then new else c) <$> s.

Definition quote_plus (string : str) : result str :=
  if bool_decide (32 ∉ string) then quote string []
  else replace_char 32 43 <$> quote string [32].

(** [bs.split(sep)]: never empty. *)
Fixpoint split_on (sep : Z) (bs : bytes) : list bytes :=
  match bs with
  | [] => [[]]
  | c :: r =>
      if c =? sep then [] :: split_on sep r
      else match split_on sep r with
           | h :: t => (c :: h) :: t
           | [] => [[c]]
           end
  end.

(** What follows one [%]: two hexadecimal digits are replaced by their
    byte, anything else keeps its [%]. *)
Definition unquote_item (item : bytes) : bytes :=
  match item with
  | h :: l :: rest =>
      match hex_value h, hex_value l with
      | Some a, Some b => (16 * a + b) :: rest
      | _, _ => 37 :: item
      end
  | _ => 37 :: item
  end.

Definition unquote_to_bytes (string : bytes) : bytes :=
  match split_on 37 string with
  | bit0 :: (_ :: _) as items => bit0 ++ flat_map unquote_item items
  | _ => string
  end.

(** [bs.decode("utf-8", "replace")], which never raises. *)
Definition decode_replace (bs : bytes) : str :=
  match bytes_decode replace bs with Ok s => s | Raise _ => [] end.

(** The pieces of [unquote]: every maximal run of ASCII characters is
    unquoted and decoded, the characters between the runs are kept. *)
Fixpoint unquote_parts (run : str) (string : str) : str :=
  match string with
  | [] => decode_replace (unquote_to_bytes run)
  | c :: r =>
      if (0 <=? c) && (c <? 128) then unquote_parts (run ++ [c]) r
      else decode_replace (unquote_to_bytes run) ++ c :: unquote_parts [] r
  end.

Definition unquote (string : str) : str :=
  if bool_decide (37 ∉ string) then string else unquote_parts [] string.

Definition unquote_plus (string : str) : str :=
  unquote (replace_char 43 32 string).

(** ** Paths and the file system *)

(** A path is the list of its components below the root; [..] is kept as a
    component, as [pathlib] does. *)
Abbreviation Path := (list (list Z)) (only parsing).

(** [location / segment] for a segment without separator: an empty segment
    and [.] leave the path as it is. *)
Definition joinpath (location : Path) (segment : str) : Path :=
  if bool_decide (segment = [] ∨ segment = py ".") then location
  else location ++ [segment].

(** [path.name] *)
Definition path_name (p : Path) : str := default [] (last p).

Inductive node : Type :=
  | File (data : bytes)
  | Dir.

#[global] Instance node_eq_dec : EqDecision node.
Proof. solve_decision. Defined.

(** The file system maps the resolved path of every file and directory to
    it. *)
Abbreviation Filesystem := (gmap (list (list Z)) node) (only parsing).

(** Where a path leads, one component at a time: each component is looked
    up in a directory, and [..] leads to the parent. *)
Fixpoint walk (fs : Filesystem) (cur : Path) (components : Path) : result Path :=
  match components with
  | [] => Ok cur
  | c :: rest =>
      match fs !! cur with
      | Some Dir =>
          walk fs (if bool_decide (c = py "..") then removelast cur else cur ++ [c]) rest
      | Some (File _) => Raise NotADirectoryError
      | None => Raise FileNotFoundError
      end
  end.

(** Code that uses the file system: the state is threaded along and
    survives an exception. *)
Definition FS (A : Type) : Type := Filesystem → result A * Filesystem.

#[global] Instance FS_ret : MRet FS := fun _ a fs => (Ok a, fs).
#[global] Instance FS_bind : MBind FS := fun _ _ f m fs =>
  match m fs with
  | (Ok a, fs') => f a fs'
  | (Raise e, fs') => (Raise e, fs')
  end.

Definition fs_lift {A} (r : result A) : FS A := fun fs => (r, fs).
Definition raise {A} (e : exn) : FS A := fun fs => (Raise e, fs).

(** [path.exists()] *)
Definition path_exists (p : Path) : FS bool := fun fs =>
  (Ok match walk fs [] p with
      | Ok q => bool_decide (is_Some (fs !! q))
      | Raise _ => false
      end, fs).

(** The content of the file at [p], as [open("rb")] gives access to it. *)
Definition open_rb (p : Path) : FS bytes := fun fs =>
  match walk fs [] p with
  | Ok q =>
      match fs !! q with
      | Some (File data) => (Ok data, fs)
      | Some Dir => (Raise IsADirectoryError, fs)
      | None => (Raise FileNotFoundError, fs)
      end
  | Raise e => (Raise e, fs)
  end.

(** [path.write_bytes(data)]: creates the file or replaces its content. *)
Definition write_bytes (p : Path) (data : bytes) : FS unit := fun fs =>
  match walk fs [] p with
  | Ok q =>
      match fs !! q with
      | Some Dir => (Raise IsADirectoryError, fs)
      | _ => (Ok tt, <[q := File data]> fs)
      end
  | Raise e => (Raise e, fs)
  end.

(** [path.open("ab")]: creates the file when there is none; the handle is
    the resolved path. *)
Definition open_ab (p : Path) : FS Path := fun fs =>
  match walk fs [] p with
  | Ok q =>
      match fs !! q with
      | Some Dir => (Raise IsADirectoryError, fs)
      | Some (File _) => (Ok q, fs)
      | None => (Ok q, <[q := File []]> fs)
      end
  | Raise e => (Raise e, fs)
  end.

(** [fd.write(data)] on a handle opened for appending. *)
Definition append (q : Path) (data : bytes) : FS unit := fun fs =>
  match fs !! q with
  | Some (File old) => (Ok tt, <[q := File (old ++ data)]> fs)
  | _ => (Raise FileNotFoundError, fs)
  end.

(** [path.stat().st_size]; what the platform reports for a directory is
    not modelled, 0 stands for it. *)
Definition st_size (p : Path) : FS Z := fun fs =>
  match walk fs [] p with
  | Ok q =>
      match fs !! q with
      | Some (File data) => (Ok (len data), fs)
      | Some Dir => (Ok 0, fs)
      | None => (Raise FileNotFoundError, fs)
      end
  | Raise e => (Raise e, fs)
  end.

(** [file.readline(None)]: through the first line feed, or all there is. *)
Fixpoint readline (data : bytes) : bytes :=
  match data with
  | [] => []
  | b :: r => if b =? 10 then [b] else b :: readline r
  end.

(** [",".join(names)]; for a set, Python joins its elements in an
    unspecified order, here the order of [elements]. *)
Fixpoint join_comma (names : list str) : str :=
  match names with
  | [] => []
  | [x] => x
  | x :: rest => x ++ 44 :: join_comma rest
  end.

(** [{col.name for col in info.columns}] *)
Definition column_names (info : TableInfo) : gset (list Z) :=
  list_to_set (name <$> columns info).

(** [a // b] *)
Definition floordiv (a b : Z) : result Z :=
  if b =? 0 then Raise ZeroDivisionError else Ok (a / b).

(** An insertion-ordered [dict]: a key that is set again keeps its place and
    takes the new value. *)
Fixpoint dict_set {V} (d : list (str * V)) (k : str) (v : V) : list (str * V) :=
  match d with
  | [] => [(k, v)]
  | (k', v') :: d' =>
      if bool_decide (k' = k) then (k, v) :: d' else (k', v') :: dict_set d' k v
  end.

Definition dict {V} (pairs : list (str * V)) : list (str * V) :=
  fold_left (fun d '(k, v) => dict_set d k v) pairs [].

(** [zip(xs, ys, strict=True)] *)
Fixpoint zip_strict {A B} (xs : list A) (ys : list B) : result (list (A * B)) :=
  match xs, ys with
  | [], [] => Ok []
  | x :: xs', y :: ys' => cons (x, y) <$> zip_strict xs' ys'
  | _, _ => Raise ValueError
  end.

(** A [polars.DataFrame] built from row dictionaries, seen as the list of
    the rows it holds ([to_dicts()]): the constructor keeps the rows, their
    order, the order of their keys and their values. *)
Definition DataFrame : Type := list (list (str * value)).

(** [range(n)] *)
Definition range (n : Z) : list Z := seqZ 0 n.

(** ** Table *)

Module Table.

(** A handle: the attributes [__init__] sets. *)
Record t : Type := mk {
  _location : Path;
  name : str;
  info : TableInfo;
  _data_start : Z
}.

#[global] Instance t_eq_dec : EqDecision t.
Proof. solve_decision. Defined.

(** [Table(location)] *)
Definition __init__ (location : Path) : FS t :=
  let name := unquote_plus (path_name location) in
  data ← open_rb location;
  '(info, data_start) ← fs_lift (_deserialize_header (readline data));
  mret (mk location name info data_start).

(** [Table.create(name, location, info)] *)
Definition create (name : str) (location : Path) (info : TableInfo) : FS t :=
  if MAX_TABLE_NAME_LENGTH <? len name then raise ValueError
  else
    quoted ← fs_lift (quote_plus name);
    let table_location := joinpath location quoted in
    present ← path_exists table_location;
    if (present : bool) then raise FileExistsError
    else
      header ← fs_lift (_serialize_header info);
      _ ← write_bytes table_location header;
      __init__ table_location.

(** [table.insert(pairs...)] *)
Definition insert (self : t) (inserted : list (str * value)) : FS unit :=
  let inserted_column_names : gset (list Z) := list_to_set (fst <$> inserted) in
  let table_columns := column_names (info self) in
  let extra_columns := inserted_column_names ∖ table_columns in
  if negb (bool_decide (extra_columns = ∅))
  then raise (ColumnDoesNotExist (join_comma (elements extra_columns)))
  else
    let missing_columns := table_columns ∖ inserted_column_names in
    if negb (bool_decide (missing_columns = ∅)) then raise NotImplementedError
    else
      fd ← open_ab (_location self);
      serialized ← fs_lift (_serialize_row (info self) (mapping inserted));
      append fd serialized.

(** [table.length] *)
Definition length (self : t) : FS Z :=
  size ← st_size (_location self);
  let total_data := size - _data_start self in
  fs_lift (floordiv total_data (row_length (info self))).

(** [table.query(columns)] *)
Definition query (self : t) (columns : list str) : FS DataFrame :=
  let table_columns := column_names (info self) in
  let extra_columns : gset (list Z) := list_to_set columns ∖ table_columns in
  if negb (bool_decide (extra_columns = ∅))
  then raise (ColumnDoesNotExist (join_comma (elements extra_columns)))
  else
    data ← open_rb (_location self);
    let file := seek (_data_start self) (BytesIO data) in
    n ← length self;
    rows ← fs_lift
      (mapM (M := IO)
         (fun row_num =>
            values ← _deserialize_row (info self)
                       (_data_start self + row_num * row_length (info self)) columns;
            io_lift (dict <$> zip_strict columns values))
         (range n) file).1;
    n' ← length self;
    _ ← fs_lift (assert (len rows =? n'));
    mret (rows : DataFrame).

End Table.

(** ** Vocabulary of the laws *)

(** A value is in range for a datatype: a string whose UTF-8 encoding has at
    most 16 bytes, an integer of 64 signed bits. *)
Definition in_range (datatype : DataTypes) (v : value) : bool :=
  match datatype, v with
  | STRING, VStr s =>
      match str_encode s with
      | Ok encoded => len encoded <=? _DATATYPE_LENGHTS STRING
      | Raise _ => false
      end
  | INTEGER, VInt n => (- 2 ^ 63 <=? n) && (n <=? 2 ^ 63 - 1)
  | _, _ => false
  end.

(** The encoding of a string value begins with a NUL byte. *)
Definition encoding_begins_with_nul (v : value) : bool :=
  match v with
  | VStr s => match str_encode s with Ok (0 :: _) => true | _ => false end
  | _ => false
  end.

(** What a stored value reads back as: a string without its leading U+0000
    characters, which the padding absorbs; an integer as it is. *)
Definition read_back (v : value) : value :=
  match v with
  | VStr s => VStr (lstrip_nul s)
  | _ => v
  end.

(** A string is text: every code point is a Unicode scalar value, which is
    what [str.encode] accepts. *)
Definition is_text (s : str) : bool :=
  match str_encode s with Ok _ => true | Raise _ => false end.

(** The column names of a schema are text. *)
Definition text_names (info : TableInfo) : bool :=
  forallb (fun col => is_text (name col)) (columns info).

(** The content of the regular file a path leads to. *)
Definition file_at (fs : Filesystem) (p : Path) : option bytes :=
  match walk fs [] p with
  | Ok q => match fs !! q with Some (File data) => Some data | _ => None end
  | Raise _ => None
  end.

(** The path leads to a directory. *)
Definition is_dir (fs : Filesystem) (p : Path) : bool :=
  match walk fs [] p with
  | Ok q => match fs !! q with Some Dir => true | _ => false end
  | Raise _ => false
  end.

(** One [insert] per row, in order, stopping at the first that raises. *)
Fixpoint insert_all (self : Table.t) (rows : list (list (str * value))) : FS unit :=
  match rows with
  | [] => mret tt
  | row :: rest => _ ← Table.insert self row; insert_all self rest
  end.

(** The value [inserted] provides for a column: the last one given under
    that name. *)
Definition provided_value (inserted : list (str * value)) (c : str) : value :=
  default VOther (mapping inserted !! c).

(** The record [query] builds for one inserted row: the requested columns
    in the order requested, each with the value read back. *)
Definition record_of (cols : list str) (inserted : list (str * value))
  : list (str * value) :=
  dict ((fun c => (c, read_back (provided_value inserted c))) <$> cols).

(** The limits of the platform on file names, which the file system above
    leaves out: a component has at most [NAME_MAX] bytes, and the path written
    out, with its separators and the terminating NUL, at most [PATH_MAX]
    (the values of Linux). Beyond them [exists] and [open] raise [OSError]. *)
Definition NAME_MAX : Z := 255.
Definition PATH_MAX : Z := 4096.

(** Every component of the path is a file name the platform takes, and so is
    the path as a whole. *)
Definition within_limits (p : Path) : bool :=
  match mapM str_encode p with
  | Ok names =>
      forallb (fun n => len n <=? NAME_MAX) names
      && (sum ((fun n => 1 + len n) <$> names) <? PATH_MAX)
  | Raise _ => false
  end.

(** A caller that inserts row after row, each into the table named with it,
    and goes on after an insert that raises: the outcome of every insert, in
    order, and the file system they leave. *)
Fixpoint insert_each (inserts : list (Table.t * list (str * value)))
    (fs : Filesystem) : list (result unit) * Filesystem :=
  match inserts with
  | [] => ([], fs)
  | (table, row) :: rest =>
      let '(outcome, fs1) := Table.insert table row fs in
      let '(outcomes, fs2) := insert_each rest fs1 in
      (outcome :: outcomes, fs2)
  end.

(** Two outcomes of [insert] are the same up to the order in which a
    [ColumnDoesNotExist] message lists its names, which is the iteration
    order of a Python set. *)
Definition same_outcome (r r' : result unit) : Prop :=
  match r, r' with
  | Raise (ColumnDoesNotExist msg), Raise (ColumnDoesNotExist msg') =>
      ∃ names names', names ≡ₚ names'
                      ∧ msg = join_comma names ∧ msg' = join_comma names'
  | _, _ => r = r'
  end.

(** ** A worked example: the table of the test suite *)

Definition example_info : TableInfo :=
  mkTableInfo [mkColumnInfo (py "name") STRING; mkColumnInfo (py "age") INTEGER].

(** A root directory that holds the directory [tmp]. *)
Definition example_root : Filesystem := {[ [] := Dir; [py "tmp"] := Dir ]}.

Definition example_header : bytes :=
  Eval vm_compute in
    match _serialize_header example_info with Ok header => header | Raise _ => [] end.

(** The handle and the file system after
    [Table.create("my_test_table", tmp, example_info)]. *)
Definition example_table : Table.t :=
  Table.mk [py "tmp"; py "my_test_table"] (py "my_test_table") example_info 86.

Definition example_fs : Filesystem :=
  <[ [py "tmp"; py "my_test_table"] := File example_header ]> example_root.

(** A row whose [name] does not fit its slot. *)
Definition oversized_row : list (str * value) :=
  [(py "name", VStr (py "seventeen letters")); (py "age", VInt 0)].

(** A row whose [name] begins with U+0000. *)
Definition nul_row : list (str * value) :=
  [(py "name", VStr (0 :: py "a")); (py "age", VInt 1)].

(** ** Vocabulary of the proofs *)

(** Closed decidable goals are settled by evaluation. *)
Ltac by_compute := apply (bool_decide_unpack _); vm_compute; exact I.

(** Case analysis on the comparisons a hypothesis tests. *)
Ltac split_ltb :=
  repeat match goal with
  | H : context [?a <? ?b] |- _ => destruct (Z.ltb_spec a b); simpl in H
  | H : context [?a <=? ?b] |- _ => destruct (Z.leb_spec a b); simpl in H
  end.

(** Replaces every comparison of the goal that arithmetic decides by its
    value. *)
Ltac decide_tests :=
  repeat match goal with
  | |- context [?a <? ?b] =>
      first [ replace (a <? b) with true by (symmetry; apply Z.ltb_lt; Z.div_mod_to_equations; lia)
            | replace (a <? b) with false by (symmetry; apply Z.ltb_ge; Z.div_mod_to_equations; lia) ]
  | |- context [?a <=? ?b] =>
      first [ replace (a <=? b) with true by (symmetry; apply Z.leb_le; Z.div_mod_to_equations; lia)
            | replace (a <=? b) with false by (symmetry; apply Z.leb_gt; Z.div_mod_to_equations; lia) ]
  | |- context [?a =? ?b] =>
      first [ replace (a =? b) with true by (symmetry; apply Z.eqb_eq; Z.div_mod_to_equations; lia)
            | replace (a =? b) with false by (symmetry; apply Z.eqb_neq; Z.div_mod_to_equations; lia) ]
  end.

(** Steps the UTF-8 decoder through the tests arithmetic decides. *)
Ltac run_decoder :=
  repeat (unfold is_continuation; decide_tests; cbn [andb orb negb]).

(** The row codec raises nothing but what its lookups, the value codec and
    its assertion raise. *)
Definition codec_exn (e : exn) : Prop :=
  e = KeyError ∨ e = ValueError ∨ e = AssertionError ∨ e = OverflowError
  ∨ e = UnicodeEncodeError.

(** The slot of every column, in schema order. *)
Definition slots_of (values : gmap (list Z) value) (cols : list ColumnInfo)
    (parts : list (list Z)) : Prop :=
  Forall2 (fun col slot => ∃ v, values !! name col = Some v
                                ∧ _serialize_value (datatype col) v = Ok slot)
          cols parts.

(** Tokens that the lexer reads back whatever follows them. *)
Definition lexable (t : token) : Prop :=
  match t with
  | TNum _ => False
  | TStr s => Forall (fun c => 0 <= c) s
  | _ => True
  end.

(** The tokens of the JSON value of one column. *)
Definition column_tokens (col : ColumnInfo) : list token :=
  [TLBrace; TStr (py "name"); TColon; TStr (name col); TComma;
   TStr (py "datatype"); TColon; TStr (datatype_name (datatype col)); TRBrace].

(** A Unicode scalar value: a code point that is no surrogate. *)
Definition scalar (c : Z) : Prop := 0 <= c < 0x110000 ∧ is_surrogate c = false.

(** The tokens of the JSON text of a schema with text names. *)
Definition text_token (t : token) : Prop :=
  match t with
  | TNum _ => False
  | TStr s => Forall scalar s
  | _ => True
  end.

(** What [quote_plus] writes for one byte, after [unquote_plus] has turned
    the plus signs back into spaces. *)
Definition quoted_byte (b : Z) : str := if b =? 32 then [32] else quoter [] b.

(** The chunks between the percent signs, unquoted and joined. *)
Definition join_unquoted (chunks : list (list Z)) : list Z :=
  match chunks with
  | [] => []
  | bit0 :: items => bit0 ++ flat_map unquote_item items
  end.

(** The row [inserted] serializes to [row] under the schema. *)
Definition stored_as (info : TableInfo) (inserted : list (str * value))
    (row : list Z) : Prop :=
  _serialize_row info (mapping inserted) = Ok row.

(** The widths of the slots of some columns. *)
Definition widths (cols : list ColumnInfo) : list Z :=
  (fun col => _DATATYPE_LENGHTS (datatype col)) <$> cols.

(** One turn of the loop of [column_offsets]. *)
Definition offsets_step (acc : Z * gmap (list Z) Z) (col : ColumnInfo) :=
  let '(offset, offsets) := acc in
  (offset + _DATATYPE_LENGHTS (datatype col), <[name col := offset]> offsets).

(** One turn of the loop of [query]. *)
Definition query_row (self : Table.t) (cols : list (list Z)) (row_num : Z)
  : IO (list (list Z * value)) :=
  values ← _deserialize_row (Table.info self)
             (Table._data_start self + row_num * row_length (Table.info self)) cols;
  io_lift (dict <$> zip_strict cols values).

(** Case analysis on what the decoder tests on its way to a result. *)
Ltac split_decoder H :=
  unfold is_continuation in H;
  repeat (first
    [ match type of H with
      | context [?a <? ?b] => destruct (Z.ltb_spec a b)
      | context [?a <=? ?b] => destruct (Z.leb_spec a b)
      | context [?a =? ?b] => destruct (Z.eqb_spec a b)
      end
    | match type of H with
      | context [match ?r with [] => _ | _ :: _ => _ end] => is_var r; destruct r
      end ];
    cbn [andb orb negb on_decode_error] in H; try discriminate H).

(** A computation that never changes the file system. *)
Definition read_only {A} (m : FS A) : Prop := ∀ fs, (m fs).2 = fs.

(** What [insert] appends when nothing keeps it from writing: the checks
    and the serialization, which do not look at the file system. *)
Definition row_to_append (self : Table.t) (inserted : list (list Z * value))
  : result (list Z) :=
  let provided : gset (list Z) := list_to_set (fst <$> inserted) in
  let table_columns := column_names (Table.info self) in
  if negb (bool_decide (provided ∖ table_columns = ∅))
  then Raise (ColumnDoesNotExist (join_comma (elements (provided ∖ table_columns))))
  else if negb (bool_decide (table_columns ∖ provided = ∅))
       then Raise NotImplementedError
       else _serialize_row (Table.info self) (mapping inserted).

(** A reading computation gives the same result in two file systems. *)
Definition agree {A : Type} (fs fs' : gmap (list (list Z)) node) (m : FS A) : Prop :=
  (m fs').1 = (m fs).1 ∧ (m fs').2 = fs' ∧ (m fs).2 = fs.

(** The names of [cols] that are not in [seen], each once, in the order in
    which they first occur. *)
Fixpoint first_occurrences_from (seen cols : list (list Z)) : list (list Z) :=
  match cols with
  | [] => []
  | c :: rest =>
      if bool_decide (c ∈ seen) then first_occurrences_from seen rest
      else c :: first_occurrences_from (seen ++ [c]) rest
  end.

Definition first_occurrences (cols : list (list Z)) : list (list Z) :=
  first_occurrences_from [] cols.

(** What one column of the row at [start] reads as. *)
Definition column_at (info : TableInfo) (data : list Z) (start : Z) (c : list Z)
  : result value :=
  offset ← getitem (column_offsets info) c;
  ci ← getitem (columns_dict info) c;
  (_deserialize_value (datatype ci) (mkIO data (start + offset))).1.

(** * Laws *)

(** ** Results *)

Lemma bind_Ok {A B} (m : result A) (f : A → result B) b :
  m ≫= f = Ok b → ∃ a, m = Ok a ∧ f a = Ok b.
Proof. destruct m as [a|e]; [eauto | discriminate]. Qed.

Lemma fmap_Ok {A B} (m : result A) (f : A → B) b :
  f <$> m = Ok b → ∃ a, m = Ok a ∧ b = f a.
Proof. destruct m as [a|e]; simpl; [|discriminate]. intros [= <-]. eauto. Qed.

Lemma len_app {A} (l k : list A) : len (l ++ k) = len l + len k.
Proof. unfold len. rewrite length_app. lia. Qed.

Lemma len_nonneg {A} (l : list A) : 0 <= len l.
Proof. unfold len. lia. Qed.

(** ** UTF-8 *)

Lemma utf8_encode_char_range c cs :
  utf8_encode_char c = Ok cs →
  0 <= c < 0x110000 ∧ is_surrogate c = false.
Proof.
  unfold utf8_encode_char, is_surrogate. intros H.
  split_ltb; try discriminate; split; try lia;
    repeat match goal with
    | |- context [?a <=? ?b] => destruct (Z.leb_spec a b)
    end; simpl; try reflexivity; try lia.
Qed.

Lemma bytes_decode_encode_char errors c cs rest :
  utf8_encode_char c = Ok cs →
  bytes_decode errors (cs ++ rest) = cons c <$> bytes_decode errors rest.
Proof.
  unfold utf8_encode_char, is_surrogate. intros H.
  split_ltb; try discriminate; injection H as <-; cbn [app bytes_decode];
    run_decoder; try reflexivity;
    repeat match goal with
    | |- context [if ?a <? ?b then _ else _] => destruct (Z.ltb_spec a b); run_decoder
    end;
    f_equal; f_equal; Z.div_mod_to_equations; lia.
Qed.

Lemma bytes_decode_encode errors s bs :
  str_encode s = Ok bs → bytes_decode errors bs = Ok s.
Proof.
  revert bs. induction s as [|c s IH]; intros bs H; simpl in H.
  - by injection H as <-.
  - apply bind_Ok in H as (cs & Hc & H). apply bind_Ok in H as (rest & Hr & H).
    injection H as <-. rewrite (bytes_decode_encode_char _ _ _ _ Hc).
    by rewrite (IH _ Hr).
Qed.

(** The encoding starts with a NUL byte exactly when the string starts with
    U+0000. *)
Lemma str_encode_head s bs :
  str_encode s = Ok bs → head bs = Some 0 ↔ head s = Some 0.
Proof.
  destruct s as [|c s]; simpl; intros H.
  - by injection H as <-.
  - apply bind_Ok in H as (cs & Hc & H). apply bind_Ok in H as (rest & Hr & H).
    injection H as <-. revert Hc. unfold utf8_encode_char, is_surrogate.
    intros Hc. split_ltb; try discriminate; injection Hc as <-; simpl;
      split; intros [= E]; f_equal; Z.div_mod_to_equations; lia.
Qed.

Lemma str_encode_cons_nul s : str_encode (0 :: s) = cons 0 <$> str_encode s.
Proof. simpl. by destruct (str_encode s). Qed.

(** ** Byte-string helpers *)

Lemma len_zeros n : len (zeros n) = Z.max 0 n.
Proof. unfold len, zeros. rewrite length_replicate. lia. Qed.

Lemma lstrip_nul_zeros n bs : lstrip_nul (zeros n ++ bs) = lstrip_nul bs.
Proof. unfold zeros. induction (Z.to_nat n) as [|k IH]; simpl; done. Qed.

Lemma lstrip_nul_id bs : head bs ≠ Some 0 → lstrip_nul bs = bs.
Proof.
  destruct bs as [|b r]; simpl; [done|]. intros H.
  destruct (Z.eqb_spec b 0) as [->|]; [by destruct H | done].
Qed.

Lemma lstrip_nul_left_pad bs n : lstrip_nul (left_pad bs n) = lstrip_nul bs.
Proof. apply lstrip_nul_zeros. Qed.

Lemma len_left_pad bs n : len bs <= n → len (left_pad bs n) = n.
Proof. intros H. unfold left_pad. rewrite len_app, len_zeros. lia. Qed.

Lemma len_left_pad_long bs n : n < len bs → len (left_pad bs n) = len bs.
Proof. intros H. unfold left_pad. rewrite len_app, len_zeros. lia. Qed.

(** Stripping commutes with encoding: U+0000 is the only code point whose
    encoding starts with a NUL byte. *)
Lemma str_encode_lstrip_nul s bs :
  str_encode s = Ok bs → str_encode (lstrip_nul s) = Ok (lstrip_nul bs).
Proof.
  revert bs. induction s as [|c s IH]; intros bs H.
  - by injection H as <-.
  - destruct (Z.eqb_spec c 0) as [->|Hc].
    + rewrite str_encode_cons_nul in H. apply fmap_Ok in H as (bs' & H & ->).
      simpl. by apply IH.
    + assert (lstrip_nul (c :: s) = c :: s) as ->.
      { simpl. by destruct (Z.eqb_spec c 0). }
      rewrite H. f_equal. symmetry. apply lstrip_nul_id.
      rewrite (str_encode_head _ _ H). simpl. congruence.
Qed.

Lemma length_big_endian n u : length (big_endian n u) = n.
Proof.
  revert u. induction n as [|n IH]; intros u; simpl; [done|].
  rewrite length_app, IH. simpl. lia.
Qed.

Lemma unsigned_of_bytes_app bs b :
  unsigned_of_bytes (bs ++ [b]) = unsigned_of_bytes bs * 256 + b.
Proof. unfold unsigned_of_bytes. by rewrite fold_left_app. Qed.

Lemma unsigned_of_big_endian n u :
  0 <= u → unsigned_of_bytes (big_endian n u) = u mod 256 ^ Z.of_nat n.
Proof.
  revert u. induction n as [|n IH]; intros u Hu.
  - simpl. by rewrite Z.mod_1_r.
  - cbn [big_endian]. rewrite unsigned_of_bytes_app, IH by (apply Z.div_pos; lia).
    rewrite Nat2Z.inj_succ, Z.pow_succ_r by lia.
    rewrite Z.rem_mul_r by lia. lia.
Qed.

Lemma int_from_to_bytes v :
  - 2 ^ 63 <= v < 2 ^ 63 →
  int_from_bytes (big_endian 8 (v mod 2 ^ 64)) = v.
Proof.
  intros Hv. unfold int_from_bytes, len.
  rewrite length_big_endian, unsigned_of_big_endian by (apply Z.mod_pos_bound; lia).
  change (256 ^ Z.of_nat 8) with (2 ^ 64). change (8 * Z.of_nat 8 - 1) with 63.
  change (8 * Z.of_nat 8) with 64. rewrite Z.mod_mod by lia.
  change (0 <? Z.of_nat 8) with true. cbn [andb].
  destruct (Z.leb_spec (2 ^ 63) (v mod 2 ^ 64)); Z.div_mod_to_equations; lia.
Qed.

(** ** Value codec *)

Lemma read_slot pre slot post n :
  len slot = n →
  read n (mkIO (pre ++ slot ++ post) (len pre))
  = (slot, mkIO (pre ++ slot ++ post) (len pre + n)).
Proof.
  intros <-. unfold read, len; cbn [content pos].
  rewrite !Nat2Z.id, drop_app_length, take_app_length. done.
Qed.

Lemma read_BytesIO slot n :
  len slot = n → (read n (BytesIO slot)).1 = slot.
Proof.
  intros H. pose proof (read_slot [] slot [] n H) as R.
  rewrite app_nil_r in R. unfold BytesIO. cbn [app] in R.
  change (len []) with 0 in R. by rewrite R.
Qed.

(** A slot has the width of its datatype. *)
Lemma _serialize_value_len datatype v slot :
  _serialize_value datatype v = Ok slot → len slot = _DATATYPE_LENGHTS datatype.
Proof.
  unfold _serialize_value. intros H.
  apply bind_Ok in H as (bs & _ & H). apply bind_Ok in H as ([] & Ha & [= <-]).
  unfold assert in Ha. destruct (Z.eqb_spec (len bs) (_DATATYPE_LENGHTS datatype)); done.
Qed.

Lemma _serialize_value_STRING s encoded :
  str_encode s = Ok encoded →
  _serialize_value STRING (VStr s) =
    if len encoded <=? 16 then Ok (left_pad encoded 16) else Raise AssertionError.
Proof.
  intros He. unfold _serialize_value. rewrite He. cbn [mbind result_bind _DATATYPE_LENGHTS].
  destruct (Z.leb_spec (len encoded) 16).
  - rewrite len_left_pad, Z.eqb_refl by done. done.
  - rewrite len_left_pad_long by done.
    destruct (Z.eqb_spec (len encoded) 16); [lia | done].
Qed.

Lemma _serialize_value_INTEGER n :
  _serialize_value INTEGER (VInt n) =
    if (- 2 ^ 63 <=? n) && (n <? 2 ^ 63)
    then Ok (big_endian 8 (n mod 2 ^ 64)) else Raise OverflowError.
Proof.
  unfold _serialize_value, int_to_bytes. cbn [_DATATYPE_LENGHTS].
  change (8 * 8 - 1) with 63. change (8 * 8) with 64. change (Z.to_nat 8) with 8%nat.
  destruct ((- 2 ^ 63 <=? n) && (n <? 2 ^ 63)); [|done].
  cbn [mbind result_bind]. unfold len. rewrite length_big_endian. done.
Qed.

(** Reading a slot back where it lies in a file. *)
Lemma _deserialize_serialize_value datatype v slot pre post :
  _serialize_value datatype v = Ok slot →
  _deserialize_value datatype (mkIO (pre ++ slot ++ post) (len pre))
  = (Ok (read_back v),
     mkIO (pre ++ slot ++ post) (len pre + _DATATYPE_LENGHTS datatype)).
Proof.
  intros H. pose proof (_serialize_value_len _ _ _ H) as Hlen.
  unfold _deserialize_value. rewrite (read_slot _ _ _ _ Hlen).
  destruct datatype, v as [s|n|]; try discriminate.
  - destruct (str_encode s) as [encoded|e] eqn:He; [|unfold _serialize_value in H; by rewrite He in H].
    rewrite (_serialize_value_STRING _ _ He) in H.
    destruct (len encoded <=? 16); [|done]. injection H as <-.
    rewrite lstrip_nul_left_pad.
    by rewrite (bytes_decode_encode strict _ _ (str_encode_lstrip_nul _ _ He)).
  - rewrite _serialize_value_INTEGER in H.
    destruct (Z.leb_spec (- 2 ^ 63) n), (Z.ltb_spec n (2 ^ 63)); try discriminate.
    cbn [andb] in H.
    assert (slot = big_endian 8 (n mod 2 ^ 64)) as -> by congruence.
    cbn [read_back]. by rewrite int_from_to_bytes by lia.
Qed.

Lemma read_back_id datatype v :
  in_range datatype v = true →
  encoding_begins_with_nul v = false → read_back v = v.
Proof.
  destruct v as [s| |]; try done. destruct datatype; [|done].
  unfold in_range, encoding_begins_with_nul, read_back.
  intros Hr H. f_equal. destruct s as [|c s]; [done|]. cbn [lstrip_nul].
  destruct (Z.eqb_spec c 0) as [->|]; [|done].
  rewrite str_encode_cons_nul in H, Hr. by destruct (str_encode s).
Qed.

(** Only a string that begins with U+0000 reads back changed. *)
Lemma read_back_exact v : (∀ s, v ≠ VStr (0 :: s)) → read_back v = v.
Proof.
  destruct v as [[|c s]| |]; try done. intros H. cbn [read_back lstrip_nul].
  destruct (Z.eqb_spec c 0) as [->|]; [by destruct (H s) | done].
Qed.

Lemma in_range_serializes datatype v :
  in_range datatype v = true →
  ∃ slot, _serialize_value datatype v = Ok slot.
Proof.
  destruct datatype, v as [s|n|]; try discriminate; cbn [in_range _DATATYPE_LENGHTS].
  - destruct (str_encode s) as [encoded|] eqn:He; [|done]. intros H.
    rewrite (_serialize_value_STRING _ _ He), H. eauto.
  - intros H. rewrite _serialize_value_INTEGER.
    replace (n <? 2 ^ 63) with (n <=? 2 ^ 63 - 1) by lia. rewrite H. eauto.
Qed.

(** C1. Deserializing the slot that [_serialize_value] produced for an
    in-range value gives the value back: always for INTEGER, and for STRING
    whenever the encoding does not begin with a NUL byte. *)
Theorem value_codec_round_trip datatype v :
  in_range datatype v = true →
  encoding_begins_with_nul v = false →
  ∃ slot, _serialize_value datatype v = Ok slot
          ∧ (_deserialize_value datatype (BytesIO slot)).1 = Ok v.
Proof.
  intros Hr Hn. destruct (in_range_serializes _ _ Hr) as [slot Hs].
  exists slot. split; [done|].
  pose proof (_deserialize_serialize_value _ _ _ [] [] Hs) as R.
  rewrite app_nil_r in R. unfold BytesIO. cbn [app] in R.
  change (len []) with 0 in R. rewrite R. cbn [fst].
  by rewrite (read_back_id datatype).
Qed.

Lemma value_codec_round_trip_witness :
  ∃ slot, _serialize_value STRING (VStr (py "Spam0")) = Ok slot
          ∧ (_deserialize_value STRING (BytesIO slot)).1 = Ok (VStr (py "Spam0")).
Proof. apply (value_codec_round_trip STRING (VStr (py "Spam0"))); reflexivity. Defined.

(** C6. [_serialize_value] fails on a string whose encoding exceeds 16 bytes
    (the length assertion, [AssertionError]) and on an integer outside
    [-2^63, 2^63-1] ([OverflowError]); on an in-range value of the matching
    type it succeeds with exactly the width of the datatype. *)
Theorem value_codec_failures :
  (∀ s encoded, str_encode s = Ok encoded → 16 < len encoded →
     _serialize_value STRING (VStr s) = Raise AssertionError)
  ∧ (∀ n, ¬ (- 2 ^ 63 <= n <= 2 ^ 63 - 1) →
     _serialize_value INTEGER (VInt n) = Raise OverflowError)
  ∧ (∀ datatype v, in_range datatype v = true →
     ∃ slot, _serialize_value datatype v = Ok slot
             ∧ len slot = _DATATYPE_LENGHTS datatype).
Proof.
  split; [|split].
  - intros s encoded He Hlen. rewrite (_serialize_value_STRING _ _ He).
    destruct (Z.leb_spec (len encoded) 16); [lia | done].
  - intros n Hn. rewrite _serialize_value_INTEGER.
    destruct (Z.leb_spec (- 2 ^ 63) n), (Z.ltb_spec n (2 ^ 63)); try done. lia.
  - intros datatype v Hr. destruct (in_range_serializes _ _ Hr) as [slot Hs].
    exists slot. split; [done|]. by apply _serialize_value_len in Hs.
Qed.

Lemma value_codec_failures_witness :
  _serialize_value STRING (VStr (py "seventeen letters")) = Raise AssertionError
  ∧ _serialize_value INTEGER (VInt (2 ^ 63)) = Raise OverflowError
  ∧ ∃ slot, _serialize_value INTEGER (VInt (- 2 ^ 63)) = Ok slot ∧ len slot = 8.
Proof.
  destruct value_codec_failures as (Hs & Hi & Hok).
  split; [|split].
  - apply (Hs (py "seventeen letters") (py "seventeen letters")); [reflexivity | vm_compute; reflexivity].
  - apply (Hi (2 ^ 63)). lia.
  - apply (Hok INTEGER (VInt (- 2 ^ 63))). reflexivity.
Defined.

(** ** Schema *)

Lemma sum_from l a : fold_left Z.add l a = a + sum l.
Proof.
  unfold sum. revert a. induction l as [|x l IH]; intros a; cbn [fold_left]; [lia|].
  rewrite (IH (a + x)), (IH (0 + x)). lia.
Qed.

Lemma sum_cons x l : sum (x :: l) = x + sum l.
Proof. unfold sum at 1. cbn [fold_left]. rewrite sum_from. lia. Qed.

Lemma sum_app l k : sum (l ++ k) = sum l + sum k.
Proof. induction l as [|x l IH]; simpl; [done|]. rewrite !sum_cons, IH. lia. Qed.

Lemma _DATATYPE_LENGHTS_pos d : 0 < _DATATYPE_LENGHTS d.
Proof. by destruct d. Qed.

Lemma row_length_nonneg info : 0 <= row_length info.
Proof.
  unfold row_length. induction (columns info) as [|c l IH]; [done|].
  rewrite fmap_cons, sum_cons. pose proof (_DATATYPE_LENGHTS_pos (datatype c)). lia.
Qed.

Lemma row_length_pos info : columns info ≠ [] → 0 < row_length info.
Proof.
  unfold row_length. destruct info as [[|c l]]; [done|]. intros _. cbn [columns].
  rewrite fmap_cons, sum_cons.
  pose proof (_DATATYPE_LENGHTS_pos (datatype c)).
  pose proof (row_length_nonneg (mkTableInfo l)) as H'. unfold row_length in H'.
  cbn [columns] in H'. lia.
Qed.

(** ** File system *)

Lemma walk_insert_file fs q d d' cur comps :
  fs !! q = Some (File d) →
  walk (<[q := File d']> fs) cur comps = walk fs cur comps.
Proof.
  intros Hq. revert cur. induction comps as [|c rest IH]; intros cur; [done|].
  cbn [walk]. destruct (decide (cur = q)) as [->|Hne].
  - by rewrite lookup_insert_eq, Hq.
  - rewrite lookup_insert_ne by done. destruct (fs !! cur) as [[]|]; auto.
Qed.

Lemma walk_insert_fresh fs q d cur comps q' :
  fs !! q = None →
  walk fs cur comps = Ok q' →
  walk (<[q := File d]> fs) cur comps = Ok q'.
Proof.
  intros Hq. revert cur. induction comps as [|c rest IH]; intros cur; [done|].
  cbn [walk]. destruct (decide (cur = q)) as [->|Hne].
  - by rewrite Hq.
  - rewrite lookup_insert_ne by done. destruct (fs !! cur) as [[]|]; auto.
Qed.

Lemma file_at_Some fs p data :
  file_at fs p = Some data ↔ ∃ q, walk fs [] p = Ok q ∧ fs !! q = Some (File data).
Proof.
  unfold file_at. split.
  - destruct (walk fs [] p) as [q|]; [|done].
    destruct (fs !! q) as [[d|]|] eqn:E; try done. intros [= ->]. eauto.
  - intros (q & -> & ->). done.
Qed.

Lemma difference_empty (X Y : gset (list Z)) : X ∖ Y = ∅ ↔ X ⊆ Y.
Proof.
  split.
  - intros H x Hx. destruct (decide (x ∈ Y)) as [|Hn]; [done|].
    assert (x ∈ X ∖ Y) as Hd by (apply elem_of_difference; done).
    rewrite H in Hd. by apply not_elem_of_empty in Hd.
  - intros H. apply leibniz_equiv. intros x. rewrite elem_of_difference.
    split; [intros [H1 H2]; destruct H2; by apply H | by intros ?%not_elem_of_empty].
Qed.

(** ** Insert and length *)

Lemma length_eq self fs data :
  file_at fs (Table._location self) = Some data →
  Table.length self fs
  = (floordiv (len data - Table._data_start self) (row_length (Table.info self)), fs).
Proof.
  intros (q & Hw & Hq)%file_at_Some.
  unfold Table.length, st_size, mbind, FS_bind. by rewrite Hw, Hq.
Qed.

Lemma insert_extra self inserted fs :
  let extra : gset (list Z) :=
    list_to_set (fst <$> inserted) ∖ column_names (Table.info self) in
  extra ≠ ∅ →
  Table.insert self inserted fs
  = (Raise (ColumnDoesNotExist (join_comma (elements extra))), fs).
Proof.
  intros extra H. unfold Table.insert. fold extra.
  by rewrite bool_decide_eq_false_2.
Qed.

Lemma insert_missing self inserted fs :
  let provided : gset (list Z) := list_to_set (fst <$> inserted) in
  provided ∖ column_names (Table.info self) = ∅ →
  column_names (Table.info self) ∖ provided ≠ ∅ →
  Table.insert self inserted fs = (Raise NotImplementedError, fs).
Proof.
  intros provided H1 H2. unfold Table.insert. fold provided.
  rewrite bool_decide_eq_true_2 by done. cbn [negb].
  by rewrite bool_decide_eq_false_2.
Qed.

Lemma insert_complete self inserted fs data :
  let provided : gset (list Z) := list_to_set (fst <$> inserted) in
  provided ∖ column_names (Table.info self) = ∅ →
  column_names (Table.info self) ∖ provided = ∅ →
  file_at fs (Table._location self) = Some data →
  ∃ q, walk fs [] (Table._location self) = Ok q ∧ fs !! q = Some (File data) ∧
  Table.insert self inserted fs
  = match _serialize_row (Table.info self) (mapping inserted) with
    | Ok row => (Ok tt, <[q := File (data ++ row)]> fs)
    | Raise e => (Raise e, fs)
    end.
Proof.
  intros provided H1 H2 (q & Hw & Hq)%file_at_Some. exists q. split; [done|]. split; [done|].
  unfold Table.insert. fold provided.
  rewrite !bool_decide_eq_true_2 by done. cbn [negb].
  unfold mbind, FS_bind, open_ab, fs_lift, append. rewrite Hw, Hq.
  destruct (_serialize_row _ _); [|done]. by rewrite Hq.
Qed.

Lemma file_at_insert fs p q data data' :
  walk fs [] p = Ok q → fs !! q = Some (File data) →
  file_at (<[q := File data']> fs) p = Some data'.
Proof.
  intros Hw Hq. unfold file_at.
  by rewrite (walk_insert_file _ _ _ _ _ _ Hq), Hw, lookup_insert_eq.
Qed.

Lemma _serialize_row_len info values row :
  _serialize_row info values = Ok row → len row = row_length info.
Proof.
  unfold _serialize_row. intros H. apply bind_Ok in H as (parts & _ & H).
  apply bind_Ok in H as ([] & Ha & [= <-]). unfold assert in Ha.
  destruct (Z.eqb_spec (len (concat parts)) (row_length info)); done.
Qed.

Lemma example_create :
  Table.create (py "my_test_table") [py "tmp"] example_info example_root
  = (Ok example_table, example_fs).
Proof. by_compute. Qed.

Lemma example_file : file_at example_fs (Table._location example_table) = Some example_header.
Proof. by_compute. Qed.

Lemma str_encode_exn s e : str_encode s = Raise e → e = UnicodeEncodeError.
Proof.
  induction s as [|c s IH]; [done|]. cbn [str_encode].
  destruct (utf8_encode_char c) as [cs|e'] eqn:Hc.
  - cbn. destruct (str_encode s); [done|]. intros [= <-]. by apply IH.
  - cbn. intros [= <-]. revert Hc. unfold utf8_encode_char.
    repeat match goal with |- context [if ?b then _ else _] => destruct b end;
      congruence.
Qed.

Lemma _serialize_value_exn datatype v e :
  _serialize_value datatype v = Raise e → codec_exn e.
Proof.
  unfold _serialize_value, codec_exn.
  destruct datatype, v as [s|n|]; cbn; try (intros [= <-]; tauto).
  - destruct (str_encode s) as [bs|e'] eqn:He; cbn.
    + unfold assert. destruct (_ =? _); cbn; intros [= <-]; tauto.
    + intros [= <-]. apply str_encode_exn in He. tauto.
  - unfold int_to_bytes. destruct (_ && _); cbn.
    + unfold assert. destruct (_ =? _); cbn; intros [= <-]; tauto.
    + intros [= <-]; tauto.
Qed.

Lemma _serialize_row_exn info values e :
  _serialize_row info values = Raise e → codec_exn e.
Proof.
  unfold _serialize_row.
  destruct (mapM _ (columns info)) as [parts|e'] eqn:Hm; cbn.
  - unfold assert. destruct (_ =? _); cbn; intros [= <-]. right; right; by left.
  - intros [= <-]. revert e' Hm.
    induction (columns info) as [|c l IH]; intros e' Hm; [done|].
    cbn in Hm. unfold getitem in Hm. destruct (values !! name c) as [v|]; cbn in Hm.
    + destruct (_serialize_value (datatype c) v) as [slot|e''] eqn:Hv; cbn in Hm.
      * destruct (mapM _ l) eqn:Hl; [done|]. injection Hm as <-. by eapply IH.
      * injection Hm as <-. by eapply _serialize_value_exn.
    + injection Hm as <-. by left.
Qed.

(** C10. When [insert] fails with [ColumnDoesNotExist] or with the
    missing-column signal ([NotImplementedError]), the file system, and so the
    table file and the length derived from it, is what it was before the
    call. *)
Theorem insert_validation_failure_is_atomic self inserted fs e fs' :
  Table.insert self inserted fs = (Raise e, fs') →
  (∃ msg, e = ColumnDoesNotExist msg) ∨ e = NotImplementedError →
  fs' = fs
  ∧ file_at fs' (Table._location self) = file_at fs (Table._location self)
  ∧ Table.length self fs' = Table.length self fs.
Proof.
  intros H He. enough (fs' = fs) as -> by done.
  unfold Table.insert in H.
  destruct (bool_decide (_ ∖ _ = ∅)); cbn [negb] in H; [|by injection H].
  destruct (bool_decide (_ ∖ _ = ∅)); cbn [negb] in H; [|by injection H].
  unfold mbind, FS_bind, open_ab, fs_lift, append in H.
  destruct (walk fs [] (Table._location self)) as [q|]; [|by injection H].
  assert (∀ fs1 : gmap (list (list Z)) node,
    match _serialize_row (Table.info self) (mapping inserted) with
    | Ok a => match fs1 !! q with
              | Some (File old) => (Ok (), <[q:=File (old ++ a)]> fs1)
              | _ => (Raise FileNotFoundError, fs1)
              end
    | Raise e0 => (Raise e0, fs1)
    end = (Raise e, fs') → False) as Habs.
  { intros fs1 H1. destruct (_serialize_row _ _) as [row|e0] eqn:Hs.
    - destruct (fs1 !! q) as [[]|]; try discriminate; injection H1 as <- _;
        destruct He as [[? ?]|?]; discriminate.
    - injection H1 as <- _. apply _serialize_row_exn in Hs.
      destruct Hs as [->|[->|[->|[->| ->]]]]; destruct He as [[? ?]|?]; discriminate. }
  destruct (fs !! q) as [[]|]; try (by injection H); by apply Habs in H.
Qed.

Lemma insert_validation_failure_is_atomic_witness :
  let row := [(py "name", VStr (py "Spam")); (py "foo", VInt 18)] in
  (Table.insert example_table row example_fs).2 = example_fs
  ∧ file_at (Table.insert example_table row example_fs).2
      (Table._location example_table) = file_at example_fs (Table._location example_table)
  ∧ Table.length example_table (Table.insert example_table row example_fs).2
    = Table.length example_table example_fs.
Proof.
  intros row.
  apply (insert_validation_failure_is_atomic example_table row example_fs
           (ColumnDoesNotExist (py "foo"))).
  - by_compute.
  - left. eexists. reflexivity.
Defined.

Lemma mapM_result_cons {A B} (f : A → result B) x l :
  mapM f (x :: l) = y ← f x; k ← mapM f l; Ok (y :: k).
Proof. reflexivity. Qed.

Lemma slots_of_len values cols parts :
  slots_of values cols parts →
  len (concat parts) = sum ((fun col => _DATATYPE_LENGHTS (datatype col)) <$> cols).
Proof.
  induction 1 as [|col slot cols parts (v & _ & Hs) _ IH]; [done|].
  cbn [concat]. rewrite fmap_cons, len_app, sum_cons, IH.
  by rewrite (_serialize_value_len _ _ _ Hs).
Qed.

Lemma _serialize_row_slots info values parts :
  slots_of values (columns info) parts →
  _serialize_row info values = Ok (concat parts).
Proof.
  intros H. unfold _serialize_row.
  assert (mapM (fun col => v ← getitem values (name col);
                           _serialize_value (datatype col) v) (columns info)
          = Ok parts) as ->.
  { induction H as [|col slot cols parts' (v & Hv & Hs) _ IH]; [done|].
    rewrite mapM_result_cons, IH. unfold getitem. rewrite Hv.
    cbn [mbind result_bind]. by rewrite Hs. }
  cbn [mbind result_bind]. unfold row_length.
  by rewrite (slots_of_len _ _ _ H), Z.eqb_refl.
Qed.

Lemma _serialize_row_Ok info values row :
  _serialize_row info values = Ok row →
  ∃ parts, slots_of values (columns info) parts ∧ row = concat parts.
Proof.
  unfold _serialize_row. intros H. apply bind_Ok in H as (parts & Hm & H).
  apply bind_Ok in H as ([] & _ & [= <-]). exists parts. split; [|done].
  revert parts Hm. induction (columns info) as [|col cols IH]; intros parts Hm.
  - injection Hm as <-. constructor.
  - rewrite mapM_result_cons in Hm. apply bind_Ok in Hm as (slot & Hs & Hm).
    apply bind_Ok in Hm as (parts' & Hp & [= <-]).
    apply bind_Ok in Hs as (v & Hv & Hs). unfold getitem in Hv.
    destruct (values !! name col) as [v'|] eqn:E; [|done]. injection Hv as ->.
    constructor; [eauto | by apply IH].
Qed.

Lemma in_range_slots values cols :
  (∀ col, col ∈ cols → ∃ v, values !! name col = Some v
                            ∧ in_range (datatype col) v = true) →
  ∃ parts, slots_of values cols parts.
Proof.
  induction cols as [|col cols IH]; intros H.
  - exists []. constructor.
  - destruct (H col) as (v & Hv & Hr); [by left|].
    destruct (in_range_serializes _ _ Hr) as [slot Hs].
    destruct IH as [parts Hp]; [intros c Hc; apply H; by right|].
    exists (slot :: parts). constructor; eauto.
Qed.

(** C4, as amended. On a table whose file exists: a provided name that is
    not a column makes [insert] fail with [ColumnDoesNotExist], whose message
    joins exactly the absent names; otherwise a column that is not provided
    makes it fail with [NotImplementedError]; otherwise, when every provided
    value is in range for its column, one serialized row of [row_length]
    bytes is appended to the file, and when the row does not serialize, the
    exception of the codec is raised and nothing is written. *)
Theorem insert_behaviour self inserted fs data :
  file_at fs (Table._location self) = Some data →
  let provided : gset (list Z) := list_to_set (fst <$> inserted) in
  let schema := column_names (Table.info self) in
  (¬ provided ⊆ schema →
     ∃ absent, Table.insert self inserted fs
               = (Raise (ColumnDoesNotExist (join_comma absent)), fs)
               ∧ NoDup absent ∧ ∀ x, x ∈ absent ↔ x ∈ provided ∧ x ∉ schema)
  ∧ (provided ⊆ schema → ¬ schema ⊆ provided →
     Table.insert self inserted fs = (Raise NotImplementedError, fs))
  ∧ (provided ⊆ schema → schema ⊆ provided →
     (∀ col, col ∈ columns (Table.info self) →
        ∃ v, mapping inserted !! name col = Some v ∧ in_range (datatype col) v = true) →
     ∃ row fs', _serialize_row (Table.info self) (mapping inserted) = Ok row
       ∧ len row = row_length (Table.info self)
       ∧ Table.insert self inserted fs = (Ok tt, fs')
       ∧ file_at fs' (Table._location self) = Some (data ++ row))
  ∧ (provided ⊆ schema → schema ⊆ provided →
     ∀ e, _serialize_row (Table.info self) (mapping inserted) = Raise e →
     Table.insert self inserted fs = (Raise e, fs)).
Proof.
  intros Hfile provided schema. repeat split.
  - intros Hsub. exists (elements (provided ∖ schema)). split; [|split].
    + apply insert_extra. by rewrite difference_empty.
    + apply NoDup_elements.
    + intros x. by rewrite elem_of_elements, elem_of_difference.
  - intros H1 H2. apply insert_missing; by rewrite difference_empty.
  - intros H1 H2 Hr.
    destruct (insert_complete self inserted fs data) as (q & Hw & Hq & Hi);
      [by apply difference_empty | by apply difference_empty | done |].
    destruct (in_range_slots _ _ Hr) as [parts Hp].
    pose proof (_serialize_row_slots _ _ _ Hp) as Hrow.
    exists (concat parts), (<[q := File (data ++ concat parts)]> fs).
    split; [done|]. split; [by eapply _serialize_row_len|].
    split; [by rewrite Hi, Hrow | by eapply file_at_insert].
  - intros H1 H2 e He.
    destruct (insert_complete self inserted fs data) as (q & Hw & Hq & Hi);
      [by apply difference_empty | by apply difference_empty | done |].
    by rewrite Hi, He.
Qed.

Lemma insert_behaviour_witness :
  let row := [(py "name", VStr (py "Spam0")); (py "age", VInt 0)] in
  ∃ bs fs', _serialize_row example_info (mapping row) = Ok bs
    ∧ len bs = 24
    ∧ Table.insert example_table row example_fs = (Ok tt, fs')
    ∧ file_at fs' (Table._location example_table) = Some (example_header ++ bs).
Proof.
  intros row.
  destruct (insert_behaviour example_table row example_fs example_header example_file)
    as (_ & _ & H & _).
  apply H.
  - by_compute.
  - by_compute.
  - intros col Hc. apply list_elem_of_In in Hc.
    destruct Hc as [<-|[<-|[]]]; [exists (VStr (py "Spam0")) | exists (VInt 0)];
      split; by_compute.
Defined.

(** C4 as written fails: every column is provided and no other, yet
    [insert] appends no row, because the value codec refuses the value. *)
Lemma insert_behaviour_counterexample :
  let provided : gset (list Z) := list_to_set (fst <$> oversized_row) in
  Table.create (py "my_test_table") [py "tmp"] example_info example_root
  = (Ok example_table, example_fs)
  ∧ provided = column_names (Table.info example_table)
  ∧ Table.insert example_table oversized_row example_fs
    = (Raise AssertionError, example_fs)
  ∧ ¬ ∃ row fs', Table.insert example_table oversized_row example_fs = (Ok tt, fs')
                 ∧ file_at fs' (Table._location example_table)
                   = Some (example_header ++ row).
Proof.
  assert (Table.insert example_table oversized_row example_fs
          = (Raise AssertionError, example_fs)) as E by by_compute.
  split; [|split; [|split]].
  - apply example_create.
  - by_compute.
  - exact E.
  - intros (row & fs' & H & _). rewrite E in H. discriminate.
Qed.

(** ** JSON text *)

Lemma hex_value_hex_digit d : 0 <= d < 16 → hex_value (hex_digit d) = Some d.
Proof.
  intros Hd. unfold hex_value, hex_digit.
  destruct (Z.ltb_spec d 10); decide_tests; cbn [andb]; f_equal; lia.
Qed.

Lemma hex4_control c :
  0 <= c < 32 → hex4 48 48 (hex_digit (c / 16)) (hex_digit (c mod 16)) = Some c.
Proof.
  intros Hc. unfold hex4.
  rewrite !hex_value_hex_digit by (Z.div_mod_to_equations; lia).
  cbn. f_equal. Z.div_mod_to_equations. lia.
Qed.

Lemma lex_unicode_escape acc h1 h2 h3 h4 rest u :
  hex4 h1 h2 h3 h4 = Some u → 0 <= u < 0xD800 →
  lex (InStr acc) (92 :: 117 :: h1 :: h2 :: h3 :: h4 :: rest)
  = lex (InStr (acc ++ [u])) rest.
Proof.
  intros Hh Hu.
  change (lex (InStr acc) (92 :: 117 :: h1 :: h2 :: h3 :: h4 :: rest))
    with (match hex4 h1 h2 h3 h4 with
          | None => None
          | Some u =>
              if (0xD800 <=? u) && (u <? 0xDC00) then
                match rest with
                | 92 :: 117 :: l1 :: l2 :: l3 :: l4 :: r3 =>
                    match hex4 l1 l2 l3 l4 with
                    | None => None
                    | Some w =>
                        if (0xDC00 <=? w) && (w <? 0xE000)
                        then lex (InStr (acc ++ [0x10000 + (u - 0xD800) * 1024
                                                  + (w - 0xDC00)])) r3
                        else None
                    end
                | _ => None
                end
              else if (0xDC00 <=? u) && (u <? 0xE000) then None
              else lex (InStr (acc ++ [u])) rest
          end).
  rewrite Hh. decide_tests. reflexivity.
Qed.

Lemma lex_plain_char acc c rest :
  32 <= c → c ≠ 34 → c ≠ 92 →
  lex (InStr acc) (c :: rest) = lex (InStr (acc ++ [c])) rest.
Proof.
  intros H1 H2 H3. cbn [lex]. decide_tests. reflexivity.
Qed.

(** Inside a string, the lexer reads an escaped character back. *)
Lemma lex_escape_char acc c rest :
  0 <= c →
  lex (InStr acc) (json_escape_char c ++ rest) = lex (InStr (acc ++ [c])) rest.
Proof.
  intros Hc. unfold json_escape_char.
  destruct (Z.eqb_spec c 34) as [->|]; [reflexivity|].
  destruct (Z.eqb_spec c 92) as [->|]; [reflexivity|].
  destruct (Z.eqb_spec c 8) as [->|]; [reflexivity|].
  destruct (Z.eqb_spec c 9) as [->|]; [reflexivity|].
  destruct (Z.eqb_spec c 10) as [->|]; [reflexivity|].
  destruct (Z.eqb_spec c 12) as [->|]; [reflexivity|].
  destruct (Z.eqb_spec c 13) as [->|]; [reflexivity|].
  destruct (Z.ltb_spec c 32).
  - apply lex_unicode_escape; [apply hex4_control |]; lia.
  - by apply lex_plain_char.
Qed.

Lemma lex_string_body s acc rest :
  Forall (fun c => 0 <= c) s →
  lex (InStr acc) (flat_map json_escape_char s ++ 34 :: rest)
  = cons (TStr (acc ++ s)) <$> lex Outside rest.
Proof.
  intros Hs. revert acc. induction Hs as [|c s Hc _ IH]; intros acc.
  - by rewrite app_nil_r.
  - cbn [flat_map]. rewrite <- app_assoc, lex_escape_char by done.
    rewrite IH. by rewrite <- app_assoc.
Qed.

Lemma lex_render_token t rest :
  lexable t →
  lex Outside (render_token t ++ rest) = cons t <$> lex Outside rest.
Proof.
  destruct t; cbn [lexable]; try done.
  intros Hs. cbn [render_token json_string app]. cbn [lex]. cbn.
  rewrite <- app_assoc. cbn [app]. by rewrite lex_string_body.
Qed.

Lemma lex_render ts :
  Forall lexable ts → lex Outside (render ts) = Some ts.
Proof.
  induction 1 as [|t ts Ht _ IH]; [done|].
  unfold render. cbn [flat_map]. rewrite lex_render_token by done.
  fold (render ts). by rewrite IH.
Qed.

(** ** JSON values of a schema *)

Lemma json_tokens_column col :
  json_tokens (ColumnInfo_to_json col) = column_tokens col.
Proof. reflexivity. Qed.

Lemma json_tokens_table info :
  json_tokens (TableInfo_to_json info)
  = [TLBrace; TStr (py "columns"); TColon; TLBrack]
    ++ sep_by TComma (column_tokens <$> columns info) ++ [TRBrack; TRBrace].
Proof.
  unfold TableInfo_to_json. cbn [json_tokens map fst snd sep_by app].
  rewrite <- list_fmap_compose. rewrite <- !app_assoc. reflexivity.
Qed.

Lemma sep_by_cons sep x y rest :
  sep_by sep (x :: y :: rest) = x ++ sep :: sep_by sep (y :: rest).
Proof. reflexivity. Qed.

Lemma parse_value_column fuel col rest :
  (4 <= fuel)%nat →
  parse_value fuel (column_tokens col ++ rest) = Some (ColumnInfo_to_json col, rest).
Proof.
  intros H. replace fuel with (4 + (fuel - 4))%nat by lia. reflexivity.
Qed.

Lemma parse_items_S fuel ts :
  parse_items (S fuel) ts
  = '(x, r) ← parse_value fuel ts;
    match r with
    | TComma :: r' => '(rest, r'') ← parse_items fuel r'; Some (x :: rest, r'')
    | TRBrack :: r' => Some ([x], r')
    | _ => None
    end.
Proof. reflexivity. Qed.

Lemma parse_items_columns cols fuel rest :
  cols ≠ [] →
  (length cols + 4 <= fuel)%nat →
  parse_items fuel (sep_by TComma (column_tokens <$> cols) ++ TRBrack :: rest)
  = Some (ColumnInfo_to_json <$> cols, rest).
Proof.
  revert fuel. induction cols as [|col cols IH]; [done|]. intros fuel _ Hf.
  destruct fuel as [|fuel]; [cbn [length] in Hf; lia|]. cbn [length] in Hf.
  rewrite parse_items_S. destruct cols as [|col' cols].
  - cbn [fmap list_fmap sep_by]. rewrite parse_value_column by lia. reflexivity.
  - rewrite !fmap_cons, sep_by_cons, <- !fmap_cons, <- app_assoc.
    rewrite parse_value_column by lia. cbn [app mbind option_bind].
    rewrite IH by (cbn [length] in *; done || lia). reflexivity.
Qed.

Lemma parse_value_table info fuel :
  (length (columns info) + 7 <= fuel)%nat →
  parse_value fuel (json_tokens (TableInfo_to_json info))
  = Some (TableInfo_to_json info, []).
Proof.
  intros Hf. rewrite json_tokens_table. unfold TableInfo_to_json.
  destruct fuel as [|[|[|fuel]]]; try lia.
  destruct (columns info) as [|col cols] eqn:E; [reflexivity|].
  rewrite <- E in *.
  assert (columns info ≠ []) as Hne by (rewrite E; done).
  pose proof (parse_items_columns (columns info) fuel [TRBrace] Hne) as Hp.
  replace (sep_by TComma (column_tokens <$> columns info) ++ [TRBrack; TRBrace])
    with (sep_by TComma (column_tokens <$> columns info) ++ TRBrack :: [TRBrace]) by done.
  set (ts := sep_by TComma (column_tokens <$> columns info) ++ TRBrack :: [TRBrace]) in *.
  assert (∃ ts', ts = TLBrace :: ts') as [ts' Hts].
  { unfold ts. rewrite E. cbn [fmap list_fmap]. destruct cols; cbn; eauto. }
  cbn [app parse_value parse_fields]. rewrite Hts.
  cbn [mbind option_bind]. rewrite <- Hts, Hp by lia. reflexivity.
Qed.

Lemma length_sep_by_columns cols :
  (length cols <= length (sep_by TComma (column_tokens <$> cols)))%nat.
Proof.
  induction cols as [|col cols IH]; [done|].
  destruct cols as [|col' cols]; [cbn; lia|].
  rewrite !fmap_cons, sep_by_cons, <- !fmap_cons.
  rewrite length_app. cbn [length] in *. lia.
Qed.

Lemma parse_table_tokens info :
  let ts := json_tokens (TableInfo_to_json info) in
  parse_value (2 * length ts + 1) ts = Some (TableInfo_to_json info, []).
Proof.
  intros ts.
  assert (length (columns info) + 6 <= length ts)%nat as Hlen.
  { unfold ts. rewrite json_tokens_table, !length_app.
    pose proof (length_sep_by_columns (columns info)). cbn [length]. lia. }
  apply parse_value_table. lia.
Qed.

(** ** Validation *)

Lemma validate_column col : validate_ColumnInfo (ColumnInfo_to_json col) = Ok col.
Proof. destruct col as [n []]; reflexivity. Qed.

Lemma validate_table info : validate_TableInfo (TableInfo_to_json info) = Ok info.
Proof.
  destruct info as [cols]. unfold TableInfo_to_json. cbn [columns].
  change (validate_TableInfo (JObj [(py "columns", JArr (ColumnInfo_to_json <$> cols))]))
    with (mkTableInfo <$> mapM validate_ColumnInfo (ColumnInfo_to_json <$> cols)).
  assert (mapM validate_ColumnInfo (ColumnInfo_to_json <$> cols) = Ok cols) as ->; [|done].
  induction cols as [|col cols IH]; [done|].
  rewrite fmap_cons, mapM_result_cons, validate_column, IH. done.
Qed.

(** ** Text *)

Lemma utf8_encode_char_scalar c : scalar c → ∃ cs, utf8_encode_char c = Ok cs.
Proof.
  intros [Hc Hs]. unfold utf8_encode_char. rewrite Hs.
  repeat match goal with
  | |- context [if ?a <? ?b then _ else _] => destruct (Z.ltb_spec a b)
  end; eauto; lia.
Qed.

Lemma str_encode_Forall s : (∃ bs, str_encode s = Ok bs) ↔ Forall scalar s.
Proof.
  induction s as [|c s IH]; [split; [constructor | by exists []]|].
  cbn [str_encode]. split.
  - intros (bs & H). apply bind_Ok in H as (cs & Hc & H).
    apply bind_Ok in H as (rest & Hr & _). constructor.
    + by eapply utf8_encode_char_range.
    + apply IH. eauto.
  - intros H. inversion H as [|? ? Hc Hs]; subst.
    destruct (utf8_encode_char_scalar _ Hc) as [cs ->].
    apply IH in Hs as [rest ->]. eauto.
Qed.

Lemma is_text_Forall s : is_text s = true ↔ Forall scalar s.
Proof.
  rewrite <- str_encode_Forall. unfold is_text.
  destruct (str_encode s); split; eauto; try done. by intros [? ?].
Qed.

Lemma str_encode_no_newline s bs : str_encode s = Ok bs → 10 ∉ s → 10 ∉ bs.
Proof.
  revert bs. induction s as [|c s IH]; intros bs H Hn.
  - injection H as <-. by apply not_elem_of_nil.
  - cbn [str_encode] in H. apply bind_Ok in H as (cs & Hc & H).
    apply bind_Ok in H as (rest & Hr & [= <-]).
    apply not_elem_of_cons in Hn as [Hne Hn]. apply not_elem_of_app. split; [|by eapply IH].
    revert Hc. unfold utf8_encode_char. intros Hc.
    split_ltb; try discriminate; try (destruct (is_surrogate c); try discriminate);
      injection Hc as <-; rewrite !elem_of_cons, elem_of_nil;
      intros H'; Z.div_mod_to_equations; lia.
Qed.

Lemma hex_digit_range d : 0 <= d < 16 → 48 <= hex_digit d < 128.
Proof. intros H. unfold hex_digit. destruct (Z.ltb_spec d 10); lia. Qed.

(** What the writer emits for a character: ASCII, or the character itself;
    never a line feed. *)
Lemma json_escape_char_spec c x :
  0 <= c → x ∈ json_escape_char c → x ≠ 10 ∧ (32 <= x < 128 ∨ x = c).
Proof.
  intros Hc. unfold json_escape_char.
  repeat match goal with
  | |- context [if ?a =? ?b then _ else _] => destruct (Z.eqb_spec a b) as [->|]
  end;
  try (rewrite !elem_of_cons, elem_of_nil; intros H; lia).
  destruct (Z.ltb_spec c 32).
  - pose proof (hex_digit_range (c / 16)). pose proof (hex_digit_range (c mod 16)).
    rewrite !elem_of_cons, elem_of_nil. intros H'.
    assert (0 <= c / 16 < 16) by (Z.div_mod_to_equations; lia).
    assert (0 <= c mod 16 < 16) by (Z.div_mod_to_equations; lia). lia.
  - rewrite !elem_of_cons, elem_of_nil. lia.
Qed.

Lemma scalar_ascii x : 32 <= x < 128 → scalar x.
Proof.
  intros H. split; [lia|]. unfold is_surrogate.
  destruct (Z.leb_spec 0xD800 x); [lia | done].
Qed.

Lemma text_token_lexable t : text_token t → lexable t.
Proof.
  destruct t; cbn; try done. intros H. eapply Forall_impl; [exact H|].
  by intros c [[? _] _].
Qed.

Lemma render_token_spec t x :
  text_token t → x ∈ render_token t → x ≠ 10 ∧ scalar x.
Proof.
  destruct t; cbn [text_token render_token]; try done;
    try (intros _ Hx; unfold py in Hx; cbn in Hx;
         repeat (apply elem_of_cons in Hx as [->|Hx];
                 [split; [lia | apply scalar_ascii; lia]|]);
         by apply elem_of_nil in Hx).
  intros Hs. unfold json_string. rewrite elem_of_cons, elem_of_app, list_elem_of_singleton.
  intros [->|[Hx| ->]]; [split; [lia | by apply scalar_ascii] | | split; [lia | by apply scalar_ascii]].
  apply list_elem_of_In, in_flat_map in Hx as (c & Hc & Hx).
  apply list_elem_of_In in Hc, Hx. rewrite Forall_forall in Hs.
  pose proof (Hs c Hc) as Hsc. destruct (json_escape_char_spec c x) as [Hn Hr];
    [apply Hsc | done |]. split; [done|].
  destruct Hr as [Hr| ->]; [by apply scalar_ascii | done].
Qed.

Lemma render_text ts :
  Forall text_token ts → (10 ∉ render ts) ∧ Forall scalar (render ts).
Proof.
  intros Hts. unfold render.
  assert (∀ x, x ∈ flat_map render_token ts → x ≠ 10 ∧ scalar x) as H.
  { intros x Hx. apply list_elem_of_In, in_flat_map in Hx as (t & Ht & Hx).
    apply list_elem_of_In in Ht, Hx. rewrite Forall_forall in Hts.
    eapply render_token_spec; eauto. }
  split.
  - intros Hx. by destruct (H _ Hx).
  - apply Forall_forall. intros x Hx. by destruct (H _ Hx).
Qed.

Lemma Forall_sep_by (P : token → Prop) sep parts :
  P sep → Forall (Forall P) parts → Forall P (sep_by sep parts).
Proof.
  intros Hsep. induction 1 as [|x parts Hx Hparts IH]; [constructor|].
  destruct parts as [|y parts]; [done|].
  rewrite sep_by_cons. apply Forall_app. split; [done|]. by constructor.
Qed.

Lemma text_names_Forall info :
  text_names info = true ↔ Forall (fun col => Forall scalar (name col)) (columns info).
Proof.
  unfold text_names. rewrite forallb_forall, Forall_forall.
  split; intros H col Hc.
  - apply is_text_Forall, H. by apply list_elem_of_In.
  - apply is_text_Forall, H. by apply list_elem_of_In.
Qed.

Lemma table_tokens_text info :
  text_names info = true → Forall text_token (json_tokens (TableInfo_to_json info)).
Proof.
  intros H%text_names_Forall. rewrite json_tokens_table.
  apply Forall_app. split; [|apply Forall_app; split].
  - rewrite !Forall_cons, Forall_nil. cbn [text_token].
    repeat split. by apply is_text_Forall.
  - apply Forall_sep_by; [done|]. apply Forall_fmap.
    eapply Forall_impl; [exact H|]. intros col Hcol. unfold column_tokens.
    cbn [compose]. rewrite !Forall_cons, Forall_nil. cbn [text_token].
    repeat split; try done.
    + by apply is_text_Forall.
    + by apply is_text_Forall.
    + apply is_text_Forall. by destruct (datatype col).
  - rewrite !Forall_cons, Forall_nil. done.
Qed.

Lemma model_dump_json_text info :
  text_names info = true →
  model_dump_json info = Ok (render (json_tokens (TableInfo_to_json info))).
Proof.
  intros H. unfold model_dump_json, text_names in *.
  assert (∃ l, mapM (fun col => str_encode (name col)) (columns info) = Ok l) as [l ->];
    [|done].
  induction (columns info) as [|col cols IH]; [by eexists|].
  cbn [forallb] in H. apply andb_true_iff in H as [Hc Hs].
  destruct (IH Hs) as [l Hl]. rewrite mapM_result_cons, Hl.
  unfold is_text in Hc. destruct (str_encode (name col)); [by eexists | done].
Qed.

Lemma model_dump_json_Ok info text :
  model_dump_json info = Ok text → text_names info = true.
Proof.
  unfold model_dump_json, text_names. intros H.
  destruct (mapM _ (columns info)) as [l|] eqn:Hm; [clear H|done]. revert l Hm.
  induction (columns info) as [|col cols IH]; intros l Hm; [done|].
  rewrite mapM_result_cons in Hm. apply bind_Ok in Hm as (bs & Hb & Hm).
  apply bind_Ok in Hm as (l' & Hl & _). cbn [forallb].
  unfold is_text at 1. rewrite Hb. by eapply IH.
Qed.

Lemma model_dump_json_exn info e :
  model_dump_json info = Raise e → e = PydanticSerializationError.
Proof.
  unfold model_dump_json.
  destruct (mapM _ (columns info)) as [l|e']; [done|]. by intros [= <-].
Qed.

(** ** Header codec *)

Lemma _serialize_header_text info :
  text_names info = true →
  let text := render (json_tokens (TableInfo_to_json info)) in
  ∃ body, (10 ∉ text) ∧ str_encode text = Ok body ∧ (10 ∉ body)
          ∧ _serialize_header info = Ok (body ++ [10]).
Proof.
  intros H text. destruct (render_text _ (table_tokens_text _ H)) as [Hn Hs].
  fold text in Hn, Hs. apply str_encode_Forall in Hs as [body Hb].
  exists body. split; [done|]. split; [done|].
  split; [by eapply str_encode_no_newline|].
  unfold _serialize_header. rewrite (model_dump_json_text _ H). fold text.
  cbn [mbind result_bind]. rewrite bool_decide_eq_false_2 by done.
  by rewrite Hb.
Qed.

(** C9, as amended. The newline branch of [_serialize_header] is never
    taken: whenever the schema is rendered as JSON, the text holds no line
    feed. For a schema whose column names are text, serialization succeeds
    and gives the UTF-8 encoding of that text followed by one line feed, the
    only one of the header; for a schema with a column name that is no text
    (a lone surrogate), it fails with [PydanticSerializationError]. *)
Theorem header_serialization_total info :
  _serialize_header info ≠ Raise RuntimeError
  ∧ (∀ text, model_dump_json info = Ok text → 10 ∉ text)
  ∧ (text_names info = true →
     ∃ text body, model_dump_json info = Ok text ∧ (10 ∉ text)
       ∧ str_encode text = Ok body ∧ (10 ∉ body)
       ∧ _serialize_header info = Ok (body ++ [10]))
  ∧ (text_names info = false →
     _serialize_header info = Raise PydanticSerializationError).
Proof.
  split; [|split; [|split]].
  - destruct (model_dump_json info) as [text|e] eqn:Hd.
    + apply model_dump_json_Ok in Hd.
      destruct (_serialize_header_text _ Hd) as (body & _ & _ & _ & ->). done.
    + unfold _serialize_header. rewrite Hd. cbn.
      apply model_dump_json_exn in Hd as ->. done.
  - intros text Hd. pose proof (model_dump_json_Ok _ _ Hd) as H.
    destruct (_serialize_header_text _ H) as (body & Hn & _).
    rewrite (model_dump_json_text _ H) in Hd. by injection Hd as <-.
  - intros H. destruct (_serialize_header_text _ H) as (body & Hn & He & Hb & Hs).
    eexists _, body. split; [by apply model_dump_json_text|]. done.
  - intros H. unfold _serialize_header.
    destruct (model_dump_json info) as [text|e] eqn:Hd.
    + apply model_dump_json_Ok in Hd. congruence.
    + apply model_dump_json_exn in Hd as ->. done.
Qed.

Lemma header_serialization_total_witness :
  ∃ text body, model_dump_json example_info = Ok text ∧ (10 ∉ text)
    ∧ str_encode text = Ok body ∧ (10 ∉ body)
    ∧ _serialize_header example_info = Ok (body ++ [10]).
Proof.
  apply (proj1 (proj2 (proj2 (header_serialization_total example_info)))).
  reflexivity.
Defined.

(** C9 as written fails: a column may be named by a lone surrogate, and the
    header of such a schema is not serialized. *)
Lemma header_serialization_total_counterexample :
  let info := mkTableInfo [mkColumnInfo [0xD800] STRING] in
  _serialize_header info = Raise PydanticSerializationError
  ∧ ¬ ∃ header, _serialize_header info = Ok header.
Proof.
  assert (_serialize_header (mkTableInfo [mkColumnInfo [0xD800] STRING])
          = Raise PydanticSerializationError) as H by by_compute.
  split; [exact H|]. intros [header Hh]. rewrite H in Hh. discriminate.
Qed.

Lemma parse_json_table info :
  text_names info = true →
  parse_json (render (json_tokens (TableInfo_to_json info)))
  = Some (TableInfo_to_json info).
Proof.
  intros H. unfold parse_json. rewrite lex_render.
  - cbn [mbind option_bind]. by rewrite parse_table_tokens.
  - eapply Forall_impl; [by apply table_tokens_text|]. apply text_token_lexable.
Qed.

Lemma _deserialize_serialize_header info header :
  _serialize_header info = Ok header →
  _deserialize_header header = Ok (info, len header).
Proof.
  intros Hs.
  assert (text_names info = true) as H.
  { unfold _serialize_header in Hs. apply bind_Ok in Hs as (text & Hd & _).
    by eapply model_dump_json_Ok. }
  destruct (_serialize_header_text _ H) as (body & _ & Hb & _ & Hs').
  rewrite Hs' in Hs. injection Hs as <-.
  unfold _deserialize_header, endswith.
  rewrite last_snoc, bool_decide_eq_true_2 by done. cbn [assert mbind result_bind].
  rewrite removelast_last. unfold model_validate_json.
  rewrite (bytes_decode_encode strict _ _ Hb), parse_json_table by done.
  cbn [required mbind result_bind]. by rewrite validate_table.
Qed.

(** C2. Whenever [_serialize_header] produces a header, deserializing it
    gives the schema back, together with the byte length of the whole
    header, line feed included; and it produces one for every schema whose
    column names are text, so for every valid one. *)
Theorem header_codec_round_trip info :
  (∀ header, _serialize_header info = Ok header →
             _deserialize_header header = Ok (info, len header))
  ∧ (text_names info = true → ∃ header, _serialize_header info = Ok header).
Proof.
  split.
  - intros header. apply _deserialize_serialize_header.
  - intros H. destruct (_serialize_header_text _ H) as (body & _ & _ & _ & Hs). eauto.
Qed.

Lemma header_codec_round_trip_witness :
  _deserialize_header example_header = Ok (example_info, len example_header)
  ∧ ∃ header, _serialize_header example_info = Ok header.
Proof.
  destruct (header_codec_round_trip example_info) as [Hround Hexists].
  split; [apply Hround; by_compute | apply Hexists; by_compute].
Defined.

(** ** File names *)

Lemma utf8_encode_char_bytes c cs :
  utf8_encode_char c = Ok cs →
  Forall (fun b => 0 <= b < 256) cs ∧ (∀ a, a < 128 → a ∈ cs → a = c).
Proof.
  unfold utf8_encode_char. intros Hc.
  split_ltb; try discriminate; try (destruct (is_surrogate c); try discriminate);
    injection Hc as <-;
    (split;
     [rewrite !Forall_cons, Forall_nil; Z.div_mod_to_equations; lia
     |intros a Ha; rewrite ?elem_of_cons, ?elem_of_nil; intros H';
      Z.div_mod_to_equations; lia]).
Qed.

Lemma str_encode_bytes s bs :
  str_encode s = Ok bs → Forall (fun b => 0 <= b < 256) bs.
Proof.
  revert bs. induction s as [|c s IH]; intros bs H.
  - injection H as <-. constructor.
  - cbn [str_encode] in H. apply bind_Ok in H as (cs & Hc & H).
    apply bind_Ok in H as (rest & Hr & [= <-]).
    apply Forall_app. split; [by eapply utf8_encode_char_bytes | by apply IH].
Qed.

(** An ASCII byte occurs in the encoding only as the character itself. *)
Lemma str_encode_ascii s bs a :
  str_encode s = Ok bs → a < 128 → a ∈ bs → a ∈ s.
Proof.
  revert bs. induction s as [|c s IH]; intros bs H Ha Hin.
  - by injection H as <-.
  - cbn [str_encode] in H. apply bind_Ok in H as (cs & Hc & H).
    apply bind_Ok in H as (rest & Hr & [= <-]).
    apply elem_of_app in Hin as [Hin|Hin].
    + destruct (utf8_encode_char_bytes _ _ Hc) as [_ Hcs].
      rewrite (Hcs a Ha Hin). by left.
    + right. by eapply IH.
Qed.

Lemma bytes_decode_ascii errors bs :
  Forall (fun b => 0 <= b < 128) bs → bytes_decode errors bs = Ok bs.
Proof.
  induction 1 as [|b bs Hb _ IH]; [done|]. cbn [bytes_decode].
  decide_tests. cbn [andb]. by rewrite IH.
Qed.

Lemma HEX_digit_spec d :
  0 <= d < 16 →
  hex_value (HEX_digit d) = Some d ∧ 48 <= HEX_digit d < 128.
Proof.
  intros Hd. unfold hex_value, HEX_digit.
  destruct (Z.ltb_spec d 10); decide_tests; cbn [andb]; (split; [f_equal|]; lia).
Qed.

Lemma _ALWAYS_SAFE_spec b :
  b ∈ _ALWAYS_SAFE → 44 < b < 128.
Proof.
  intros Hb.
  assert (Forall (fun b => 44 < b < 128) _ALWAYS_SAFE) as H by by_compute.
  rewrite Forall_forall in H. by apply H.
Qed.

Lemma quoter_cases safe b :
  0 <= b < 256 →
(b ∈ _ALWAYS_SAFE ++ safe ∧ quoter safe b = [b])
  ∨ ((b ∉ _ALWAYS_SAFE ++ safe) ∧
     ∃ h l, quoter safe b = [37; h; l] ∧ hex_value h = Some (b / 16)
            ∧ hex_value l = Some (b mod 16) ∧ 48 <= h < 128 ∧ 48 <= l < 128).
Proof.
  intros Hb. unfold quoter. case_bool_decide; [by left|right]. split; [done|].
  destruct (HEX_digit_spec (b / 16)) as [? ?]; [Z.div_mod_to_equations; lia|].
  destruct (HEX_digit_spec (b mod 16)) as [? ?]; [Z.div_mod_to_equations; lia|].
  eauto 10.
Qed.

Lemma replace_char_app old new s k :
  replace_char old new (s ++ k) = replace_char old new s ++ replace_char old new k.
Proof. apply fmap_app. Qed.

Lemma replace_char_id old new s : old ∉ s → replace_char old new s = s.
Proof.
  induction s as [|c s IH]; [done|]. intros [Hc Hs]%not_elem_of_cons.
  unfold replace_char in *. rewrite fmap_cons, IH by done.
  destruct (Z.eqb_spec c old); congruence.
Qed.

Lemma quoter_other b :
  0 <= b < 256 → b ≠ 32 →
  quoter [32] b = quoter [] b ∧ (32 ∉ quoter [] b) ∧ (43 ∉ quoter [] b).
Proof.
  intros Hb Hne. split.
  - unfold quoter. destruct (decide (b ∈ _ALWAYS_SAFE)) as [Hs|Hs].
    + rewrite !bool_decide_eq_true_2 by (apply elem_of_app; by left). done.
    + rewrite !bool_decide_eq_false_2; [done| |].
      * intros [?|?%elem_of_nil]%elem_of_app; done.
      * intros [?|?%list_elem_of_singleton]%elem_of_app; done.
  - destruct (quoter_cases [] b Hb) as [[Hin ->]|(Hin & h & l & -> & _ & _ & Hh & Hl)].
    + apply elem_of_app in Hin as [Hs|Hs%elem_of_nil]; [|done].
      pose proof (_ALWAYS_SAFE_spec _ Hs).
      rewrite !list_elem_of_singleton. lia.
    + rewrite !elem_of_cons, !elem_of_nil. lia.
Qed.

Lemma quoted_byte_plain bs :
  Forall (fun b => 0 <= b < 256) bs → 32 ∉ bs →
  replace_char 43 32 (flat_map (quoter []) bs) = flat_map quoted_byte bs.
Proof.
  induction 1 as [|b bs Hb _ IH]; [done|]. intros [Hne Hn]%not_elem_of_cons.
  cbn [flat_map]. rewrite replace_char_app, IH by done. f_equal.
  destruct (quoter_other b Hb) as (_ & _ & H43); [done|].
  rewrite replace_char_id by done. unfold quoted_byte.
  by destruct (Z.eqb_spec b 32).
Qed.

Lemma quoted_byte_space bs :
  Forall (fun b => 0 <= b < 256) bs →
  replace_char 43 32 (replace_char 32 43 (flat_map (quoter [32]) bs))
  = flat_map quoted_byte bs.
Proof.
  induction 1 as [|b bs Hb _ IH]; [done|].
  cbn [flat_map]. rewrite !replace_char_app, IH. f_equal.
  unfold quoted_byte. destruct (Z.eqb_spec b 32) as [->|Hne]; [done|].
  destruct (quoter_other b Hb Hne) as (-> & H32 & H43).
  rewrite (replace_char_id 32 43) by done. by rewrite replace_char_id.
Qed.

Lemma quote_Ok s safe q :
  quote s safe = Ok q →
  ∃ bs, str_encode s = Ok bs ∧ q = flat_map (quoter safe) bs.
Proof.
  destruct s as [|c s]; [intros [= <-]; by exists []|].
  unfold quote. intros H. apply bind_Ok in H as (bs & Hb & [= <-]). eauto.
Qed.

Lemma quote_plus_bytes s q :
  quote_plus s = Ok q →
  ∃ bs, str_encode s = Ok bs
        ∧ replace_char 43 32 q = flat_map quoted_byte bs.
Proof.
  unfold quote_plus. intros H. case_bool_decide as Hsp.
  - apply quote_Ok in H as (bs & Hb & ->). exists bs. split; [done|].
    apply quoted_byte_plain; [by eapply str_encode_bytes|].
    intros Hin. apply Hsp. by eapply str_encode_ascii.
  - apply fmap_Ok in H as (q' & H & ->).
    apply quote_Ok in H as (bs & Hb & ->). exists bs. split; [done|].
    apply quoted_byte_space. by eapply str_encode_bytes.
Qed.

Lemma split_on_nonempty sep bs : split_on sep bs ≠ [].
Proof.
  destruct bs as [|c r]; [done|]. cbn [split_on].
  destruct (c =? sep); [done|]. by destruct (split_on sep r).
Qed.

Lemma split_on_single sep bs h : split_on sep bs = [h] → h = bs.
Proof.
  revert h. induction bs as [|c r IH]; intros h; [by intros [= <-]|].
  cbn [split_on]. pose proof (split_on_nonempty sep r).
  destruct (c =? sep).
  - destruct (split_on sep r); [done | discriminate].
  - destruct (split_on sep r) as [|h' t]; [done|]. intros [= <- ->].
    by rewrite (IH h').
Qed.

Lemma unquote_to_bytes_join bs :
  unquote_to_bytes bs = join_unquoted (split_on 37 bs).
Proof.
  unfold unquote_to_bytes. pose proof (split_on_nonempty 37 bs).
  destruct (split_on 37 bs) as [|h [|h' t]] eqn:E; [done| |done].
  apply split_on_single in E as ->. cbn. by rewrite app_nil_r.
Qed.

Lemma join_unquoted_plain c r :
  c ≠ 37 →
  join_unquoted (split_on 37 (c :: r)) = c :: join_unquoted (split_on 37 r).
Proof.
  intros Hc. cbn [split_on]. destruct (Z.eqb_spec c 37); [done|].
  pose proof (split_on_nonempty 37 r). by destruct (split_on 37 r).
Qed.

Lemma join_unquoted_escape h l a b r :
  hex_value h = Some a → hex_value l = Some b → h ≠ 37 → l ≠ 37 →
  join_unquoted (split_on 37 (37 :: h :: l :: r))
  = (16 * a + b) :: join_unquoted (split_on 37 r).
Proof.
  intros Hh Hl Hh' Hl'.
  change (split_on 37 (37 :: h :: l :: r)) with ([] :: split_on 37 (h :: l :: r)).
  cbn [split_on]. destruct (Z.eqb_spec h 37); [done|]. destruct (Z.eqb_spec l 37); [done|].
  pose proof (split_on_nonempty 37 r). destruct (split_on 37 r) as [|c t]; [done|].
  cbn [join_unquoted flat_map app unquote_item]. by rewrite Hh, Hl.
Qed.

Lemma unquote_quoted_bytes bs :
  Forall (fun b => 0 <= b < 256) bs →
  unquote_to_bytes (flat_map quoted_byte bs) = bs.
Proof.
  intros Hbs. rewrite unquote_to_bytes_join.
  induction Hbs as [|b bs Hb _ IH]; [done|]. cbn [flat_map].
  unfold quoted_byte at 1. destruct (Z.eqb_spec b 32) as [->|Hne].
  - cbn [app]. by rewrite join_unquoted_plain, IH.
  - destruct (quoter_cases [] b Hb) as [[Hin ->]|(Hin & h & l & -> & Hh & Hl & ? & ?)].
    + apply elem_of_app in Hin as [Hs|Hs%elem_of_nil]; [|done].
      pose proof (_ALWAYS_SAFE_spec _ Hs). cbn [app].
      by rewrite join_unquoted_plain, IH by lia.
    + cbn [app].
      rewrite (join_unquoted_escape _ _ _ _ _ Hh Hl), IH by lia.
      f_equal. Z.div_mod_to_equations. lia.
Qed.

Lemma quoted_byte_ascii bs :
  Forall (fun b => 0 <= b < 256) bs →
  Forall (fun c => 0 <= c < 128) (flat_map quoted_byte bs)
  ∧ (37 ∉ flat_map quoted_byte bs → flat_map quoted_byte bs = bs).
Proof.
  induction 1 as [|b bs Hb _ [IH1 IH2]]; [by split|]. cbn [flat_map].
  assert (Forall (fun c => 0 <= c < 128) (quoted_byte b)
          ∧ (37 ∉ quoted_byte b → quoted_byte b = [b])) as [H1 H2].
  { unfold quoted_byte. destruct (Z.eqb_spec b 32) as [->|Hne].
    - split; [|done]. rewrite Forall_singleton. lia.
    - destruct (quoter_cases [] b Hb) as [[Hin ->]|(Hin & h & l & -> & _ & _ & ? & ?)].
      + apply elem_of_app in Hin as [Hs|Hs%elem_of_nil]; [|done].
        pose proof (_ALWAYS_SAFE_spec _ Hs). split; [|done].
        rewrite Forall_singleton. lia.
      + split; [rewrite !Forall_cons, Forall_nil; lia|].
        intros Hn. destruct Hn. by left. }
  split; [by apply Forall_app|].
  intros [Hn1 Hn2]%not_elem_of_app. by rewrite H2, IH2.
Qed.

Lemma unquote_parts_ascii run s :
  Forall (fun c => 0 <= c < 128) s →
  unquote_parts run s = decode_replace (unquote_to_bytes (run ++ s)).
Proof.
  intros Hs. revert run. induction Hs as [|c s Hc _ IH]; intros run.
  - by rewrite app_nil_r.
  - cbn [unquote_parts]. decide_tests. cbn [andb].
    by rewrite IH, <- app_assoc.
Qed.

(** Decoding the quoted name gives the name back. *)
Lemma unquote_quote_plus s q : quote_plus s = Ok q → unquote_plus q = s.
Proof.
  intros (bs & Hb & Hq)%quote_plus_bytes.
  pose proof (str_encode_bytes _ _ Hb) as Hbs.
  destruct (quoted_byte_ascii _ Hbs) as [Hascii Hplain].
  unfold unquote_plus, unquote. rewrite Hq. case_bool_decide as Hp.
  - rewrite Hplain in Hascii |- * by done.
    pose proof (bytes_decode_encode strict _ _ Hb) as Hd.
    rewrite bytes_decode_ascii in Hd by done. congruence.
  - rewrite unquote_parts_ascii by done. cbn [app].
    rewrite unquote_quoted_bytes by done. unfold decode_replace.
    by rewrite (bytes_decode_encode replace _ _ Hb).
Qed.

(** ** Create and reopen *)

Lemma readline_line body :
  10 ∉ body → readline (body ++ [10]) = body ++ [10].
Proof.
  induction body as [|b body IH]; [done|]. intros [Hb Hn]%not_elem_of_cons.
  cbn [app readline]. destruct (Z.eqb_spec b 10); [congruence|]. by rewrite IH.
Qed.

Lemma _serialize_header_line info header :
  _serialize_header info = Ok header → readline header = header.
Proof.
  intros Hs.
  assert (text_names info = true) as H.
  { unfold _serialize_header in Hs. apply bind_Ok in Hs as (text & Hd & _).
    by eapply model_dump_json_Ok. }
  destruct (_serialize_header_text _ H) as (body & _ & _ & Hb & Hs').
  rewrite Hs' in Hs. injection Hs as <-. by apply readline_line.
Qed.

(** Opening the file that holds exactly a serialized header. *)
Lemma __init___header location info header fs :
  _serialize_header info = Ok header →
  file_at fs location = Some header →
  Table.__init__ location fs
  = (Ok (Table.mk location (unquote_plus (path_name location)) info (len header)), fs).
Proof.
  intros Hs (q & Hw & Hq)%file_at_Some.
  unfold Table.__init__, mbind, FS_bind, open_rb, fs_lift. rewrite Hw, Hq.
  rewrite (_serialize_header_line _ _ Hs), (_deserialize_serialize_header _ _ Hs).
  reflexivity.
Qed.

(** What a successful [create] did. *)
Lemma create_Ok name location info fs t fs' :
  Table.create name location info fs = (Ok t, fs') →
  ∃ quoted header q,
    len name <= MAX_TABLE_NAME_LENGTH
    ∧ quote_plus name = Ok quoted
    ∧ _serialize_header info = Ok header
    ∧ walk fs [] (joinpath location quoted) = Ok q
    ∧ fs !! q = None
    ∧ fs' = <[q := File header]> fs
    ∧ t = Table.mk (joinpath location quoted)
            (unquote_plus (path_name (joinpath location quoted))) info (len header)
    ∧ file_at fs' (joinpath location quoted) = Some header.
Proof.
  unfold Table.create. intros H.
  destruct (Z.ltb_spec MAX_TABLE_NAME_LENGTH (len name)) as [|Hlen]; [done|].
  unfold mbind at 1, FS_bind at 1, fs_lift at 1 in H.
  destruct (quote_plus name) as [quoted|] eqn:Hq; [|done].
  set (target := joinpath location quoted) in *.
  unfold mbind at 1, FS_bind at 1, path_exists at 1 in H.
  destruct (walk fs [] target) as [q|e] eqn:Hw.
  - destruct (fs !! q) as [n|] eqn:Hn.
    + rewrite bool_decide_eq_true_2 in H by eauto. done.
    + rewrite bool_decide_eq_false_2 in H by (by intros [? ?]).
      unfold mbind at 1, FS_bind at 1, fs_lift at 1 in H.
      destruct (_serialize_header info) as [header|] eqn:Hs; [|done].
      unfold mbind at 1, FS_bind at 1, write_bytes at 1 in H. rewrite Hw, Hn in H.
      assert (file_at (<[q := File header]> fs) target = Some header) as Hfile.
      { apply file_at_Some. exists q. split; [by apply walk_insert_fresh|].
        apply lookup_insert_eq. }
      rewrite (__init___header _ _ _ _ Hs Hfile) in H. injection H as <- <-.
      exists quoted, header, q. done.
  - unfold mbind at 1, FS_bind at 1, fs_lift at 1 in H.
    destruct (_serialize_header info) as [header|]; [|done].
    unfold mbind at 1, FS_bind at 1, write_bytes at 1 in H. by rewrite Hw in H.
Qed.

Lemma walk_app fs cur p1 p2 :
  walk fs cur (p1 ++ p2) = walk fs cur p1 ≫= fun q => walk fs q p2.
Proof.
  revert cur. induction p1 as [|c p1 IH]; intros cur; [done|].
  cbn [app walk]. destruct (fs !! cur) as [[]|]; auto.
Qed.

(** Below an existing directory every segment leads somewhere, and the
    directory itself exists. *)
Lemma walk_joinpath fs location segment :
  is_dir fs location = true →
  (joinpath location segment = location ∧ (path_exists location fs).1 = Ok true)
  ∨ (joinpath location segment = location ++ [segment]
     ∧ ∃ q, walk fs [] (location ++ [segment]) = Ok q).
Proof.
  unfold is_dir. intros H.
  destruct (walk fs [] location) as [d|] eqn:Hw; [|done].
  destruct (fs !! d) as [[]|] eqn:Hd; try done.
  unfold joinpath. case_bool_decide.
  - left. split; [done|]. unfold path_exists. rewrite Hw. cbn.
    by rewrite bool_decide_eq_true_2 by eauto.
  - right. split; [done|]. rewrite walk_app, Hw. cbn. rewrite Hd. eauto.
Qed.

Lemma create_fresh name location info fs quoted header q :
  len name <= MAX_TABLE_NAME_LENGTH →
  quote_plus name = Ok quoted →
  walk fs [] (joinpath location quoted) = Ok q →
  fs !! q = None →
  _serialize_header info = Ok header →
  Table.create name location info fs
  = (Ok (Table.mk (joinpath location quoted)
           (unquote_plus (path_name (joinpath location quoted))) info (len header)),
     <[q := File header]> fs).
Proof.
  intros Hlen Hq Hw Hn Hs. unfold Table.create.
  destruct (Z.ltb_spec MAX_TABLE_NAME_LENGTH (len name)); [lia|].
  unfold mbind at 1, FS_bind at 1, fs_lift at 1. rewrite Hq.
  unfold mbind at 1, FS_bind at 1, path_exists at 1. rewrite Hw, Hn.
  rewrite bool_decide_eq_false_2 by (by intros [? ?]).
  unfold mbind at 1, FS_bind at 1, fs_lift at 1. rewrite Hs.
  unfold mbind at 1, FS_bind at 1, write_bytes at 1. rewrite Hw, Hn.
  apply __init___header; [done|].
  apply file_at_Some. exists q. split; [by apply walk_insert_fresh|].
  apply lookup_insert_eq.
Qed.

Lemma quote_plus_not_text s :
  is_text s = false → quote_plus s = Raise UnicodeEncodeError.
Proof.
  unfold is_text. intros H.
  destruct (str_encode s) as [bs|e] eqn:He; [done|].
  apply str_encode_exn in He as He'. subst e.
  assert (∀ safe, quote s safe = Raise UnicodeEncodeError) as Hq.
  { intros safe. unfold quote. destruct s; [done|]. by rewrite He. }
  unfold quote_plus. case_bool_decide; by rewrite Hq.
Qed.

Lemma _serialize_header_not_text info :
  text_names info = false → _serialize_header info = Raise PydanticSerializationError.
Proof.
  intros H. unfold _serialize_header.
  destruct (model_dump_json info) as [text|e] eqn:Hd.
  - apply model_dump_json_Ok in Hd. congruence.
  - apply model_dump_json_exn in Hd as ->. done.
Qed.

(** C7, as amended. [create] fails with [ValueError] (name too long) when
    the name has more than 255 characters; otherwise with
    [UnicodeEncodeError] when the name is no text and cannot be quoted;
    otherwise with [FileExistsError] when the path of the quoted name exists.
    Otherwise, for a path within the limits of the platform, it fails with
    [PydanticSerializationError] when a column name is no text, and else, in
    an existing directory, it writes the serialized header as the whole
    content of the file and returns a handle on it, whose length is 0 when
    the schema has a column. Every failure leaves the file system as it
    was. *)
Theorem create_semantics name location info fs :
  (MAX_TABLE_NAME_LENGTH < len name →
     Table.create name location info fs = (Raise ValueError, fs))
  ∧ (len name <= MAX_TABLE_NAME_LENGTH →
     is_text name = false →
     Table.create name location info fs = (Raise UnicodeEncodeError, fs))
  ∧ (len name <= MAX_TABLE_NAME_LENGTH →
     ∀ quoted, quote_plus name = Ok quoted →
     (path_exists (joinpath location quoted) fs).1 = Ok true →
     Table.create name location info fs = (Raise FileExistsError, fs))
  ∧ (len name <= MAX_TABLE_NAME_LENGTH →
     ∀ quoted, quote_plus name = Ok quoted →
     (path_exists (joinpath location quoted) fs).1 = Ok false →
     within_limits (joinpath location quoted) = true →
     text_names info = false →
     Table.create name location info fs = (Raise PydanticSerializationError, fs))
  ∧ (len name <= MAX_TABLE_NAME_LENGTH →
     ∀ quoted, quote_plus name = Ok quoted →
     (path_exists (joinpath location quoted) fs).1 = Ok false →
     within_limits (joinpath location quoted) = true →
     is_dir fs location = true →
     text_names info = true →
     ∃ header t fs',
       _serialize_header info = Ok header
       ∧ Table.create name location info fs = (Ok t, fs')
       ∧ file_at fs' (joinpath location quoted) = Some header
       ∧ Table._location t = joinpath location quoted
       ∧ Table.info t = info
       ∧ Table._data_start t = len header
       ∧ (columns info ≠ [] → Table.length t fs' = (Ok 0, fs'))).
Proof.
  split; [|split; [|split; [|split]]].
  - intros Hlen. unfold Table.create.
    by destruct (Z.ltb_spec MAX_TABLE_NAME_LENGTH (len name)); [|lia].
  - intros Hlen Htext. unfold Table.create.
    destruct (Z.ltb_spec MAX_TABLE_NAME_LENGTH (len name)); [lia|].
    unfold mbind at 1, FS_bind at 1, fs_lift at 1.
    by rewrite (quote_plus_not_text _ Htext).
  - intros Hlen quoted Hq Hex. unfold Table.create.
    destruct (Z.ltb_spec MAX_TABLE_NAME_LENGTH (len name)); [lia|].
    unfold mbind at 1, FS_bind at 1, fs_lift at 1. rewrite Hq.
    unfold mbind at 1, FS_bind at 1. unfold path_exists in *. cbn [fst] in Hex.
    injection Hex as ->. reflexivity.
  - intros Hlen quoted Hq Hex _ Htext. unfold Table.create.
    destruct (Z.ltb_spec MAX_TABLE_NAME_LENGTH (len name)); [lia|].
    unfold mbind at 1, FS_bind at 1, fs_lift at 1. rewrite Hq.
    unfold mbind at 1, FS_bind at 1. unfold path_exists in *. cbn [fst] in Hex.
    injection Hex as ->.
    unfold mbind at 1, FS_bind at 1, fs_lift at 1.
    by rewrite (_serialize_header_not_text _ Htext).
  - intros Hlen quoted Hq Hex _ Hdir Htext.
    destruct (_serialize_header_text _ Htext) as (body & _ & _ & _ & Hs).
    set (header := body ++ [10]) in *.
    destruct (walk_joinpath fs location quoted Hdir) as [[E Hl]|[E [q Hw]]].
    { rewrite E in Hex. congruence. }
    rewrite <- E in Hw.
    assert (fs !! q = None) as Hn.
    { unfold path_exists in Hex. rewrite Hw in Hex. cbn [fst] in Hex.
      injection Hex as Hex. apply bool_decide_eq_false_1 in Hex.
      destruct (fs !! q); [destruct Hex; eauto | done]. }
    pose proof (create_fresh _ _ _ _ _ _ _ Hlen Hq Hw Hn Hs) as Hc.
    eexists header, _, _. split; [done|]. split; [exact Hc|].
    assert (file_at (<[q := File header]> fs) (joinpath location quoted) = Some header)
      as Hfile.
    { apply file_at_Some. exists q. split; [by apply walk_insert_fresh|].
      apply lookup_insert_eq. }
    repeat split; try done.
    intros Hne. rewrite (length_eq _ _ header) by done. cbn [Table._data_start Table.info].
    unfold floordiv, fs_lift. pose proof (row_length_pos _ Hne).
    destruct (Z.eqb_spec (row_length info) 0); [lia|].
    by rewrite Z.sub_diag.
Qed.

Lemma create_semantics_witness :
  ∃ header t fs',
    _serialize_header example_info = Ok header
    ∧ Table.create (py "my_test_table") [py "tmp"] example_info example_root = (Ok t, fs')
    ∧ file_at fs' (joinpath [py "tmp"] (py "my_test_table")) = Some header
    ∧ Table._location t = joinpath [py "tmp"] (py "my_test_table")
    ∧ Table.info t = example_info
    ∧ Table._data_start t = len header
    ∧ (columns example_info ≠ [] → Table.length t fs' = (Ok 0, fs')).
Proof.
  apply (proj2 (proj2 (proj2 (proj2 (create_semantics (py "my_test_table") [py "tmp"]
                                       example_info example_root))))); by_compute.
Defined.

(** C7 as written fails: a name of one character and a schema that pydantic
    accepts, where no file exists, and [create] neither fails with
    [ValueError] or [FileExistsError] nor writes a header. The name, or the
    name of the column, is a lone surrogate. *)
Lemma create_semantics_counterexample :
  let info := mkTableInfo [mkColumnInfo [0xD800] STRING] in
  len [0xD800] <= MAX_TABLE_NAME_LENGTH
  ∧ Table.create [0xD800] [py "tmp"] example_info example_root
    = (Raise UnicodeEncodeError, example_root)
  ∧ len (py "t") <= MAX_TABLE_NAME_LENGTH
  ∧ (path_exists (joinpath [py "tmp"] (py "t")) example_root).1 = Ok false
  ∧ Table.create (py "t") [py "tmp"] info example_root
    = (Raise PydanticSerializationError, example_root).
Proof. repeat split; by_compute. Qed.

(** C8. After a successful [create] in an existing directory, opening the
    file of the table again gives the same handle: its schema is the one
    passed to [create] and its name, decoded from the file name, is the name
    passed to [create]. *)
Theorem create_then_reopen name location info fs t fs' :
  is_dir fs location = true →
  Table.create name location info fs = (Ok t, fs') →
  Table.__init__ (Table._location t) fs' = (Ok t, fs')
  ∧ Table.info t = info
  ∧ Table.name t = name
  ∧ ∃ quoted, quote_plus name = Ok quoted
              ∧ unquote_plus quoted = name
              ∧ Table._location t = location ++ [quoted].
Proof.
  intros Hdir Hc.
  apply create_Ok in Hc as (quoted & header & q & Hlen & Hq & Hs & Hw & Hn & -> & -> & Hfile).
  cbn [Table._location Table.info Table.name].
  pose proof (unquote_quote_plus _ _ Hq) as Hname.
  destruct (walk_joinpath fs location quoted Hdir) as [[E Hl]|[E _]].
  { exfalso. rewrite E in Hw. unfold path_exists in Hl. rewrite Hw in Hl.
    cbn [fst] in Hl. injection Hl as Hl. apply bool_decide_eq_true_1 in Hl as [? Hl].
    congruence. }
  split; [by apply __init___header|]. split; [done|].
  rewrite E. unfold path_name. rewrite last_snoc. cbn [default].
  split; [done|]. eauto.
Qed.

Lemma create_then_reopen_witness :
  Table.__init__ (Table._location example_table) example_fs = (Ok example_table, example_fs)
  ∧ Table.info example_table = example_info
  ∧ Table.name example_table = py "my_test_table"
  ∧ ∃ quoted, quote_plus (py "my_test_table") = Ok quoted
              ∧ unquote_plus quoted = py "my_test_table"
              ∧ Table._location example_table = [py "tmp"] ++ [quoted].
Proof.
  apply (create_then_reopen (py "my_test_table") [py "tmp"] example_info example_root);
    by_compute.
Defined.

(** ** Sequences of inserts *)

Lemma insert_Ok self inserted fs fs' data :
  file_at fs (Table._location self) = Some data →
  Table.insert self inserted fs = (Ok tt, fs') →
  ∃ row, stored_as (Table.info self) inserted row
         ∧ file_at fs' (Table._location self) = Some (data ++ row).
Proof.
  intros Hfile H.
  destruct (decide ((list_to_set inserted.*1 : gset (list Z))
                      ∖ column_names (Table.info self) = ∅)) as [H1|H1];
    [|by rewrite insert_extra in H].
  destruct (decide (column_names (Table.info self)
                      ∖ (list_to_set inserted.*1 : gset (list Z)) = ∅)) as [H2|H2];
    [|by rewrite insert_missing in H].
  destruct (insert_complete self inserted fs data H1 H2 Hfile) as (q & Hw & Hq & Hi).
  rewrite Hi in H. unfold stored_as.
  destruct (_serialize_row _ _) as [row|]; [|done]. injection H as <-.
  exists row. split; [done|]. by eapply file_at_insert.
Qed.

Lemma insert_all_Ok self rows fs fs' data :
  file_at fs (Table._location self) = Some data →
  insert_all self rows fs = (Ok tt, fs') →
  ∃ stored, Forall2 (stored_as (Table.info self)) rows stored
            ∧ file_at fs' (Table._location self) = Some (data ++ concat stored).
Proof.
  revert fs data. induction rows as [|row rows IH]; intros fs data Hfile H.
  - injection H as <-. exists []. split; [constructor|]. by rewrite app_nil_r.
  - cbn [insert_all] in H. unfold mbind, FS_bind in H.
    destruct (Table.insert self row fs) as [[[]|e] fs1] eqn:Hi; [|done].
    destruct (insert_Ok _ _ _ _ _ Hfile Hi) as (bs & Hs & Hfile1).
    destruct (IH _ _ Hfile1 H) as (stored & Hst & Hfile').
    exists (bs :: stored). split; [by constructor|].
    cbn [concat]. by rewrite app_assoc.
Qed.

Lemma len_concat_stored info rows stored :
  Forall2 (stored_as info) rows stored →
  len (concat stored) = len rows * row_length info ∧ len stored = len rows.
Proof.
  induction 1 as [|row bs rows stored Hs _ [IH1 IH2]]; [done|].
  cbn [concat]. rewrite len_app, IH1, (_serialize_row_len _ _ _ Hs).
  unfold len in *. cbn [length]. lia.
Qed.

Lemma create_file name location info fs t fs' :
  Table.create name location info fs = (Ok t, fs') →
  ∃ header, _serialize_header info = Ok header
            ∧ file_at fs' (Table._location t) = Some header
            ∧ Table._data_start t = len header
            ∧ Table.info t = info.
Proof.
  intros (quoted & header & q & _ & _ & Hs & _ & _ & _ & -> & Hfile)%create_Ok.
  exists header. done.
Qed.

Lemma length_stored self fs header stored n :
  file_at fs (Table._location self) = Some (header ++ stored) →
  Table._data_start self = len header →
  len stored = n * row_length (Table.info self) →
  0 < row_length (Table.info self) →
  Table.length self fs = (Ok n, fs).
Proof.
  intros Hfile Hstart Hlen Hpos. rewrite (length_eq _ _ _ Hfile).
  unfold floordiv, fs_lift. destruct (Z.eqb_spec (row_length (Table.info self)) 0); [lia|].
  rewrite len_app, Hstart, Hlen. do 3 f_equal.
  replace (len header + n * row_length (Table.info self) - len header)
    with (n * row_length (Table.info self)) by lia.
  by rewrite Z.div_mul.
Qed.

(** C5. On a freshly created table, after [n] successful inserts the file
    holds [n * row_length] bytes after the header; when the schema has a
    column, [length] is [n], and one more successful insert makes it
    [n + 1]. *)
Theorem length_counts_inserts name location info fs t fs1 rows fs2 :
  Table.create name location info fs = (Ok t, fs1) →
  insert_all t rows fs1 = (Ok tt, fs2) →
  (∃ data, file_at fs2 (Table._location t) = Some data
           ∧ len data - Table._data_start t = len rows * row_length (Table.info t))
  ∧ (columns info ≠ [] →
     Table.length t fs2 = (Ok (len rows), fs2)
     ∧ ∀ row fs3, Table.insert t row fs2 = (Ok tt, fs3) →
                  Table.length t fs3 = (Ok (len rows + 1), fs3)).
Proof.
  intros Hc Hi.
  destruct (create_file _ _ _ _ _ _ Hc) as (header & Hs & Hfile & Hstart & Hinfo).
  destruct (insert_all_Ok _ _ _ _ _ Hfile Hi) as (stored & Hst & Hfile2).
  destruct (len_concat_stored _ _ _ Hst) as [Hlen _].
  split; [|intros Hne; split].
  - eexists. split; [done|]. rewrite len_app, Hstart, Hlen. lia.
  - eapply length_stored; [done..|]. rewrite Hinfo. by apply row_length_pos.
  - intros row fs3 Hi3.
    destruct (insert_Ok _ _ _ _ _ Hfile2 Hi3) as (bs & Hbs & Hfile3).
    rewrite <- app_assoc in Hfile3. eapply length_stored; [done..| |].
    + rewrite len_app, Hlen, (_serialize_row_len _ _ _ Hbs). lia.
    + rewrite Hinfo. by apply row_length_pos.
Qed.

Lemma length_counts_inserts_witness :
  let rows := [[(py "name", VStr (py "Spam0")); (py "age", VInt 0)];
               [(py "name", VStr (py "Spam1")); (py "age", VInt 1)]] in
  let fs2 := (insert_all example_table rows example_fs).2 in
  (∃ data, file_at fs2 (Table._location example_table) = Some data
           ∧ len data - Table._data_start example_table
             = 2 * row_length (Table.info example_table))
  ∧ Table.length example_table fs2 = (Ok 2, fs2)
  ∧ ∀ row fs3, Table.insert example_table row fs2 = (Ok tt, fs3) →
               Table.length example_table fs3 = (Ok (2 + 1), fs3).
Proof.
  intros rows fs2.
  destruct (length_counts_inserts (py "my_test_table") [py "tmp"] example_info
              example_root example_table example_fs rows fs2) as [Hfile Hlength];
    [by_compute | by_compute |].
  split; [exact Hfile | apply Hlength; by_compute].
Defined.

(** ** Offsets *)

Lemma column_offsets_fold info :
  column_offsets info = (fold_left offsets_step (columns info) (0, ∅)).2.
Proof. reflexivity. Qed.

Lemma offsets_fold_fst cols off m :
  (fold_left offsets_step cols (off, m)).1 = off + sum (widths cols).
Proof.
  revert off m. induction cols as [|col cols IH]; intros off m.
  - cbn. unfold sum. cbn. lia.
  - cbn [fold_left offsets_step]. rewrite IH. unfold widths.
    rewrite fmap_cons, sum_cons. lia.
Qed.

Lemma offsets_fold_other cols off m c :
  c ∉ name <$> cols →
  (fold_left offsets_step cols (off, m)).2 !! c = m !! c.
Proof.
  revert off m. induction cols as [|col cols IH]; intros off m Hc; [done|].
  rewrite fmap_cons in Hc. apply not_elem_of_cons in Hc as [Hne Hc].
  cbn [fold_left offsets_step]. rewrite IH by done. by rewrite lookup_insert_ne.
Qed.

Lemma dict_fold_other (cols : list ColumnInfo) (m : gmap (list Z) ColumnInfo) (c : list Z) :
  c ∉ name <$> cols →
  fold_left (fun d col => <[name col := col]> d) cols m !! c = m !! c.
Proof.
  revert m. induction cols as [|col cols IH]; intros m Hc; [done|].
  rewrite fmap_cons in Hc. apply not_elem_of_cons in Hc as [Hne Hc].
  cbn [fold_left]. rewrite IH by done. by rewrite lookup_insert_ne.
Qed.

(** The last column of a given name. *)
Lemma last_column cols c :
  c ∈ name <$> cols →
  ∃ before col after, cols = before ++ col :: after ∧ name col = c
                      ∧ c ∉ name <$> after.
Proof.
  induction cols as [|col cols IH]; [by intros ?%elem_of_nil|].
  rewrite fmap_cons. intros Hc.
  destruct (decide (c ∈ name <$> cols)) as [Hin|Hnin].
  - destruct (IH Hin) as (before & col' & after & -> & Hn & Ha).
    by exists (col :: before), col', after.
  - apply elem_of_cons in Hc as [->|Hc]; [|done].
    by exists [], col, cols.
Qed.

Lemma column_offsets_lookup info before col after :
  columns info = before ++ col :: after →
  name col ∉ name <$> after →
  column_offsets info !! name col = Some (sum (widths before))
  ∧ columns_dict info !! name col = Some col.
Proof.
  intros E Hn. rewrite column_offsets_fold. unfold columns_dict. rewrite E.
  rewrite !fold_left_app. cbn [fold_left]. split.
  - destruct (fold_left offsets_step before (0, ∅)) as [off m] eqn:Ef.
    pose proof (offsets_fold_fst before 0 ∅) as Hoff. rewrite Ef in Hoff.
    cbn [fst] in Hoff. cbn [offsets_step].
    rewrite offsets_fold_other by done. rewrite lookup_insert_eq. f_equal. lia.
  - rewrite dict_fold_other by done. by rewrite lookup_insert_eq.
Qed.

(** ** Reading rows *)

Lemma IO_mapM_cons {A B} (f : A → IO B) x l fd :
  mapM f (x :: l) fd
  = match f x fd with
    | (Ok y, fd') =>
        match mapM f l fd' with
        | (Ok k, fd'') => (Ok (y :: k), fd'')
        | (Raise e, fd'') => (Raise e, fd'')
        end
    | (Raise e, fd') => (Raise e, fd')
    end.
Proof.
  change (mapM f (x :: l) fd) with ((y ← f x; k ← mapM f l; mret (y :: k)) fd).
  unfold mbind, IO_bind. destruct (f x fd) as [[y|e] fd']; [|done].
  by destruct (mapM f l fd') as [[k|e] fd''].
Qed.

(** A stored row somewhere in a file: [pre] is what precedes it, [post] what
    follows. *)
Section StoredRow.
Context (info : TableInfo) (inserted : list (list Z * value)).
Context (row pre post : list Z).
Hypothesis Hrow : stored_as info inserted row.

(** One requested column, wherever the file object stood before. *)
Lemma read_column c p :
  c ∈ name <$> columns info →
  ∃ offset col p',
    column_offsets info !! c = Some offset
    ∧ columns_dict info !! c = Some col
    ∧ _deserialize_value (datatype col)
        (seek (len pre + offset) (mkIO (pre ++ row ++ post) p))
      = (Ok (read_back (provided_value inserted c)), mkIO (pre ++ row ++ post) p').
Proof using Hrow.
  intros Hc. pose proof Hrow as Hs.
  apply _serialize_row_Ok in Hs as (parts & Hp & E0).
  destruct (last_column _ _ Hc) as (before & col & after & E & <- & Ha).
  destruct (column_offsets_lookup _ _ _ _ E Ha) as [Ho Hd].
  unfold slots_of in Hp. rewrite E in Hp.
  apply Forall2_app_inv_l in Hp as (p1 & p2' & Hp1 & Hp2 & ->).
  apply Forall2_cons_inv_l in Hp2 as (slot & p2 & (v & Hv & Hslot) & Hp2 & ->).
  exists (sum (widths before)), col, (len pre + sum (widths before)
                                       + _DATATYPE_LENGHTS (datatype col)).
  split; [done|]. split; [done|].
  unfold provided_value. rewrite Hv. cbn [default].
  rewrite E0, concat_app. cbn [concat]. unfold seek. cbn [content].
  replace (pre ++ (concat p1 ++ slot ++ concat p2) ++ post)
    with ((pre ++ concat p1) ++ slot ++ (concat p2 ++ post))
    by (by rewrite <- !app_assoc).
  replace (len pre + sum (widths before)) with (len (pre ++ concat p1)).
  - apply _deserialize_serialize_value. done.
  - rewrite len_app. f_equal. apply (slots_of_len (mapping inserted)). done.
Qed.

Lemma read_columns cols p :
  (∀ c, c ∈ cols → c ∈ name <$> columns info) →
  ∃ p',
    mapM (fun col =>
            offset ← io_lift (getitem (column_offsets info) col);
            _ ← io_seek (len pre + offset);
            ci ← io_lift (getitem (columns_dict info) col);
            _deserialize_value (datatype ci))
         cols (mkIO (pre ++ row ++ post) p)
    = (Ok ((fun c => read_back (provided_value inserted c)) <$> cols),
       mkIO (pre ++ row ++ post) p').
Proof using Hrow.
  revert p. induction cols as [|c cols IH]; intros p Hcols.
  - exists p. done.
  - destruct (read_column c p) as (offset & col & p1 & Ho & Hd & Hr);
      [apply Hcols; by left|].
    destruct (IH p1) as [p' Hrest]; [intros c' Hc'; apply Hcols; by right|].
    exists p'. rewrite IO_mapM_cons.
    unfold mbind at 1, IO_bind at 1, io_lift at 1, getitem at 1. rewrite Ho.
    unfold mbind at 1, IO_bind at 1, io_seek at 1.
    unfold mbind at 1, IO_bind at 1, io_lift at 1, getitem at 1. rewrite Hd.
    rewrite Hr, Hrest. done.
Qed.

Lemma _deserialize_row_stored cols p :
  (∀ c, c ∈ cols → c ∈ name <$> columns info) →
  ∃ p',
    _deserialize_row info (len pre) cols (mkIO (pre ++ row ++ post) p)
    = (Ok ((fun c => read_back (provided_value inserted c)) <$> cols),
       mkIO (pre ++ row ++ post) p').
Proof using Hrow.
  intros Hcols. unfold _deserialize_row.
  unfold mbind at 1, IO_bind at 1, io_seek at 1, seek at 1. cbn [content].
  by apply read_columns.
Qed.

End StoredRow.

Lemma zip_strict_fmap {A B} (g : A → B) (xs : list A) :
  zip_strict xs (g <$> xs) = Ok ((fun x => (x, g x)) <$> xs).
Proof.
  induction xs as [|x xs IH]; [done|].
  rewrite !fmap_cons. cbn [zip_strict]. by rewrite IH.
Qed.

Lemma read_rows self cols rows stored pre k p :
  (∀ c, c ∈ cols → c ∈ name <$> columns (Table.info self)) →
  Forall2 (stored_as (Table.info self)) rows stored →
  len pre = Table._data_start self + k * row_length (Table.info self) →
  ∃ p',
    mapM (query_row self cols) (seqZ k (len stored)) (mkIO (pre ++ concat stored) p)
    = (Ok (record_of cols <$> rows), mkIO (pre ++ concat stored) p').
Proof.
  intros Hcols Hst. revert pre k p.
  induction Hst as [|inserted row rows stored Hrow _ IH]; intros pre k p Hpre.
  - exists p. done.
  - cbn [concat].
    destruct (_deserialize_row_stored _ _ _ pre (concat stored) Hrow cols p Hcols)
      as [p1 Hr].
    destruct (IH (pre ++ row) (k + 1) p1) as [p' Hrest].
    { rewrite len_app, Hpre, (_serialize_row_len _ _ _ Hrow). lia. }
    exists p'. rewrite seqZ_cons by (unfold len; cbn [length]; lia).
    replace (Z.pred (len (row :: stored))) with (len stored)
      by (unfold len; cbn [length]; lia).
    replace (Z.succ k) with (k + 1) by lia.
    rewrite IO_mapM_cons. unfold query_row at 1.
    unfold mbind at 1, IO_bind at 1. rewrite <- Hpre, Hr.
    unfold io_lift. rewrite zip_strict_fmap. cbn [fmap result_fmap].
    rewrite <- app_assoc in Hrest. rewrite Hrest. done.
Qed.

Lemma query_extra self cols fs :
  let extra : gset (list Z) := list_to_set cols ∖ column_names (Table.info self) in
  extra ≠ ∅ →
  Table.query self cols fs
  = (Raise (ColumnDoesNotExist (join_comma (elements extra))), fs).
Proof.
  intros extra H. unfold Table.query. fold extra. by rewrite bool_decide_eq_false_2.
Qed.

Lemma query_stored self cols fs header rows stored :
  (∀ c, c ∈ cols → c ∈ name <$> columns (Table.info self)) →
  0 < row_length (Table.info self) →
  Table._data_start self = len header →
  file_at fs (Table._location self) = Some (header ++ concat stored) →
  Forall2 (stored_as (Table.info self)) rows stored →
  Table.query self cols fs = (Ok (record_of cols <$> rows), fs).
Proof.
  intros Hcols Hpos Hstart Hfile Hst.
  destruct (len_concat_stored _ _ _ Hst) as [Hlen Hn].
  assert (Table.length self fs = (Ok (len rows), fs)) as Hlength
    by (by eapply length_stored).
  unfold Table.query. rewrite bool_decide_eq_true_2.
  2:{ apply difference_empty. intros c Hc. apply elem_of_list_to_set in Hc.
      apply elem_of_list_to_set. by apply Hcols. }
  cbn [negb]. apply file_at_Some in Hfile as (q & Hw & Hq).
  unfold mbind at 1, FS_bind at 1, open_rb at 1. rewrite Hw, Hq.
  unfold mbind at 1, FS_bind at 1. rewrite Hlength.
  destruct (read_rows self cols rows stored header 0
              (pos (seek (Table._data_start self) (BytesIO (header ++ concat stored))))
              Hcols Hst) as [p' Hrows]; [lia|].
  unfold range. rewrite <- Hn. unfold query_row in Hrows.
  unfold seek, BytesIO in *. cbn [content pos] in *.
  rewrite Hrows. cbn [fst].
  unfold mbind at 1, FS_bind at 1, fs_lift at 1.
  unfold mbind at 1, FS_bind at 1. rewrite Hlength.
  unfold mbind at 1, FS_bind at 1, fs_lift at 1.
  replace (len (record_of cols <$> rows) =? len rows) with true; [done|].
  symmetry. apply Z.eqb_eq. unfold len. by rewrite length_fmap.
Qed.

(** C3, as amended. After [create] and then the successful inserts of
    [rows], a query of columns that all belong to the schema returns one
    record per row, in insertion order; each record holds the requested
    columns in the order requested, each with the value inserted for it in
    that row, a string without its leading U+0000 characters, which the
    padding absorbs. A query that names a column outside the schema fails
    with [ColumnDoesNotExist], whose message joins exactly the unknown
    names. *)
Theorem query_correctness table location info fs t fs1 rows fs2 cols :
  Table.create table location info fs = (Ok t, fs1) →
  insert_all t rows fs1 = (Ok tt, fs2) →
  let schema : gset (list Z) := column_names info in
  (cols ≠ [] → (∀ c, c ∈ cols → c ∈ schema) →
     Table.query t cols fs2 = (Ok (record_of cols <$> rows), fs2))
  ∧ (¬ (∀ c, c ∈ cols → c ∈ schema) →
     ∃ absent, Table.query t cols fs2
               = (Raise (ColumnDoesNotExist (join_comma absent)), fs2)
               ∧ NoDup absent ∧ ∀ c, c ∈ absent ↔ c ∈ cols ∧ c ∉ schema).
Proof.
  intros Hc Hi schema.
  destruct (create_file _ _ _ _ _ _ Hc) as (header & Hs & Hfile & Hstart & Hinfo).
  destruct (insert_all_Ok _ _ _ _ _ Hfile Hi) as (stored & Hst & Hfile2).
  split.
  - intros Hne Hcols.
    assert (∀ c, c ∈ cols → c ∈ name <$> columns (Table.info t)) as Hcols'.
    { intros c Hin. rewrite Hinfo. pose proof (Hcols c Hin) as H'.
      unfold schema, column_names in H'. by apply elem_of_list_to_set in H'. }
    eapply query_stored; try done.
    rewrite Hinfo. apply row_length_pos. intros E.
    destruct cols as [|c cols]; [done|].
    specialize (Hcols' c (list_elem_of_here _ _)). rewrite Hinfo, E in Hcols'.
    by apply elem_of_nil in Hcols'.
  - intros Hn. exists (elements (list_to_set cols ∖ column_names (Table.info t) : gset (list Z))).
    split; [|split].
    + apply query_extra. rewrite difference_empty. intros Hsub. apply Hn.
      intros c Hin. unfold schema. rewrite <- Hinfo.
      apply Hsub. by apply elem_of_list_to_set.
    + apply NoDup_elements.
    + intros c. rewrite elem_of_elements, elem_of_difference, elem_of_list_to_set.
      unfold schema. by rewrite Hinfo.
Qed.

Lemma query_correctness_witness :
  let rows := [[(py "name", VStr (py "Spam0")); (py "age", VInt 0)];
               [(py "name", VStr (py "Spam1")); (py "age", VInt 1)]] in
  let fs2 := (insert_all example_table rows example_fs).2 in
  Table.query example_table [py "age"; py "name"] fs2
  = (Ok (record_of [py "age"; py "name"] <$> rows), fs2).
Proof.
  intros rows fs2.
  apply (proj1 (query_correctness (py "my_test_table") [py "tmp"] example_info
                  example_root example_table example_fs rows fs2
                  [py "age"; py "name"] ltac:(by_compute) ltac:(by_compute))).
  - done.
  - intros c Hc. apply list_elem_of_In in Hc.
    destruct Hc as [<-|[<-|[]]]; by_compute.
Defined.

(** The scenario of the specification: two rows, then a query of [age] and
    [name]. *)
Example two_rows_scenario :
  ((t ← Table.create (py "people") [py "tmp"] example_info;
    _ ← Table.insert t [(py "name", VStr (py "Spam0")); (py "age", VInt 0)];
    _ ← Table.insert t [(py "name", VStr (py "Spam1")); (py "age", VInt 1)];
    n ← Table.length t;
    rows ← Table.query t [py "age"; py "name"];
    mret (n, rows)) example_root).1
  = Ok (2, [[(py "age", VInt 0); (py "name", VStr (py "Spam0"))];
            [(py "age", VInt 1); (py "name", VStr (py "Spam1"))]]).
Proof. by_compute. Qed.

(** C3 as written fails: the row is inserted, and the query returns its
    name without the leading U+0000. *)
Lemma query_correctness_counterexample :
  let fs2 := (Table.insert example_table nul_row example_fs).2 in
  Table.create (py "my_test_table") [py "tmp"] example_info example_root
  = (Ok example_table, example_fs)
  ∧ (Table.insert example_table nul_row example_fs).1 = Ok tt
  ∧ provided_value nul_row (py "name") = VStr (0 :: py "a")
  ∧ (Table.query example_table [py "name"] fs2).1 = Ok [[(py "name", VStr (py "a"))]]
  ∧ VStr (py "a") ≠ VStr (0 :: py "a").
Proof. repeat split; by_compute. Qed.

(** ** The value codec, both ways *)

Lemma in_range_of_slot datatype v slot :
  _serialize_value datatype v = Ok slot → in_range datatype v = true.
Proof.
  destruct datatype, v as [s|n|]; try discriminate; cbn [in_range _DATATYPE_LENGHTS].
  - destruct (str_encode s) as [encoded|] eqn:He;
      [|unfold _serialize_value; by rewrite He].
    rewrite (_serialize_value_STRING _ _ He). by destruct (len encoded <=? 16).
  - rewrite _serialize_value_INTEGER.
    replace (n <=? 2 ^ 63 - 1) with (n <? 2 ^ 63) by lia.
    by destruct ((- 2 ^ 63 <=? n) && (n <? 2 ^ 63)).
Qed.

(** X1. A value is accepted exactly when it is in range for the datatype;
    a value of another type is refused with [ValueError], and a string that
    is not text with [UnicodeEncodeError]. *)
Theorem value_codec_accepts datatype v :
  ((∃ slot, _serialize_value datatype v = Ok slot) ↔ in_range datatype v = true)
  ∧ (match datatype, v with
     | STRING, VStr _ | INTEGER, VInt _ => True
     | _, _ => _serialize_value datatype v = Raise ValueError
     end)
  ∧ (∀ s, datatype = STRING → v = VStr s → is_text s = false →
          _serialize_value datatype v = Raise UnicodeEncodeError).
Proof.
  split; [|split].
  - split; [intros [slot H]; by eapply in_range_of_slot | apply in_range_serializes].
  - by destruct datatype, v.
  - intros s -> -> H. unfold is_text in H. unfold _serialize_value.
    destruct (str_encode s) as [|e] eqn:He; [done|]. cbn.
    by rewrite (str_encode_exn _ _ He).
Qed.

Lemma value_codec_accepts_witness :
  _serialize_value STRING (VStr [0xD800]) = Raise UnicodeEncodeError.
Proof.
  apply (proj2 (proj2 (value_codec_accepts STRING (VStr [0xD800]))) [0xD800]);
    reflexivity.
Defined.

Lemma lstrip_nul_split bs : ∃ k, bs = replicate k 0 ++ lstrip_nul bs.
Proof.
  induction bs as [|b bs [k IH]]; [by exists 0%nat|]. cbn [lstrip_nul].
  destruct (Z.eqb_spec b 0) as [->|]; [|by exists 0%nat].
  exists (S k). cbn [replicate app]. by rewrite <- IH.
Qed.

Lemma lstrip_nul_head bs : head (lstrip_nul bs) ≠ Some 0.
Proof.
  induction bs as [|b bs IH]; [done|]. cbn [lstrip_nul].
  destruct (Z.eqb_spec b 0); [done|]. cbn. congruence.
Qed.

Lemma len_lstrip_nul bs : len (lstrip_nul bs) <= len bs.
Proof.
  destruct (lstrip_nul_split bs) as [k E]. rewrite E at 2.
  rewrite len_app. pose proof (len_nonneg (replicate k 0)). lia.
Qed.

(** Padding does not see the NUL bytes a value begins with. *)
Lemma left_pad_lstrip_nul bs n :
  len bs <= n → left_pad bs n = left_pad (lstrip_nul bs) n.
Proof.
  intros Hlen. destruct (lstrip_nul_split bs) as [k E].
  unfold left_pad, zeros. rewrite E at 2. rewrite app_assoc, <- replicate_add.
  f_equal. f_equal. rewrite E in Hlen at 1. rewrite E at 1.
  rewrite len_app in *. unfold len in *. rewrite length_replicate in *. lia.
Qed.

(** X2. Two in-range values of a datatype are stored as the same slot
    exactly when they read back as the same value: different integers never
    share a slot, and two strings do exactly when they differ in leading
    U+0000 characters only. *)
Theorem slot_collisions datatype v v' slot slot' :
  _serialize_value datatype v = Ok slot →
  _serialize_value datatype v' = Ok slot' →
  slot = slot' ↔ read_back v = read_back v'.
Proof.
  intros Hs Hs'. split.
  - intros <-.
    pose proof (_deserialize_serialize_value _ _ _ [] [] Hs) as R.
    pose proof (_deserialize_serialize_value _ _ _ [] [] Hs') as R'.
    rewrite R in R'. congruence.
  - intros Hr. destruct datatype, v as [s|n|], v' as [s'|n'|]; try discriminate.
    + cbn [read_back] in Hr. injection Hr as Hr.
      destruct (str_encode s) as [e|] eqn:He; [|unfold _serialize_value in Hs; by rewrite He in Hs].
      destruct (str_encode s') as [e'|] eqn:He'; [|unfold _serialize_value in Hs'; by rewrite He' in Hs'].
      rewrite (_serialize_value_STRING _ _ He) in Hs.
      rewrite (_serialize_value_STRING _ _ He') in Hs'.
      destruct (Z.leb_spec (len e) 16); [|done].
      destruct (Z.leb_spec (len e') 16); [|done].
      injection Hs as <-. injection Hs' as <-.
      rewrite (left_pad_lstrip_nul e), (left_pad_lstrip_nul e') by done.
      pose proof (str_encode_lstrip_nul _ _ He) as H1.
      pose proof (str_encode_lstrip_nul _ _ He') as H2.
      rewrite Hr in H1. congruence.
    + cbn [read_back] in Hr. congruence.
Qed.

Lemma slot_collisions_witness :
  left_pad (py "a") 16 = left_pad (0 :: py "a") 16.
Proof.
  apply (slot_collisions STRING (VStr (py "a")) (VStr (0 :: py "a"))); by_compute.
Defined.

(** ** Decoding, then encoding *)

(** The strict decoder accepts nothing but what the encoder writes. *)
Lemma str_encode_decode bs s :
  bytes_decode strict bs = Ok s → str_encode s = Ok bs.
Proof.
  revert s. induction bs as [bs IH] using (induction_ltof1 _ (@length Z)).
  unfold ltof in IH. destruct bs as [|b0 r0]; intros s H; [by injection H as <-|].
  cbn [bytes_decode] in H. split_decoder H;
    apply fmap_Ok in H as (s' & H & ->); cbn [str_encode];
    (apply IH in H; [|cbn [length]; lia]); rewrite H;
    unfold utf8_encode_char, is_surrogate; decide_tests; cbn [andb];
    repeat match goal with
    | |- context [?a <=? ?b] => destruct (Z.leb_spec a b); cbn [andb]
    end;
    try (exfalso; Z.div_mod_to_equations; lia);
    cbn [mbind result_bind app]; f_equal; repeat f_equal;
    Z.div_mod_to_equations; lia.
Qed.

Lemma unsigned_of_bytes_bound bs :
  Forall (λ b, 0 <= b < 256) bs → 0 <= unsigned_of_bytes bs < 256 ^ len bs.
Proof.
  induction bs as [|b bs IH] using rev_ind; intros H; [by cbn|].
  apply Forall_app in H as [H Hb]. apply Forall_inv in Hb.
  rewrite unsigned_of_bytes_app, len_app. change (len [b]) with 1.
  rewrite Z.pow_add_r, Z.pow_1_r by (pose proof (len_nonneg bs); lia).
  specialize (IH H). generalize dependent (256 ^ len bs). intros; lia.
Qed.

Lemma big_endian_unsigned bs :
  Forall (λ b, 0 <= b < 256) bs →
  big_endian (length bs) (unsigned_of_bytes bs) = bs.
Proof.
  induction bs as [|b bs IH] using rev_ind; intros H; [done|].
  apply Forall_app in H as [H Hb]. apply Forall_inv in Hb.
  rewrite length_app, Nat.add_1_r, unsigned_of_bytes_app. cbn [big_endian].
  replace ((unsigned_of_bytes bs * 256 + b) / 256) with (unsigned_of_bytes bs)
    by (Z.div_mod_to_equations; lia).
  replace ((unsigned_of_bytes bs * 256 + b) mod 256) with b
    by (Z.div_mod_to_equations; lia).
  by rewrite IH.
Qed.

(** X3. Every eight bytes are the slot of exactly one integer: decoding
    them never fails, gives a signed 64-bit integer, and serializing that
    integer gives the same eight bytes back. *)
Theorem integer_slot_round_trip (slot : bytes) :
  len slot = 8 → Forall (λ b, 0 <= b < 256) slot →
  ∃ n, (_deserialize_value INTEGER (BytesIO slot)).1 = Ok (VInt n)
       ∧ - 2 ^ 63 <= n < 2 ^ 63
       ∧ _serialize_value INTEGER (VInt n) = Ok slot.
Proof.
  intros Hlen Hbytes. exists (int_from_bytes slot).
  assert (length slot = 8%nat) as Hlength by (unfold len in Hlen; lia).
  pose proof (unsigned_of_bytes_bound _ Hbytes) as Hu. rewrite Hlen in Hu.
  change (256 ^ 8) with (2 ^ 64) in Hu.
  assert (- 2 ^ 63 <= int_from_bytes slot < 2 ^ 63
          ∧ int_from_bytes slot mod 2 ^ 64 = unsigned_of_bytes slot) as [Hn Hmod].
  { unfold int_from_bytes. rewrite Hlen. change (8 * 8 - 1) with 63.
    change (8 * 8) with 64. change (0 <? 8) with true. cbn [andb].
    destruct (Z.leb_spec (2 ^ 63) (unsigned_of_bytes slot));
      Z.div_mod_to_equations; lia. }
  split; [|split; [done|]].
  - unfold _deserialize_value.
    pose proof (read_BytesIO slot (_DATATYPE_LENGHTS INTEGER) Hlen) as R.
    destruct (read (_DATATYPE_LENGHTS INTEGER) (BytesIO slot)) as [got fd].
    cbn in R. by subst got.
  - rewrite _serialize_value_INTEGER.
    destruct (Z.leb_spec (- 2 ^ 63) (int_from_bytes slot)); [|lia].
    destruct (Z.ltb_spec (int_from_bytes slot) (2 ^ 63)); [|lia].
    cbn [andb]. rewrite Hmod, <- Hlength. by rewrite big_endian_unsigned.
Qed.

Lemma integer_slot_round_trip_witness :
  ∃ n, (_deserialize_value INTEGER (BytesIO [255; 0; 0; 0; 0; 0; 0; 7])).1 = Ok (VInt n)
       ∧ - 2 ^ 63 <= n < 2 ^ 63
       ∧ _serialize_value INTEGER (VInt n) = Ok [255; 0; 0; 0; 0; 0; 0; 7].
Proof.
  apply (integer_slot_round_trip [255; 0; 0; 0; 0; 0; 0; 7]); [reflexivity|].
  repeat constructor; lia.
Defined.

(** X4. A sixteen-byte slot that decodes as a string is the slot of that
    string: serializing what was read gives the same bytes back, and what
    was read never begins with U+0000. *)
Theorem string_slot_round_trip (slot : bytes) s :
  len slot = 16 →
  (_deserialize_value STRING (BytesIO slot)).1 = Ok (VStr s) →
  _serialize_value STRING (VStr s) = Ok slot ∧ head s ≠ Some 0.
Proof.
  intros Hlen H. unfold _deserialize_value in H.
  pose proof (read_BytesIO slot (_DATATYPE_LENGHTS STRING) Hlen) as R.
  destruct (read (_DATATYPE_LENGHTS STRING) (BytesIO slot)) as [got fd].
  cbn in R. subst got. cbn [fst] in H.
  apply fmap_Ok in H as (s' & H & [= ->]). apply str_encode_decode in H.
  pose proof (len_lstrip_nul slot) as Hle. split.
  - rewrite (_serialize_value_STRING _ _ H).
    destruct (Z.leb_spec (len (lstrip_nul slot)) 16); [|lia].
    rewrite <- left_pad_lstrip_nul by lia. unfold left_pad.
    rewrite Hlen. done.
  - rewrite <- (str_encode_head _ _ H). apply lstrip_nul_head.
Qed.

Lemma string_slot_round_trip_witness :
  _serialize_value STRING (VStr (py "table")) = Ok (zeros 11 ++ py "table")
  ∧ head (py "table") ≠ Some 0.
Proof.
  apply (string_slot_round_trip (zeros 11 ++ py "table")); by_compute.
Defined.

(** X5. At or past the end of the file nothing is read and nothing fails:
    a string column reads as the empty string and an integer column as 0,
    and the position stays where it was. *)
Theorem read_at_end_of_file datatype (data : bytes) (position : Z) :
  len data <= position →
  _deserialize_value datatype (mkIO data position)
  = (Ok (match datatype with STRING => VStr [] | INTEGER => VInt 0 end),
     mkIO data position).
Proof.
  intros H. unfold _deserialize_value, read. cbn [content pos].
  rewrite drop_ge by (unfold len in H; lia). rewrite take_nil.
  change (len []) with 0. rewrite Z.add_0_r. by destruct datatype.
Qed.

Lemma read_at_end_of_file_witness :
  _deserialize_value INTEGER (mkIO [1; 2; 3] 3) = (Ok (VInt 0), mkIO [1; 2; 3] 3).
Proof. apply (read_at_end_of_file INTEGER [1; 2; 3] 3). reflexivity. Defined.

(** ** The layout of a row *)

Lemma widths_nonneg cols : 0 <= sum (widths cols).
Proof.
  induction cols as [|col cols IH]; [done|]. unfold widths in *.
  rewrite fmap_cons, sum_cons. pose proof (_DATATYPE_LENGHTS_pos (datatype col)). lia.
Qed.

Lemma widths_app cols cols' :
  sum (widths (cols ++ cols')) = sum (widths cols) + sum (widths cols').
Proof. unfold widths. by rewrite fmap_app, sum_app. Qed.

Lemma row_length_widths (info : TableInfo) : row_length info = sum (widths (columns info)).
Proof. reflexivity. Qed.

Lemma column_offsets_None (info : TableInfo) c :
  c ∉ name <$> columns info → column_offsets info !! c = None.
Proof.
  intros H. rewrite column_offsets_fold. by rewrite offsets_fold_other.
Qed.

(** X6. The offset recorded under a name is the total width of the columns
    that precede the last column of that name, and [columns_dict] gives
    that column; its slot lies within the row. *)
Theorem column_layout (info : TableInfo) before col after :
  columns info = before ++ col :: after →
  name col ∉ name <$> after →
  column_offsets info !! name col = Some (sum (widths before))
  ∧ columns_dict info !! name col = Some col
  ∧ 0 <= sum (widths before)
  ∧ sum (widths before) + _DATATYPE_LENGHTS (datatype col) <= row_length info.
Proof.
  intros E Hn.
  destruct (column_offsets_lookup _ _ _ _ E Hn) as [Ho Hd].
  repeat split; try done; [apply widths_nonneg|].
  rewrite row_length_widths, E, widths_app. unfold widths at 3.
  rewrite fmap_cons, sum_cons. pose proof (widths_nonneg after).
  unfold widths in *. lia.
Qed.

Lemma column_layout_witness :
  column_offsets example_info !! py "age" = Some (sum (widths [mkColumnInfo (py "name") STRING]))
  ∧ columns_dict example_info !! py "age" = Some (mkColumnInfo (py "age") INTEGER)
  ∧ 0 <= sum (widths [mkColumnInfo (py "name") STRING])
  ∧ sum (widths [mkColumnInfo (py "name") STRING]) + _DATATYPE_LENGHTS INTEGER
    <= row_length example_info.
Proof.
  apply (column_layout example_info [mkColumnInfo (py "name") STRING]
           (mkColumnInfo (py "age") INTEGER) []); by_compute.
Defined.

(** X7. When the column names are distinct, the slots of two columns never
    overlap: the slot of the earlier column ends where the slot of the
    later one begins, or before. *)
Theorem slots_do_not_overlap (info : TableInfo) (i j : nat) ci cj oi oj :
  NoDup (name <$> columns info) →
  columns info !! i = Some ci → columns info !! j = Some cj → (i < j)%nat →
  column_offsets info !! name ci = Some oi →
  column_offsets info !! name cj = Some oj →
  0 <= oi ∧ oi + _DATATYPE_LENGHTS (datatype ci) <= oj
  ∧ oj + _DATATYPE_LENGHTS (datatype cj) <= row_length info.
Proof.
  intros Hnd Hi Hj Hij Hoi Hoj.
  destruct (list_elem_of_split_length _ _ _ Hj) as (bj & after & E & Hlen).
  assert (bj !! i = Some ci) as Hi'.
  { rewrite E in Hi. by rewrite lookup_app_l in Hi by lia. }
  destruct (list_elem_of_split_length _ _ _ Hi') as (before & middle & E' & Hlen').
  subst bj. rewrite <- app_assoc in E. cbn [app] in E.
  rewrite E, !fmap_app, !fmap_cons, fmap_app, fmap_cons in Hnd.
  apply NoDup_app in Hnd as (_ & _ & Hnd).
  apply NoDup_cons in Hnd as [Hci Hnd].
  apply NoDup_app in Hnd as (_ & _ & Hnd). apply NoDup_cons in Hnd as [Hcj _].
  destruct (column_offsets_lookup info before ci (middle ++ cj :: after) E) as [Ho1 _].
  { by rewrite fmap_app, fmap_cons. }
  destruct (column_offsets_lookup info (before ++ ci :: middle) cj after) as [Ho2 _].
  { by rewrite <- app_assoc. }
  { done. }
  rewrite Ho1 in Hoi. rewrite Ho2 in Hoj. injection Hoi as <-. injection Hoj as <-.
  rewrite row_length_widths, E, !widths_app.
  change (ci :: middle ++ cj :: after) with ([ci] ++ middle ++ [cj] ++ after).
  change (ci :: middle) with ([ci] ++ middle).
  rewrite !widths_app.
  pose proof (widths_nonneg before). pose proof (widths_nonneg middle).
  pose proof (widths_nonneg after).
  change (sum (widths [ci])) with (0 + _DATATYPE_LENGHTS (datatype ci)).
  change (sum (widths [cj])) with (0 + _DATATYPE_LENGHTS (datatype cj)).
  lia.
Qed.

Lemma slots_do_not_overlap_witness :
  0 <= 0 ∧ 0 + _DATATYPE_LENGHTS STRING <= 16 ∧ 16 + _DATATYPE_LENGHTS INTEGER <= row_length example_info.
Proof.
  apply (slots_do_not_overlap example_info 0 1
           (mkColumnInfo (py "name") STRING) (mkColumnInfo (py "age") INTEGER) 0 16);
    by_compute.
Defined.

(** ** The row codec *)

(** X8. A row serializes exactly when the mapping holds, for every column
    of the schema, a value that is in range for the column. *)
Theorem row_codec_accepts (info : TableInfo) (values : gmap (list Z) value) :
  (∃ row, _serialize_row info values = Ok row)
  ↔ (∀ col, col ∈ columns info →
       ∃ v, values !! name col = Some v ∧ in_range (datatype col) v = true).
Proof.
  split.
  - intros [row H] col Hcol.
    apply _serialize_row_Ok in H as (parts & Hp & _). unfold slots_of in Hp.
    apply list_elem_of_lookup in Hcol as [i Hi].
    destruct (Forall2_lookup_l _ _ _ _ _ Hp Hi) as (slot & _ & v & Hv & Hs).
    exists v. split; [done|]. by eapply in_range_of_slot.
  - intros H. destruct (in_range_slots _ _ H) as [parts Hp].
    exists (concat parts). by apply _serialize_row_slots.
Qed.

Lemma row_codec_accepts_witness :
  ∃ v, mapping [(py "name", VStr (py "a")); (py "age", VInt 1)] !! py "age" = Some v
       ∧ in_range INTEGER v = true.
Proof.
  refine (proj1 (row_codec_accepts example_info
                   (mapping [(py "name", VStr (py "a")); (py "age", VInt 1)]))
            _ (mkColumnInfo (py "age") INTEGER) _).
  - exists (zeros 15 ++ py "a" ++ zeros 7 ++ [1]). by_compute.
  - by_compute.
Defined.

Lemma mapM_result_ext {A B} (f g : A → result B) l :
  (∀ x, x ∈ l → f x = g x) → mapM f l = mapM g l.
Proof.
  induction l as [|x l IH]; intros H; [done|].
  rewrite !mapM_result_cons, (H x) by (by left).
  rewrite IH; [done|]. intros y Hy. apply H. by right.
Qed.

(** X9. Serializing a row looks at the values of the schema's columns and
    at nothing else: two mappings that agree on them give the same result,
    bytes or exception. *)
Theorem row_codec_ignores_other_keys (info : TableInfo) (values values' : gmap (list Z) value) :
  (∀ col, col ∈ columns info → values !! name col = values' !! name col) →
  _serialize_row info values = _serialize_row info values'.
Proof.
  intros H. unfold _serialize_row.
  rewrite (mapM_result_ext _
             (fun col => v ← getitem values' (name col);
                         _serialize_value (datatype col) v)); [done|].
  intros col Hcol. unfold getitem. by rewrite (H col Hcol).
Qed.

Lemma row_codec_ignores_other_keys_witness :
  _serialize_row example_info
    (mapping [(py "name", VStr (py "a")); (py "age", VInt 1)])
  = _serialize_row example_info
      (mapping [(py "name", VStr (py "a")); (py "age", VInt 1); (py "x", VOther)]).
Proof.
  apply row_codec_ignores_other_keys. intros col Hcol.
  apply list_elem_of_In in Hcol. cbn in Hcol.
  destruct Hcol as [<-|[<-|[]]]; by_compute.
Defined.

Lemma mapM_result_app_Raise {A B} (f : A → result B) before x after e :
  (∀ y, y ∈ before → ∃ b, f y = Ok b) → f x = Raise e →
  mapM f (before ++ x :: after) = Raise e.
Proof.
  intros Hb Hx. induction before as [|y before IH]; cbn [app].
  - by rewrite mapM_result_cons, Hx.
  - rewrite mapM_result_cons. destruct (Hb y) as [b ->]; [by left|].
    cbn [mbind result_bind]. rewrite IH; [done|]. intros z Hz. apply Hb. by right.
Qed.

(** X10. The columns are serialized in schema order and the first one that
    fails decides: when every column before it has a value in range, a
    column without a value raises [KeyError] and a column whose value does
    not serialize raises the exception of the value codec. *)
Theorem row_codec_first_failure (info : TableInfo) (values : gmap (list Z) value) before col after :
  columns info = before ++ col :: after →
  (∀ c, c ∈ before →
     ∃ v, values !! name c = Some v ∧ in_range (datatype c) v = true) →
  (values !! name col = None → _serialize_row info values = Raise KeyError)
  ∧ (∀ v e, values !! name col = Some v →
            _serialize_value (datatype col) v = Raise e →
            _serialize_row info values = Raise e).
Proof.
  intros E Hb.
  assert (∀ e, (v ← getitem values (name col);
                _serialize_value (datatype col) v) = Raise e →
               _serialize_row info values = Raise e) as Hfail.
  { intros e He. unfold _serialize_row. rewrite E.
    rewrite (mapM_result_app_Raise _ _ _ _ e); [done| |done].
    intros c Hc. destruct (Hb c Hc) as (v & Hv & Hr).
    destruct (in_range_serializes _ _ Hr) as [slot Hs].
    exists slot. unfold getitem. by rewrite Hv. }
  split.
  - intros Hv. apply Hfail. unfold getitem. by rewrite Hv.
  - intros v e Hv He. apply Hfail. unfold getitem. by rewrite Hv.
Qed.

Lemma row_codec_first_failure_witness :
  _serialize_row example_info (mapping [(py "name", VStr (py "a"))]) = Raise KeyError.
Proof.
  apply (proj1 (row_codec_first_failure example_info
                  (mapping [(py "name", VStr (py "a"))])
                  [mkColumnInfo (py "name") STRING] (mkColumnInfo (py "age") INTEGER) []
                  eq_refl
                  ltac:(intros c Hc; apply list_elem_of_In in Hc; cbn in Hc;
                        destruct Hc as [<-|[]]; exists (VStr (py "a")); by_compute))).
  by_compute.
Defined.

(** X11. The row codec round trip: from the bytes of a serialized row,
    the columns asked for are read in the order asked for, whatever their
    order in the schema, and each is the value that was serialized, a string
    without its leading U+0000 characters. *)
Theorem row_codec_round_trip (info : TableInfo) inserted row (cols : list (list Z)) :
  _serialize_row info (mapping inserted) = Ok row →
  (∀ c, c ∈ cols → c ∈ name <$> columns info) →
  (_deserialize_row info 0 cols (BytesIO row)).1
  = Ok ((fun c => read_back (provided_value inserted c)) <$> cols).
Proof.
  intros Hrow Hcols.
  destruct (_deserialize_row_stored info inserted row [] [] Hrow cols 0 Hcols)
    as [p' H].
  cbn [app] in H. rewrite app_nil_r in H. change (len []) with 0 in H.
  unfold BytesIO. by rewrite H.
Qed.

Lemma row_codec_round_trip_witness :
  (_deserialize_row example_info 0 [py "age"; py "name"]
     (BytesIO (zeros 15 ++ py "a" ++ zeros 7 ++ [1]))).1
  = Ok [VInt 1; VStr (py "a")].
Proof.
  apply (row_codec_round_trip example_info
           [(py "name", VStr (py "a")); (py "age", VInt 1)]
           (zeros 15 ++ py "a" ++ zeros 7 ++ [1]) [py "age"; py "name"]).
  - by_compute.
  - intros c Hc. apply list_elem_of_In in Hc. cbn in Hc.
    destruct Hc as [<-|[<-|[]]]; by_compute.
Defined.

Lemma IO_mapM_app {A B} (f : A → IO B) l k fd ys fd' :
  mapM f l fd = (Ok ys, fd') →
  mapM f (l ++ k) fd
  = match mapM f k fd' with
    | (Ok zs, fd'') => (Ok (ys ++ zs), fd'')
    | (Raise e, fd'') => (Raise e, fd'')
    end.
Proof.
  revert fd ys. induction l as [|x l IH]; intros fd ys H.
  - injection H as <- <-. cbn [app]. by destruct (mapM f k fd) as [[zs|e] fd''].
  - cbn [app]. rewrite IO_mapM_cons in *.
    destruct (f x fd) as [[y|e] fd1]; [|done].
    destruct (mapM f l fd1) as [[ys'|e] fd2] eqn:E; [|done].
    injection H as <- <-. rewrite (IH _ _ E).
    by destruct (mapM f k fd2) as [[zs|e] fd''].
Qed.

(** X12. Asked for a name that is no column, [_deserialize_row] raises
    [KeyError] once the columns asked for before it are read. *)
Theorem row_codec_unknown_column (info : TableInfo) inserted row
    (known : list (list Z)) (c : list Z) (rest : list (list Z)) :
  _serialize_row info (mapping inserted) = Ok row →
  (∀ k, k ∈ known → k ∈ name <$> columns info) →
  c ∉ name <$> columns info →
  (_deserialize_row info 0 (known ++ c :: rest) (BytesIO row)).1 = Raise KeyError.
Proof.
  intros Hrow Hknown Hc.
  destruct (read_columns info inserted row [] [] Hrow known 0 Hknown) as [p' H].
  unfold _deserialize_row.
  unfold mbind at 1, IO_bind at 1, io_seek at 1, seek at 1, BytesIO.
  cbn [content app] in *. rewrite app_nil_r in H. change (len []) with 0 in H.
  rewrite (IO_mapM_app _ _ _ _ _ _ H), IO_mapM_cons.
  unfold mbind at 1, IO_bind at 1, io_lift at 1, getitem at 1.
  by rewrite column_offsets_None.
Qed.

Lemma row_codec_unknown_column_witness :
  (_deserialize_row example_info 0 ([py "age"] ++ py "x" :: [])
     (BytesIO (zeros 15 ++ py "a" ++ zeros 7 ++ [1]))).1
  = Raise KeyError.
Proof.
  apply (row_codec_unknown_column example_info
           [(py "name", VStr (py "a")); (py "age", VInt 1)]).
  - by_compute.
  - intros k Hk. apply list_elem_of_In in Hk. cbn in Hk.
    destruct Hk as [<-|[]]; by_compute.
  - by_compute.
Defined.

(** ** Reading leaves the file system as it is *)

Lemma read_only_bind {A B} (m : FS A) (f : A → FS B) :
  read_only m → (∀ a, read_only (f a)) → read_only (m ≫= f).
Proof.
  intros Hm Hf fs. unfold mbind, FS_bind. specialize (Hm fs).
  destruct (m fs) as [[a|e] fs1]; cbn [snd] in *; subst fs1; [apply Hf | done].
Qed.

Lemma read_only_ret {A} (a : A) : read_only (mret a).
Proof. by intros fs. Qed.

Lemma read_only_lift {A} (r : result A) : read_only (fs_lift r).
Proof. by intros fs. Qed.

Lemma read_only_raise {A} e : read_only (raise (A := A) e).
Proof. by intros fs. Qed.

Lemma read_only_open_rb p : read_only (open_rb p).
Proof.
  intros fs. unfold open_rb. destruct (walk fs [] p) as [q|]; [|done].
  by destruct (fs !! q) as [[]|].
Qed.

Lemma read_only_st_size p : read_only (st_size p).
Proof.
  intros fs. unfold st_size. destruct (walk fs [] p) as [q|]; [|done].
  by destruct (fs !! q) as [[]|].
Qed.

Lemma read_only_path_exists p : read_only (path_exists p).
Proof. by intros fs. Qed.

Create HintDb read_only.
#[local] Hint Resolve read_only_ret read_only_lift read_only_raise
  read_only_open_rb read_only_st_size read_only_path_exists : read_only.

Lemma read_only_length self : read_only (Table.length self).
Proof.
  unfold Table.length.
  repeat first [ apply read_only_bind; [|intros ?] | solve [auto with read_only] ].
Qed.

(** X13. Opening a table, taking its length and querying it never change
    the file system, whether they succeed or raise. *)
Theorem reading_changes_nothing (self : Table.t) (cols : list (list Z))
    (location : list (list Z)) (fs : gmap (list (list Z)) node) :
  (Table.__init__ location fs).2 = fs
  ∧ (Table.length self fs).2 = fs
  ∧ (Table.query self cols fs).2 = fs.
Proof.
  repeat split.
  - revert fs. change (read_only (Table.__init__ location)).
    unfold Table.__init__.
    repeat first
      [ apply read_only_bind; [|intros ?]
      | match goal with |- read_only (let '(_, _) := ?x in _) => destruct x end
      | match goal with |- read_only (if ?b then _ else _) => destruct b end
      | solve [auto with read_only] ].
  - apply read_only_length.
  - revert fs. change (read_only (Table.query self cols)).
    unfold Table.query. pose proof (read_only_length self).
    repeat first
      [ apply read_only_bind; [|intros ?]
      | match goal with |- read_only (let '(_, _) := ?x in _) => destruct x end
      | match goal with |- read_only (if ?b then _ else _) => destruct b end
      | solve [auto with read_only] ].
Qed.

(** ** What an insert does to the file system *)

(** Either nothing, or the file of the table, which is created empty when
    there is none, grows by [new]. *)
Lemma insert_effect self inserted fs r fs' :
  Table.insert self inserted fs = (r, fs') →
  fs' = fs
  ∨ ∃ q old new,
      walk fs [] (Table._location self) = Ok q
      ∧ (fs !! q = Some (File old) ∨ fs !! q = None ∧ old = [])
      ∧ fs' = <[q := File (old ++ new)]> fs.
Proof.
  unfold Table.insert.
  destruct (negb (bool_decide (_ = ∅))); [intros [= _ <-]; by left|].
  destruct (negb (bool_decide (_ = ∅))); [intros [= _ <-]; by left|].
  unfold mbind, FS_bind, open_ab, fs_lift, append.
  destruct (walk fs [] (Table._location self)) as [q|]; [|intros [= _ <-]; by left].
  destruct (fs !! q) as [[old|]|] eqn:Hq; [| intros [= _ <-]; by left |].
  - destruct (_serialize_row _ _) as [row|]; [|intros [= _ <-]; by left].
    rewrite Hq. intros [= _ <-]. right. exists q, old, row. eauto.
  - destruct (_serialize_row _ _) as [row|].
    + rewrite lookup_insert_eq. intros [= _ <-]. right. exists q, [], row.
      rewrite insert_insert_eq. eauto.
    + intros [= _ <-]. right. exists q, [], []. eauto.
Qed.

Lemma file_at_grow fs q old new p data :
  fs !! q = Some (File old) ∨ fs !! q = None ∧ old = [] →
  file_at fs p = Some data →
  ∃ more, file_at (<[q := File (old ++ new)]> fs) p = Some (data ++ more)
          ∧ (walk fs [] p ≠ Ok q → more = []).
Proof.
  intros Hq (q' & Hw & Hq')%file_at_Some.
  assert (walk (<[q := File (old ++ new)]> fs) [] p = Ok q') as Hw'.
  { destruct Hq as [Hq|[Hq _]].
    - by rewrite (walk_insert_file _ _ _ _ _ _ Hq).
    - by apply walk_insert_fresh. }
  unfold file_at. rewrite Hw'. destruct (decide (q' = q)) as [->|Hne].
  - rewrite lookup_insert_eq. destruct Hq as [Hq|[Hq _]]; [|congruence].
    rewrite Hq in Hq'. injection Hq' as ->. exists new. split; [done|].
    intros Hn. by rewrite Hw in Hn.
  - rewrite lookup_insert_ne, Hq' by done. exists []. by rewrite app_nil_r.
Qed.

Lemma is_dir_grow fs q old new p :
  fs !! q = Some (File old) ∨ fs !! q = None ∧ old = [] →
  is_dir fs p = true → is_dir (<[q := File (old ++ new)]> fs) p = true.
Proof.
  unfold is_dir. intros Hq H.
  destruct (walk fs [] p) as [q'|] eqn:Hw; [|done].
  destruct (fs !! q') as [[]|] eqn:Hq'; try done.
  assert (walk (<[q := File (old ++ new)]> fs) [] p = Ok q') as ->.
  { destruct Hq as [Hq|[Hq _]].
    - by rewrite (walk_insert_file _ _ _ _ _ _ Hq).
    - by apply walk_insert_fresh. }
  rewrite lookup_insert_ne, Hq'; [done|]. intros ->. destruct Hq as [Hq|[Hq _]]; congruence.
Qed.

(** X14. An insert only ever appends: whether it succeeds or raises, every
    file keeps its content as a prefix of its new content, every file that
    the path of the table does not lead to keeps its content unchanged, and
    every directory stays a directory. *)
Theorem insert_only_appends self inserted fs r fs' :
  Table.insert self inserted fs = (r, fs') →
  (∀ p data, file_at fs p = Some data →
     ∃ more, file_at fs' p = Some (data ++ more)
             ∧ (walk fs [] p ≠ walk fs [] (Table._location self) → more = []))
  ∧ (∀ p, is_dir fs p = true → is_dir fs' p = true).
Proof.
  intros [->|(q & old & new & Hw & Hq & ->)]%insert_effect.
  - split; [|done]. intros p data H. exists []. by rewrite app_nil_r.
  - split.
    + intros p data H. destruct (file_at_grow _ _ _ new _ _ Hq H) as (more & Hm & Hn).
      exists more. split; [done|]. rewrite Hw. done.
    + intros p. by apply is_dir_grow.
Qed.

Lemma insert_only_appends_witness :
  (∀ p data, file_at example_fs p = Some data →
     ∃ more, file_at example_fs p = Some (data ++ more)
             ∧ (walk example_fs [] p ≠ walk example_fs [] (Table._location example_table)
                → more = []))
  ∧ (∀ p, is_dir example_fs p = true → is_dir example_fs p = true).
Proof.
  apply (insert_only_appends example_table oversized_row example_fs
           (Raise AssertionError) example_fs).
  by_compute.
Defined.

(** X15. [insert] does not ask whether the file of the table exists. When
    the path leads to no file, a complete row is written to a new file that
    has no header; and when the row does not serialize, the exception of the
    codec leaves a new, empty file behind. *)
Theorem insert_without_file self inserted fs q :
  let provided : gset (list Z) := list_to_set (fst <$> inserted) in
  provided = column_names (Table.info self) →
  walk fs [] (Table._location self) = Ok q → fs !! q = None →
  Table.insert self inserted fs
  = match _serialize_row (Table.info self) (mapping inserted) with
    | Ok row => (Ok tt, <[q := File row]> fs)
    | Raise e => (Raise e, <[q := File []]> fs)
    end.
Proof.
  intros provided Hp Hw Hq. unfold Table.insert. fold provided. rewrite Hp.
  rewrite !bool_decide_eq_true_2 by (by apply difference_empty).
  cbn [negb]. unfold mbind, FS_bind, open_ab, fs_lift, append. rewrite Hw, Hq.
  destruct (_serialize_row _ _) as [row|]; [|done].
  by rewrite lookup_insert_eq, insert_insert_eq.
Qed.

Lemma insert_without_file_witness :
  Table.insert example_table oversized_row example_root
  = (Raise AssertionError, <[ [py "tmp"; py "my_test_table"] := File [] ]> example_root).
Proof.
  pose proof (insert_without_file example_table oversized_row example_root
                [py "tmp"; py "my_test_table"]
                ltac:(by_compute) ltac:(by_compute) ltac:(by_compute)) as H.
  rewrite H. by_compute.
Defined.

(** ** The arguments of an insert *)

Lemma mapping_snoc {V} (l : list (list Z * V)) k v :
  mapping (l ++ [(k, v)]) = <[k := v]> (mapping l).
Proof. unfold mapping. by rewrite fold_left_app. Qed.

Lemma mapping_list_to_map {V} (l : list (list Z * V)) :
  mapping l = list_to_map (reverse l).
Proof.
  induction l as [|[k v] l IH] using rev_ind; [done|].
  by rewrite mapping_snoc, reverse_snoc, IH.
Qed.

Lemma same_outcome_refl r : same_outcome r r.
Proof.
  destruct r as [[]|e]; try done. destruct e; try done.
  exists [msg], [msg]. done.
Qed.

(** X16. The order in which the pairs are given does not matter when their
    names are distinct: the row is laid out by the schema, so a permutation
    of the pairs leaves the same file system and gives the same outcome, up
    to the order of the names in a [ColumnDoesNotExist] message. *)
Theorem insert_order_is_irrelevant self (inserted inserted' : list (list Z * value)) fs :
  NoDup (fst <$> inserted) → inserted ≡ₚ inserted' →
  same_outcome (Table.insert self inserted fs).1 (Table.insert self inserted' fs).1
  ∧ (Table.insert self inserted fs).2 = (Table.insert self inserted' fs).2.
Proof.
  intros Hnd Hp.
  enough (Table.insert self inserted fs = Table.insert self inserted' fs) as ->
    by (split; [apply same_outcome_refl | done]).
  unfold Table.insert.
  assert ((list_to_set (fst <$> inserted) : gset (list Z))
          = list_to_set (fst <$> inserted')) as ->.
  { apply list_to_set_perm_L. by rewrite Hp. }
  assert (mapping inserted = mapping inserted') as ->; [|done].
  rewrite !mapping_list_to_map. apply list_to_map_proper.
  - by rewrite fmap_reverse, reverse_Permutation.
  - by rewrite !reverse_Permutation.
Qed.

Lemma insert_order_is_irrelevant_witness :
  let row := [(py "name", VStr (py "a")); (py "age", VInt 1)] in
  let row' := [(py "age", VInt 1); (py "name", VStr (py "a"))] in
  same_outcome (Table.insert example_table row example_fs).1
    (Table.insert example_table row' example_fs).1
  ∧ (Table.insert example_table row example_fs).2
    = (Table.insert example_table row' example_fs).2.
Proof.
  intros row row'.
  apply insert_order_is_irrelevant; [by_compute|]. apply perm_swap.
Defined.

Lemma mapping_shadowed {V} (rest : list (list Z * V)) (k : list Z) (v : V)
    (m : gmap (list Z) V) :
  k ∈ fst <$> rest →
  fold_left (fun d '(k, v) => <[k := v]> d) rest (<[k := v]> m)
  = fold_left (fun d '(k, v) => <[k := v]> d) rest m.
Proof.
  revert m. induction rest as [|[k' v'] rest IH]; intros m Hk; [by apply elem_of_nil in Hk|].
  cbn [fold_left]. destruct (decide (k' = k)) as [->|Hne].
  - by rewrite insert_insert_eq.
  - rewrite fmap_cons in Hk. apply elem_of_cons in Hk as [Hk|Hk]; [by cbn in Hk|].
    rewrite insert_insert_ne by done. by apply IH.
Qed.

(** X17. Of the values given under one name the last is the one stored: a
    pair whose name is given again later, wherever it stands among the
    arguments, can be left out: the file system is left the same and the
    outcome is the same, up to the order of the names in a
    [ColumnDoesNotExist] message. *)
Theorem insert_last_value_counts self (before : list (list Z * value)) (k : list Z)
    (v : value) (rest : list (list Z * value)) fs :
  k ∈ fst <$> rest →
  same_outcome (Table.insert self (before ++ (k, v) :: rest) fs).1
    (Table.insert self (before ++ rest) fs).1
  ∧ (Table.insert self (before ++ (k, v) :: rest) fs).2
    = (Table.insert self (before ++ rest) fs).2.
Proof.
  intros Hk.
  enough (Table.insert self (before ++ (k, v) :: rest) fs
          = Table.insert self (before ++ rest) fs) as ->
    by (split; [apply same_outcome_refl | done]).
  unfold Table.insert.
  assert ((list_to_set (fst <$> before ++ (k, v) :: rest) : gset (list Z))
          = list_to_set (fst <$> before ++ rest)) as ->.
  { apply leibniz_equiv. intros x.
    rewrite !elem_of_list_to_set, !fmap_app, fmap_cons, !elem_of_app, elem_of_cons.
    cbn [fst]. split; [intros [?|[->|?]]; auto | intros [?|?]; auto]. }
  assert (mapping (before ++ (k, v) :: rest) = mapping (before ++ rest)) as ->; [|done].
  unfold mapping. rewrite !fold_left_app. cbn [fold_left]. by apply mapping_shadowed.
Qed.

Lemma insert_last_value_counts_witness :
  let row := [(py "name", VStr (py "a"))] ++ (py "age", VInt 0) :: [(py "age", VInt 1)] in
  let row' := [(py "name", VStr (py "a"))] ++ [(py "age", VInt 1)] in
  same_outcome (Table.insert example_table row example_fs).1
    (Table.insert example_table row' example_fs).1
  ∧ (Table.insert example_table row example_fs).2
    = (Table.insert example_table row' example_fs).2.
Proof.
  intros row row'. apply insert_last_value_counts. by_compute.
Defined.

(** ** What a create does to the file system *)

(** X18. A [create] that raises, whatever the exception, leaves the file
    system as it was. *)
Theorem create_failure_is_atomic name location info fs e fs' :
  Table.create name location info fs = (Raise e, fs') → fs' = fs.
Proof.
  unfold Table.create.
  destruct (MAX_TABLE_NAME_LENGTH <? len name); [by intros [= _ <-]|].
  unfold mbind at 1, FS_bind at 1, fs_lift at 1.
  destruct (quote_plus name) as [quoted|]; [|by intros [= _ <-]].
  set (target := joinpath location quoted).
  unfold mbind at 1, FS_bind at 1, path_exists at 1.
  destruct (match walk fs [] target with
            | Ok q => bool_decide (is_Some (fs !! q))
            | Raise _ => false
            end) eqn:Hp; [by intros [= _ <-]|].
  unfold mbind at 1, FS_bind at 1, fs_lift at 1.
  destruct (_serialize_header info) as [header|] eqn:Hs; [|by intros [= _ <-]].
  unfold mbind at 1, FS_bind at 1, write_bytes at 1.
  destruct (walk fs [] target) as [q|] eqn:Hw; [|by intros [= _ <-]].
  destruct (fs !! q) as [n|] eqn:Hq.
  { by rewrite bool_decide_eq_true_2 in Hp by eauto. }
  rewrite (__init___header target info header); [done..|].
  apply file_at_Some. exists q. split; [by apply walk_insert_fresh|].
  apply lookup_insert_eq.
Qed.

Lemma create_failure_is_atomic_witness :
  example_fs = example_fs.
Proof.
  apply (create_failure_is_atomic (py "my_test_table") [py "tmp"] example_info
           example_fs FileExistsError example_fs).
  by_compute.
Defined.

Lemma walk_insert_fresh_inv fs q d cur comps q' :
  fs !! q = None →
  walk (<[q := File d]> fs) cur comps = Ok q' →
  walk fs cur comps = Ok q'.
Proof.
  intros Hq. revert cur. induction comps as [|c rest IH]; intros cur; [done|].
  cbn [walk]. destruct (decide (cur = q)) as [->|Hne].
  - by rewrite lookup_insert_eq.
  - rewrite lookup_insert_ne by done. destruct (fs !! cur) as [[]|]; auto.
Qed.

(** X19. A successful [create] adds one file and touches nothing else: the
    path of the new table led nowhere before and leads to a file that holds
    the serialized header after; the file system after is the one before
    with that one entry more, so that every other file has the content it
    had, every directory is one that was there, and nothing else has
    appeared. *)
Theorem create_adds_one_file name location info fs t fs' :
  Table.create name location info fs = (Ok t, fs') →
  ∃ header q,
    _serialize_header info = Ok header
    ∧ walk fs [] (Table._location t) = Ok q
    ∧ fs !! q = None
    ∧ fs' = <[q := File header]> fs
    ∧ file_at fs (Table._location t) = None
    ∧ is_dir fs (Table._location t) = false
    ∧ file_at fs' (Table._location t) = Some header
    ∧ (∀ p data, file_at fs p = Some data → file_at fs' p = Some data)
    ∧ (∀ p data, file_at fs' p = Some data →
         file_at fs p = Some data ∨ walk fs [] p = Ok q ∧ data = header)
    ∧ (∀ p, is_dir fs' p = is_dir fs p).
Proof.
  intros (quoted & header & q & _ & _ & Hs & Hw & Hq & -> & -> & Hfile)%create_Ok.
  cbn [Table._location]. exists header, q.
  unfold file_at at 1, is_dir at 1. rewrite Hw, Hq.
  repeat split; try done.
  - intros p data H.
    destruct (file_at_grow fs q [] header p data) as (more & Hm & Hn); [by right|done|].
    cbn [app] in Hm. rewrite Hm. f_equal.
    rewrite Hn; [by rewrite app_nil_r|]. apply file_at_Some in H as (q' & Hw' & Hq').
    rewrite Hw'. intros [= ->]. congruence.
  - intros p data (q' & Hw' & Hq')%file_at_Some.
    apply (walk_insert_fresh_inv _ _ _ _ _ _ Hq) in Hw'.
    destruct (decide (q' = q)) as [->|Hne].
    + rewrite lookup_insert_eq in Hq'. injection Hq' as <-. by right.
    + rewrite lookup_insert_ne in Hq' by done. left. apply file_at_Some. eauto.
  - intros p. destruct (is_dir fs p) eqn:Hd.
    + apply (is_dir_grow fs q [] header); [by right | done].
    + unfold is_dir in *.
      destruct (walk (<[q:=File header]> fs) [] p) as [q'|] eqn:Hw'; [|done].
      apply (walk_insert_fresh_inv _ _ _ _ _ _ Hq) in Hw'. rewrite Hw' in Hd.
      destruct (decide (q' = q)) as [->|Hne].
      * by rewrite lookup_insert_eq.
      * by rewrite lookup_insert_ne.
Qed.

Lemma create_adds_one_file_witness :
  ∃ header q,
    _serialize_header example_info = Ok header
    ∧ walk example_root [] (Table._location example_table) = Ok q
    ∧ example_root !! q = None
    ∧ example_fs = <[q := File header]> example_root
    ∧ file_at example_root (Table._location example_table) = None
    ∧ is_dir example_root (Table._location example_table) = false
    ∧ file_at example_fs (Table._location example_table) = Some header
    ∧ (∀ p data, file_at example_root p = Some data → file_at example_fs p = Some data)
    ∧ (∀ p data, file_at example_fs p = Some data →
         file_at example_root p = Some data ∨ walk example_root [] p = Ok q ∧ data = header)
    ∧ (∀ p, is_dir example_fs p = is_dir example_root p).
Proof.
  apply (create_adds_one_file (py "my_test_table") [py "tmp"] example_info).
  by_compute.
Defined.

(** X20. Creating a table where one of that name was created fails with
    [FileExistsError], whatever the schema, and changes nothing. *)
Theorem create_twice name location info info' fs t fs' :
  Table.create name location info fs = (Ok t, fs') →
  Table.create name location info' fs' = (Raise FileExistsError, fs').
Proof.
  intros (quoted & header & q & Hlen & Hquote & _ & Hw & Hq & -> & _ & Hfile)%create_Ok.
  unfold Table.create.
  destruct (Z.ltb_spec MAX_TABLE_NAME_LENGTH (len name)); [lia|].
  unfold mbind at 1, FS_bind at 1, fs_lift at 1. rewrite Hquote.
  unfold mbind at 1, FS_bind at 1, path_exists at 1.
  apply file_at_Some in Hfile as (q' & -> & Hq').
  by rewrite bool_decide_eq_true_2 by eauto.
Qed.

Lemma create_twice_witness :
  Table.create (py "my_test_table") [py "tmp"] (mkTableInfo []) example_fs
  = (Raise FileExistsError, example_fs).
Proof.
  apply (create_twice (py "my_test_table") [py "tmp"] example_info (mkTableInfo [])
           example_root example_table).
  by_compute.
Defined.

(** ** Opening a table again *)

Lemma readline_app body more :
  10 ∉ body → readline ((body ++ [10]) ++ more) = body ++ [10].
Proof.
  induction body as [|b body IH]; [done|]. intros [Hb Hn]%not_elem_of_cons.
  cbn [app readline]. destruct (Z.eqb_spec b 10); [congruence|]. by rewrite IH.
Qed.

Lemma readline_no_line_feed data : 10 ∉ data → readline data = data.
Proof.
  induction data as [|b data IH]; [done|]. intros [Hb Hn]%not_elem_of_cons.
  cbn [readline]. destruct (Z.eqb_spec b 10); [congruence|]. by rewrite IH.
Qed.

(** Opening a file that begins with a serialized header. *)
Lemma __init___prefix location info header more fs :
  _serialize_header info = Ok header →
  file_at fs location = Some (header ++ more) →
  Table.__init__ location fs
  = (Ok (Table.mk location (unquote_plus (path_name location)) info (len header)), fs).
Proof.
  intros Hs (q & Hw & Hq)%file_at_Some.
  assert (readline (header ++ more) = header) as Hline.
  { assert (text_names info = true) as H.
    { unfold _serialize_header in Hs. apply bind_Ok in Hs as (text & Hd & _).
      by eapply model_dump_json_Ok. }
    destruct (_serialize_header_text _ H) as (body & _ & _ & Hb & Hs').
    rewrite Hs' in Hs. injection Hs as <-. by apply readline_app. }
  unfold Table.__init__, mbind, FS_bind, open_rb, fs_lift. rewrite Hw, Hq, Hline.
  by rewrite (_deserialize_serialize_header _ _ Hs).
Qed.

(** Whatever is inserted, into whatever tables, a file keeps what it
    held. *)
Lemma insert_each_appends inserts fs outcomes fs' p data :
  file_at fs p = Some data →
  insert_each inserts fs = (outcomes, fs') →
  ∃ more, file_at fs' p = Some (data ++ more).
Proof.
  revert fs data outcomes. induction inserts as [|[table row] inserts IH];
    intros fs data outcomes Hfile H.
  - injection H as _ <-. exists []. by rewrite app_nil_r.
  - cbn [insert_each] in H.
    destruct (Table.insert table row fs) as [r1 fs1] eqn:Hi.
    destruct (insert_each inserts fs1) as [outcomes1 fs2] eqn:He.
    injection H as _ <-.
    assert (∃ more, file_at fs1 p = Some (data ++ more)) as [more1 Hfile1].
    { apply insert_effect in Hi as [->|(q & old & new & Hw & Hq & ->)].
      - exists []. by rewrite app_nil_r.
      - destruct (file_at_grow _ _ _ new _ _ Hq Hfile) as (more & Hm & _). eauto. }
    destruct (IH _ _ _ Hfile1 He) as [more Hm]. exists (more1 ++ more).
    by rewrite app_assoc.
Qed.

(** X21. The handle of a table does not depend on the rows: after [create]
    and any inserts, into this table or any other, each of which may have
    succeeded or raised, opening the file again gives the handle that
    [create] returned. *)
Theorem reopen_after_inserts name location info fs t fs1 inserts outcomes fs2 :
  Table.create name location info fs = (Ok t, fs1) →
  insert_each inserts fs1 = (outcomes, fs2) →
  Table.__init__ (Table._location t) fs2 = (Ok t, fs2).
Proof.
  intros (quoted & header & q & _ & _ & Hs & _ & _ & _ & -> & Hfile)%create_Ok Hi.
  destruct (insert_each_appends _ _ _ _ _ _ Hfile Hi) as [more Hm].
  by apply (__init___prefix _ _ _ more).
Qed.

Lemma reopen_after_inserts_witness :
  let inserts := [(example_table, oversized_row); (example_table, nul_row)] in
  let fs2 := (insert_each inserts example_fs).2 in
  Table.__init__ (Table._location example_table) fs2 = (Ok example_table, fs2).
Proof.
  intros inserts fs2.
  apply (reopen_after_inserts (py "my_test_table") [py "tmp"] example_info
           example_root example_table example_fs inserts
           [Raise AssertionError; Ok tt] fs2); by_compute.
Defined.

(** X22. A file that holds no line feed, an empty file among them, is not
    opened as a table: [Table(location)] fails with [AssertionError]; and a
    directory is refused with [IsADirectoryError]. *)
Theorem reopen_failures location fs :
  (∀ data, file_at fs location = Some data → (10 ∉ data) →
           Table.__init__ location fs = (Raise AssertionError, fs))
  ∧ (is_dir fs location = true →
     Table.__init__ location fs = (Raise IsADirectoryError, fs)).
Proof.
  split.
  - intros data (q & Hw & Hq)%file_at_Some Hn.
    unfold Table.__init__, mbind, FS_bind, open_rb, fs_lift. rewrite Hw, Hq.
    rewrite (readline_no_line_feed _ Hn). unfold _deserialize_header, endswith.
    rewrite bool_decide_eq_false_2; [done|].
    intros Hl. apply Hn. apply list_elem_of_In.
    destruct data as [|b data] using rev_ind; [done|].
    rewrite last_snoc in Hl. injection Hl as ->. apply in_app_iff. right. by left.
  - unfold is_dir. intros H.
    unfold Table.__init__, mbind, FS_bind, open_rb.
    destruct (walk fs [] location) as [q|]; [|done].
    by destruct (fs !! q) as [[]|].
Qed.

Lemma reopen_failures_witness :
  Table.__init__ [py "tmp"; py "t"] (<[ [py "tmp"; py "t"] := File [] ]> example_root)
  = (Raise AssertionError, <[ [py "tmp"; py "t"] := File [] ]> example_root).
Proof.
  apply (proj1 (reopen_failures [py "tmp"; py "t"]
                  (<[ [py "tmp"; py "t"] := File [] ]> example_root)) []);
    by_compute.
Defined.

(** ** When the file is not what the handle expects *)

Lemma walk_exn fs cur p e :
  walk fs cur p = Raise e → e = FileNotFoundError ∨ e = NotADirectoryError.
Proof.
  revert cur. induction p as [|c p IH]; intros cur; [done|]. cbn [walk].
  destruct (fs !! cur) as [[]|]; [intros [= <-]; by right | apply IH | intros [= <-]; by left].
Qed.

(** X23. When the path of the table leads to nothing, [length], a query of
    known columns and opening the table all fail with the same exception,
    [FileNotFoundError] or, below something that is no directory,
    [NotADirectoryError]. *)
Theorem table_file_missing self (cols : list (list Z)) fs :
  file_at fs (Table._location self) = None →
  is_dir fs (Table._location self) = false →
  (∀ c, c ∈ cols → c ∈ name <$> columns (Table.info self)) →
  ∃ e, (e = FileNotFoundError ∨ e = NotADirectoryError)
       ∧ Table.length self fs = (Raise e, fs)
       ∧ Table.query self cols fs = (Raise e, fs)
       ∧ Table.__init__ (Table._location self) fs = (Raise e, fs).
Proof.
  unfold file_at, is_dir. intros Hf Hd Hcols.
  assert (∃ e, (e = FileNotFoundError ∨ e = NotADirectoryError)
               ∧ open_rb (Table._location self) fs = (Raise e, fs)
               ∧ st_size (Table._location self) fs = (Raise e, fs)) as (e & He & Ho & Hs).
  { unfold open_rb, st_size.
    destruct (walk fs [] (Table._location self)) as [q|e] eqn:Hw.
    - destruct (fs !! q) as [[]|]; try done. exists FileNotFoundError. eauto.
    - exists e. split; [by eapply walk_exn | done]. }
  exists e. split; [done|]. repeat split.
  - unfold Table.length, mbind, FS_bind. by rewrite Hs.
  - unfold Table.query. rewrite bool_decide_eq_true_2.
    + cbn [negb]. unfold mbind at 1, FS_bind at 1. by rewrite Ho.
    + apply difference_empty. intros c Hc. apply elem_of_list_to_set in Hc.
      apply elem_of_list_to_set. by apply Hcols.
  - unfold Table.__init__, mbind, FS_bind. by rewrite Ho.
Qed.

Lemma table_file_missing_witness :
  ∃ e, (e = FileNotFoundError ∨ e = NotADirectoryError)
       ∧ Table.length example_table example_root = (Raise e, example_root)
       ∧ Table.query example_table [py "age"] example_root = (Raise e, example_root)
       ∧ Table.__init__ (Table._location example_table) example_root
         = (Raise e, example_root).
Proof.
  apply (table_file_missing example_table [py "age"] example_root); try by_compute.
  intros c Hc. apply list_elem_of_In in Hc. destruct Hc as [<-|[]]. by_compute.
Defined.

(** X24. A table without columns has rows of no bytes, and its length
    cannot be taken: [length] fails with [ZeroDivisionError]. *)
Theorem length_without_columns self fs data :
  file_at fs (Table._location self) = Some data →
  columns (Table.info self) = [] →
  Table.length self fs = (Raise ZeroDivisionError, fs).
Proof.
  intros Hfile Hc. rewrite (length_eq _ _ _ Hfile).
  unfold row_length. by rewrite Hc.
Qed.

Lemma length_without_columns_witness :
  Table.length (Table.mk [py "tmp"; py "my_test_table"] (py "my_test_table")
                  (mkTableInfo []) 15) example_fs
  = (Raise ZeroDivisionError, example_fs).
Proof.
  apply (length_without_columns _ example_fs example_header); by_compute.
Defined.

(** ** Bytes after the last whole row *)

Lemma read_rows_before self cols rows stored pre tail k p :
  (∀ c, c ∈ cols → c ∈ name <$> columns (Table.info self)) →
  Forall2 (stored_as (Table.info self)) rows stored →
  len pre = Table._data_start self + k * row_length (Table.info self) →
  ∃ p',
    mapM (query_row self cols) (seqZ k (len stored))
      (mkIO (pre ++ concat stored ++ tail) p)
    = (Ok (record_of cols <$> rows), mkIO (pre ++ concat stored ++ tail) p').
Proof.
  intros Hcols Hst. revert pre k p.
  induction Hst as [|inserted row rows stored Hrow _ IH]; intros pre k p Hpre.
  - exists p. done.
  - cbn [concat].
    destruct (_deserialize_row_stored _ _ _ pre (concat stored ++ tail) Hrow cols p Hcols)
      as [p1 Hr].
    destruct (IH (pre ++ row) (k + 1) p1) as [p' Hrest].
    { rewrite len_app, Hpre, (_serialize_row_len _ _ _ Hrow). lia. }
    exists p'. rewrite seqZ_cons by (unfold len; cbn [length]; lia).
    replace (Z.pred (len (row :: stored))) with (len stored)
      by (unfold len; cbn [length]; lia).
    replace (Z.succ k) with (k + 1) by lia.
    rewrite IO_mapM_cons. unfold query_row at 1.
    unfold mbind at 1, IO_bind at 1. rewrite <- (app_assoc row), <- Hpre, Hr.
    unfold io_lift. rewrite zip_strict_fmap. cbn [fmap result_fmap].
    rewrite <- app_assoc in Hrest. rewrite Hrest. done.
Qed.

(** X25. Bytes after the last whole row, fewer than a row has, are not
    seen: [length] counts the whole rows, and a query returns their records
    and nothing for the rest. *)
Theorem partial_row_is_ignored self (cols : list (list Z)) fs header rows stored tail :
  Table._data_start self = len header →
  file_at fs (Table._location self) = Some (header ++ concat stored ++ tail) →
  Forall2 (stored_as (Table.info self)) rows stored →
  len tail < row_length (Table.info self) →
  cols ≠ [] → (∀ c, c ∈ cols → c ∈ name <$> columns (Table.info self)) →
  Table.length self fs = (Ok (len rows), fs)
  ∧ Table.query self cols fs = (Ok (record_of cols <$> rows), fs).
Proof.
  intros Hstart Hfile Hst Htail _ Hcols.
  destruct (len_concat_stored _ _ _ Hst) as [Hlen Hn].
  pose proof (len_nonneg tail) as Ht.
  assert (Table.length self fs = (Ok (len rows), fs)) as Hlength.
  { rewrite (length_eq _ _ _ Hfile). unfold floordiv, fs_lift.
    destruct (Z.eqb_spec (row_length (Table.info self)) 0); [lia|].
    rewrite !len_app, Hstart, Hlen. do 3 f_equal.
    replace (len header + (len rows * row_length (Table.info self) + len tail) - len header)
      with (len tail + len rows * row_length (Table.info self)) by lia.
    rewrite Z.div_add by lia. rewrite Z.div_small by lia. lia. }
  split; [done|].
  unfold Table.query. rewrite bool_decide_eq_true_2.
  2:{ apply difference_empty. intros c Hc. apply elem_of_list_to_set in Hc.
      apply elem_of_list_to_set. by apply Hcols. }
  cbn [negb]. apply file_at_Some in Hfile as (q & Hw & Hq).
  unfold mbind at 1, FS_bind at 1, open_rb at 1. rewrite Hw, Hq.
  unfold mbind at 1, FS_bind at 1. rewrite Hlength.
  destruct (read_rows_before self cols rows stored header tail 0
              (pos (seek (Table._data_start self)
                      (BytesIO (header ++ concat stored ++ tail))))
              Hcols Hst) as [p' Hrows]; [lia|].
  unfold range. rewrite <- Hn. unfold query_row in Hrows.
  unfold seek, BytesIO in *. cbn [content pos] in *.
  rewrite Hrows. cbn [fst].
  unfold mbind at 1, FS_bind at 1, fs_lift at 1.
  unfold mbind at 1, FS_bind at 1. rewrite Hlength.
  unfold mbind at 1, FS_bind at 1, fs_lift at 1.
  replace (len (record_of cols <$> rows) =? len rows) with true; [done|].
  symmetry. apply Z.eqb_eq. unfold len. by rewrite length_fmap.
Qed.

Lemma partial_row_is_ignored_witness :
  let row := [(py "name", VStr (py "a")); (py "age", VInt 1)] in
  let fs := <[ [py "tmp"; py "my_test_table"] :=
                 File (example_header ++ concat [zeros 15 ++ py "a" ++ zeros 7 ++ [1]]
                         ++ [0; 0; 7]) ]> example_root in
  Table.length example_table fs = (Ok (len [row]), fs)
  ∧ Table.query example_table [py "age"] fs = (Ok (record_of [py "age"] <$> [row]), fs).
Proof.
  intros row fs.
  apply (partial_row_is_ignored example_table [py "age"] fs example_header [row]
           [zeros 15 ++ py "a" ++ zeros 7 ++ [1]] [0; 0; 7]); try by_compute.
  - constructor; [unfold stored_as; by_compute | constructor].
  - intros c Hc. apply list_elem_of_In in Hc. destruct Hc as [<-|[]]. by_compute.
Defined.

(** ** The file of a table *)

Lemma HEX_digit_safe d : 0 <= d < 16 → HEX_digit d ∈ _ALWAYS_SAFE.
Proof.
  intros Hd.
  assert (Forall (fun d => HEX_digit d ∈ _ALWAYS_SAFE) (seqZ 0 16)) as H by by_compute.
  rewrite Forall_forall in H. apply H. apply elem_of_seqZ. lia.
Qed.

Lemma quoter_chars safe b :
  0 <= b < 256 →
  Forall (fun c => c ∈ _ALWAYS_SAFE ++ safe ∨ c = 37) (quoter safe b)
  ∧ len (quoter safe b) <= 3.
Proof.
  intros Hb. unfold quoter. case_bool_decide as Hs.
  - split; [|by cbn]. rewrite Forall_singleton. by left.
  - split; [|by cbn]. rewrite !Forall_cons, Forall_nil.
    repeat split; [by right|left|left]; apply elem_of_app; left;
      apply HEX_digit_safe; Z.div_mod_to_equations; lia.
Qed.

Lemma quote_from_bytes_chars safe bs :
  Forall (fun b => 0 <= b < 256) bs →
  Forall (fun c => c ∈ _ALWAYS_SAFE ++ safe ∨ c = 37) (quote_from_bytes bs safe)
  ∧ len (quote_from_bytes bs safe) <= 3 * len bs.
Proof.
  unfold quote_from_bytes. induction 1 as [|b bs Hb _ [IH1 IH2]]; [by split|].
  cbn [flat_map]. destruct (quoter_chars safe b Hb) as [H1 H2].
  split; [by apply Forall_app|]. rewrite len_app.
  unfold len in *. cbn [length]. lia.
Qed.

Lemma len_utf8_encode_char c cs : utf8_encode_char c = Ok cs → len cs <= 4.
Proof.
  unfold utf8_encode_char. intros H.
  repeat match type of H with
         | context [if ?b then _ else _] => destruct b
         end; try discriminate; injection H as <-; by cbn.
Qed.

Lemma len_str_encode s bs : str_encode s = Ok bs → len bs <= 4 * len s.
Proof.
  revert bs. induction s as [|c s IH]; intros bs H.
  - by injection H as <-.
  - cbn [str_encode] in H. apply bind_Ok in H as (cs & Hc & H).
    apply bind_Ok in H as (rest & Hr & [= <-]).
    rewrite len_app. pose proof (len_utf8_encode_char _ _ Hc). specialize (IH _ Hr).
    unfold len in *. cbn [length]. lia.
Qed.

(** The characters [quote_plus] writes. *)
Lemma quote_plus_chars s q :
  quote_plus s = Ok q →
  Forall (fun c => c ∈ _ALWAYS_SAFE ++ py "+%") q ∧ len q <= 12 * len s.
Proof.
  unfold quote_plus. intros H. case_bool_decide as Hsp.
  - apply quote_Ok in H as (bs & Hb & ->).
    destruct (quote_from_bytes_chars [] bs (str_encode_bytes _ _ Hb)) as [H1 H2].
    pose proof (len_str_encode _ _ Hb). split; [|unfold quote_from_bytes in H2; lia].
    eapply Forall_impl; [exact H1|]. intros c [Hc| ->].
    + rewrite app_nil_r in Hc. apply elem_of_app. by left.
    + by_compute.
  - apply fmap_Ok in H as (q' & H & ->). apply quote_Ok in H as (bs & Hb & ->).
    destruct (quote_from_bytes_chars [32] bs (str_encode_bytes _ _ Hb)) as [H1 H2].
    pose proof (len_str_encode _ _ Hb).
    split; [|unfold replace_char, len in *; rewrite length_fmap;
             unfold quote_from_bytes in H2; lia].
    unfold replace_char. apply Forall_fmap. eapply Forall_impl; [exact H1|].
    intros c Hc. unfold compose. destruct (Z.eqb_spec c 32) as [->|Hne]; [by_compute|].
    destruct Hc as [Hc| ->]; [|by_compute].
    apply elem_of_app in Hc as [Hc|Hc%list_elem_of_singleton]; [|done].
    apply elem_of_app. by left.
Qed.

(** X26. The file of a created table is named by the quoted table name,
    which is written with ASCII letters, digits and [_.-~+%] only, so with no
    path separator and no NUL, in at most twelve characters for each
    character of the name; unquoting the file name gives the name back. *)
Theorem table_file_name name location info fs t fs' :
  Table.create name location info fs = (Ok t, fs') →
  ∃ quoted,
    Table._location t = joinpath location quoted
    ∧ Forall (fun c => c ∈ _ALWAYS_SAFE ++ py "+%") quoted
    ∧ (47 ∉ quoted) ∧ (0 ∉ quoted)
    ∧ len quoted <= 12 * len name
    ∧ unquote_plus quoted = name.
Proof.
  intros (quoted & header & q & _ & Hquote & _ & _ & _ & _ & -> & _)%create_Ok.
  exists quoted. destruct (quote_plus_chars _ _ Hquote) as [Hchars Hlen].
  split; [done|]. split; [done|].
  assert (∀ c, c ∉ _ALWAYS_SAFE ++ py "+%" → c ∉ quoted) as Hno.
  { intros c Hc Hin. rewrite Forall_forall in Hchars. by apply Hc, Hchars. }
  split; [apply Hno; by_compute|]. split; [apply Hno; by_compute|].
  split; [done|]. by apply unquote_quote_plus.
Qed.

Lemma table_file_name_witness :
  ∃ quoted,
    Table._location example_table = joinpath [py "tmp"] quoted
    ∧ Forall (fun c => c ∈ _ALWAYS_SAFE ++ py "+%") quoted
    ∧ (47 ∉ quoted) ∧ (0 ∉ quoted)
    ∧ len quoted <= 12 * len (py "my_test_table")
    ∧ unquote_plus quoted = py "my_test_table".
Proof.
  apply (table_file_name (py "my_test_table") [py "tmp"] example_info example_root
           example_table example_fs).
  by_compute.
Defined.

(** ** Two tables *)

Lemma insert_on_file self inserted fs q data :
  walk fs [] (Table._location self) = Ok q → fs !! q = Some (File data) →
  Table.insert self inserted fs
  = match row_to_append self inserted with
    | Ok new => (Ok tt, <[q := File (data ++ new)]> fs)
    | Raise e => (Raise e, fs)
    end.
Proof.
  intros Hw Hq. unfold Table.insert, row_to_append.
  destruct (negb _); [done|]. destruct (negb _); [done|].
  unfold mbind, FS_bind, open_ab, fs_lift, append. rewrite Hw, Hq.
  destruct (_serialize_row _ _); [|done]. by rewrite Hq.
Qed.

Lemma insert_each_cons table row rest fs :
  (insert_each ((table, row) :: rest) fs).2
  = (insert_each rest (Table.insert table row fs).2).2.
Proof.
  cbn [insert_each]. destruct (Table.insert table row fs) as [r fs1]. cbn [snd].
  by destruct (insert_each rest fs1).
Qed.

(** Inserts into two tables with different files: the file of one is what
    its own inserts alone make of it. *)
Lemma insert_each_alone (self other : Table.t) qs qo
    (inserts : list (Table.t * list (list Z * value))) :
  qs ≠ qo → self ≠ other →
  (∀ op, op ∈ inserts → op.1 = self ∨ op.1 = other) →
  ∀ fsA fsB ds do,
    walk fsA [] (Table._location self) = Ok qs → fsA !! qs = Some (File ds) →
    walk fsA [] (Table._location other) = Ok qo → fsA !! qo = Some (File do) →
    walk fsB [] (Table._location self) = Ok qs → fsB !! qs = Some (File ds) →
    ∃ ds',
      walk (insert_each inserts fsA).2 [] (Table._location self) = Ok qs
      ∧ (insert_each inserts fsA).2 !! qs = Some (File ds')
      ∧ walk (insert_each (filter (fun op => op.1 = self) inserts) fsB).2 []
          (Table._location self) = Ok qs
      ∧ (insert_each (filter (fun op => op.1 = self) inserts) fsB).2 !! qs
        = Some (File ds').
Proof.
  intros Hq Hne. induction inserts as [|[table row] inserts IH];
    intros Hops fsA fsB ds do HwA HqA HwoA HqoA HwB HqB.
  - exists ds. done.
  - assert (∀ op, op ∈ inserts → op.1 = self ∨ op.1 = other) as Hops'
      by (intros op Hop; apply Hops; by right).
    rewrite insert_each_cons, filter_cons. cbn [fst].
    destruct (Hops (table, row)) as [E|E]; [by left| |]; cbn [fst] in E; subst table.
    + rewrite decide_True by done. rewrite insert_each_cons.
      rewrite (insert_on_file _ _ _ _ _ HwA HqA), (insert_on_file _ _ _ _ _ HwB HqB).
      destruct (row_to_append self row) as [new|e]; cbn [snd].
      * apply (IH Hops' _ _ (ds ++ new) do).
        -- by rewrite (walk_insert_file _ _ _ _ _ _ HqA).
        -- apply lookup_insert_eq.
        -- by rewrite (walk_insert_file _ _ _ _ _ _ HqA).
        -- by rewrite lookup_insert_ne.
        -- by rewrite (walk_insert_file _ _ _ _ _ _ HqB).
        -- apply lookup_insert_eq.
      * by apply (IH Hops' _ _ ds do).
    + rewrite decide_False by (by apply not_eq_sym).
      rewrite (insert_on_file _ _ _ _ _ HwoA HqoA).
      destruct (row_to_append other row) as [new|e]; cbn [snd].
      * apply (IH Hops' _ _ ds (do ++ new)); try done.
        -- by rewrite (walk_insert_file _ _ _ _ _ _ HqoA).
        -- by rewrite lookup_insert_ne by (by apply not_eq_sym).
        -- by rewrite (walk_insert_file _ _ _ _ _ _ HqoA).
        -- apply lookup_insert_eq.
      * by apply (IH Hops' _ _ ds do).
Qed.

Lemma agree_bind {A B} fs fs' (m : FS A) (f : A → FS B) :
  agree fs fs' m → (∀ a, agree fs fs' (f a)) → agree fs fs' (m ≫= f).
Proof.
  intros (H1 & H2 & H3) Hf. unfold agree, mbind, FS_bind.
  destruct (m fs') as [r' fs1'], (m fs) as [r fs1]. cbn [fst snd] in *. subst.
  destruct r as [a|e]; [apply Hf | done].
Qed.

Lemma agree_lift {A} fs fs' (r : result A) : agree fs fs' (fs_lift r).
Proof. done. Qed.

Lemma agree_ret {A} fs fs' (a : A) : agree fs fs' (mret a).
Proof. done. Qed.

Lemma agree_raise {A} fs fs' e : agree fs fs' (raise (A := A) e).
Proof. done. Qed.

(** [length] and [query] see the file of the table and nothing else. *)
Lemma length_query_file self (cols : list (list Z)) fs fs' :
  walk fs' [] (Table._location self) = walk fs [] (Table._location self) →
  (∀ q, walk fs [] (Table._location self) = Ok q → fs' !! q = fs !! q) →
  (Table.length self fs').1 = (Table.length self fs).1
  ∧ (Table.query self cols fs').1 = (Table.query self cols fs).1.
Proof.
  intros Hw Hq.
  assert (agree fs fs' (open_rb (Table._location self))) as Hopen.
  { unfold agree, open_rb. rewrite Hw.
    destruct (walk fs [] (Table._location self)) as [q|]; [|done].
    rewrite (Hq q eq_refl). by destruct (fs !! q) as [[data|]|]. }
  assert (agree fs fs' (st_size (Table._location self))) as Hsize.
  { unfold agree, st_size. rewrite Hw.
    destruct (walk fs [] (Table._location self)) as [q|]; [|done].
    rewrite (Hq q eq_refl). by destruct (fs !! q) as [[data|]|]. }
  assert (agree fs fs' (Table.length self)) as Hlen.
  { unfold Table.length. apply agree_bind; [done|]. intros size. apply agree_lift. }
  split; [apply Hlen|].
  enough (agree fs fs' (Table.query self cols)) as H by apply H.
  unfold Table.query. destruct (negb _); [apply agree_raise|].
  repeat first [ apply agree_bind; [|intros ?] | done | apply agree_lift | apply agree_ret ].
Qed.

(** X27. Two tables that were created one after the other have different
    files. However inserts into the two are interleaved, and whether they
    succeed or raise, each table is left as its own inserts alone would have
    left it: the same file, the same length and the same result of a query.
    So inserting into one changes nothing of the other. *)
Theorem tables_do_not_interfere name1 location1 info1 name2 location2 info2
    fs t1 fs1 t2 fs2 :
  Table.create name1 location1 info1 fs = (Ok t1, fs1) →
  Table.create name2 location2 info2 fs1 = (Ok t2, fs2) →
  Table._location t1 ≠ Table._location t2
  ∧ (∃ q1 q2 header1 header2,
       walk fs2 [] (Table._location t1) = Ok q1
       ∧ walk fs2 [] (Table._location t2) = Ok q2
       ∧ q1 ≠ q2
       ∧ fs2 !! q1 = Some (File header1) ∧ fs2 !! q2 = Some (File header2))
  ∧ ∀ (inserts : list (Table.t * list (list Z * value))) (self : Table.t)
      (cols : list (list Z)),
      (∀ op, op ∈ inserts → op.1 = t1 ∨ op.1 = t2) →
      self = t1 ∨ self = t2 →
      let fs3 := (insert_each inserts fs2).2 in
      let alone := (insert_each (filter (fun op => op.1 = self) inserts) fs2).2 in
      file_at fs3 (Table._location self) = file_at alone (Table._location self)
      ∧ (Table.length self fs3).1 = (Table.length self alone).1
      ∧ (Table.query self cols fs3).1 = (Table.query self cols alone).1.
Proof.
  intros H1 H2.
  destruct (create_Ok _ _ _ _ _ _ H1) as
    (quoted1 & header1 & q1 & _ & _ & _ & Hw1 & Hq1 & -> & Ht1 & Hfile1).
  destruct (create_Ok _ _ _ _ _ _ H2) as
    (quoted2 & header2 & q2 & _ & _ & _ & Hw2 & Hq2 & -> & Ht2 & Hfile2).
  set (loc1 := joinpath location1 quoted1) in *.
  set (loc2 := joinpath location2 quoted2) in *.
  assert (Table._location t1 = loc1) as Hl1 by (by rewrite Ht1).
  assert (Table._location t2 = loc2) as Hl2 by (by rewrite Ht2).
  set (fs1 := <[q1 := File header1]> fs) in *.
  set (fs2 := <[q2 := File header2]> fs1) in *.
  assert (walk fs1 [] loc1 = Ok q1) as Hw11 by (by apply walk_insert_fresh).
  assert (fs1 !! q1 = Some (File header1)) as Hq11 by apply lookup_insert_eq.
  assert (q1 ≠ q2) as Hne by congruence.
  assert (loc1 ≠ loc2) as Hloc by (intros E; rewrite E in Hw11; congruence).
  assert (walk fs2 [] loc1 = Ok q1) as Hw21 by (by apply walk_insert_fresh).
  assert (walk fs2 [] loc2 = Ok q2) as Hw22 by (by apply walk_insert_fresh).
  assert (fs2 !! q1 = Some (File header1)) as Hq21
    by (unfold fs2; by rewrite lookup_insert_ne).
  assert (fs2 !! q2 = Some (File header2)) as Hq22 by apply lookup_insert_eq.
  assert (t1 ≠ t2) as Ht by (intros E; apply Hloc; by rewrite <- Hl1, <- Hl2, E).
  clearbody fs1 fs2. clear H1 H2.
  split; [by rewrite Hl1, Hl2|]. split; [rewrite Hl1, Hl2; eauto 10|].
  assert (∀ (self other : Table.t) qs qo hs ho
            (inserts : list (Table.t * list (list Z * value))) (cols : list (list Z)),
            qs ≠ qo → self ≠ other →
            walk fs2 [] (Table._location self) = Ok qs → fs2 !! qs = Some (File hs) →
            walk fs2 [] (Table._location other) = Ok qo → fs2 !! qo = Some (File ho) →
            (∀ op, op ∈ inserts → op.1 = self ∨ op.1 = other) →
            let fs3 := (insert_each inserts fs2).2 in
            let alone := (insert_each (filter (fun op => op.1 = self) inserts) fs2).2 in
            file_at fs3 (Table._location self) = file_at alone (Table._location self)
            ∧ (Table.length self fs3).1 = (Table.length self alone).1
            ∧ (Table.query self cols fs3).1 = (Table.query self cols alone).1) as Hgen.
  { intros self other qs qo hs ho inserts cols Hq Hso Hws Hqs Hwo Hqo Hops fs3 alone.
    destruct (insert_each_alone self other qs qo inserts Hq Hso Hops fs2 fs2 hs ho
                Hws Hqs Hwo Hqo Hws Hqs) as (ds' & HwA & HqA & HwB & HqB).
    fold fs3 in HwA, HqA. fold alone in HwB, HqB. split.
    - unfold file_at. by rewrite HwA, HwB, HqA, HqB.
    - apply length_query_file; [congruence|].
      intros q. rewrite HwB. intros [= <-]. congruence. }
  intros inserts self cols Hops [-> | ->].
  - apply (Hgen t1 t2 q1 q2 header1 header2 inserts cols Hne Ht);
      [by rewrite Hl1 | done | by rewrite Hl2 | done | done].
  - apply (Hgen t2 t1 q2 q1 header2 header1 inserts cols
             (not_eq_sym Hne) (not_eq_sym Ht));
      [by rewrite Hl2 | done | by rewrite Hl1 | done |].
    intros op Hop. destruct (Hops op Hop); auto.
Qed.

Lemma tables_do_not_interfere_witness :
  let t2 := Table.mk [py "tmp"; py "other"] (py "other") example_info 86 in
  let fs2 := <[ [py "tmp"; py "other"] := File example_header ]> example_fs in
  Table._location example_table ≠ Table._location t2
  ∧ (∃ q1 q2 header1 header2,
       walk fs2 [] (Table._location example_table) = Ok q1
       ∧ walk fs2 [] (Table._location t2) = Ok q2
       ∧ q1 ≠ q2
       ∧ fs2 !! q1 = Some (File header1) ∧ fs2 !! q2 = Some (File header2))
  ∧ ∀ (inserts : list (Table.t * list (list Z * value))) (self : Table.t)
      (cols : list (list Z)),
      (∀ op, op ∈ inserts → op.1 = example_table ∨ op.1 = t2) →
      self = example_table ∨ self = t2 →
      let fs3 := (insert_each inserts fs2).2 in
      let alone := (insert_each (filter (fun op => op.1 = self) inserts) fs2).2 in
      file_at fs3 (Table._location self) = file_at alone (Table._location self)
      ∧ (Table.length self fs3).1 = (Table.length self alone).1
      ∧ (Table.query self cols fs3).1 = (Table.query self cols alone).1.
Proof.
  intros t2 fs2.
  apply (tables_do_not_interfere (py "my_test_table") [py "tmp"] example_info
           (py "other") [py "tmp"] example_info example_root example_table example_fs
           t2 fs2); by_compute.
Defined.

(** The interleaving at work: a row for each table, with one that is refused
    between them. *)
Example two_tables_scenario :
  let t2 := Table.mk [py "tmp"; py "other"] (py "other") example_info 86 in
  let fs2 := <[ [py "tmp"; py "other"] := File example_header ]> example_fs in
  let inserts := [(t2, nul_row); (example_table, oversized_row);
                  (example_table, nul_row)] in
  (insert_each inserts fs2).1 = [Ok tt; Raise AssertionError; Ok tt]
  ∧ (Table.length example_table (insert_each inserts fs2).2).1 = Ok 1
  ∧ (Table.length t2 (insert_each inserts fs2).2).1 = Ok 1.
Proof. repeat split; by_compute. Qed.

(** ** What can be raised *)

Lemma _serialize_value_raises datatype v e :
  _serialize_value datatype v = Raise e →
  e = ValueError ∨ e = UnicodeEncodeError ∨ e = OverflowError
  ∨ (e = AssertionError
     ∧ ∃ s encoded, v = VStr s ∧ str_encode s = Ok encoded ∧ 16 < len encoded).
Proof.
  destruct datatype, v as [s|n|]; try (intros [= <-]; by left).
  - destruct (str_encode s) as [encoded|e'] eqn:He.
    + rewrite (_serialize_value_STRING _ _ He).
      destruct (Z.leb_spec (len encoded) 16); [done|]. intros [= <-].
      right; right; right. split; [done|]. eauto.
    + unfold _serialize_value. rewrite He. cbn. intros [= <-].
      apply str_encode_exn in He. right; by left.
  - rewrite _serialize_value_INTEGER. destruct (_ && _); [done|].
    intros [= <-]. right; right; by left.
Qed.

Lemma mapping_lookup_None {V} (l : list (list Z * V)) (k : list Z) :
  mapping l !! k = None ↔ k ∉ fst <$> l.
Proof.
  rewrite mapping_list_to_map, <- not_elem_of_list_to_map, fmap_reverse.
  by rewrite elem_of_reverse.
Qed.

Lemma mapping_lookup_Some {V} (l : list (list Z * V)) (k : list Z) (v : V) :
  mapping l !! k = Some v → (k, v) ∈ l.
Proof.
  unfold mapping.
  assert (∀ (m : gmap (list Z) V),
            fold_left (fun d '(k, v) => <[k := v]> d) l m !! k = Some v →
            (k, v) ∈ l ∨ m !! k = Some v) as Hfold.
  { induction l as [|[k' v'] l IH]; intros m Hm; [by right|].
    cbn [fold_left] in Hm. destruct (IH _ Hm) as [Hin|Hl]; [left; by right|].
    destruct (decide (k' = k)) as [->|Hne].
    - rewrite lookup_insert_eq in Hl. injection Hl as ->. left. by left.
    - rewrite lookup_insert_ne in Hl by done. by right. }
  intros H. by destruct (Hfold _ H).
Qed.

(** The row codec, when every column has a value. *)
Lemma _serialize_row_raises (info : TableInfo) (values : gmap (list Z) value) e :
  (∀ col, col ∈ columns info → is_Some (values !! name col)) →
  _serialize_row info values = Raise e →
  ∃ col v, col ∈ columns info ∧ values !! name col = Some v
           ∧ _serialize_value (datatype col) v = Raise e.
Proof.
  intros Hall. unfold _serialize_row.
  destruct (mapM _ (columns info)) as [parts|e'] eqn:Hm.
  - assert (slots_of values (columns info) parts) as Hs.
    { clear Hall. revert parts Hm. induction (columns info) as [|col cols IH]; intros parts Hm.
      - injection Hm as <-. constructor.
      - rewrite mapM_result_cons in Hm. apply bind_Ok in Hm as (slot & Hs & Hm).
        apply bind_Ok in Hm as (parts' & Hp & [= <-]).
        apply bind_Ok in Hs as (v & Hv & Hs). unfold getitem in Hv.
        destruct (values !! name col) as [v'|] eqn:E; [|done]. injection Hv as ->.
        constructor; [eauto | by apply IH]. }
    cbn [mbind result_bind]. unfold row_length.
    by rewrite (slots_of_len _ _ _ Hs), Z.eqb_refl.
  - cbn [mbind result_bind]. intros [= <-]. revert e' Hm Hall.
    set (f := fun col : ColumnInfo =>
                v ← getitem values (name col); _serialize_value (datatype col) v).
    induction (columns info) as [|col cols IH]; intros e' Hm Hall; [done|].
    rewrite mapM_result_cons in Hm.
    destruct (Hall col) as [v Hv]; [by left|].
    assert (f col = _serialize_value (datatype col) v) as Hf
      by (unfold f, getitem; by rewrite Hv).
    rewrite Hf in Hm.
    destruct (_serialize_value (datatype col) v) as [slot|e''] eqn:Hs.
    + cbn [mbind result_bind] in Hm.
      destruct (mapM f cols) as [parts|e''] eqn:Hm'; [done|]. injection Hm as <-.
      destruct (IH e'' eq_refl) as (col' & v' & Hin & Hv' & Hs').
      { intros c Hc. apply Hall. by right. }
      exists col', v'. split; [by right | done].
    + injection Hm as <-. exists col, v. split; [by left | done].
Qed.

(** X28. What [insert] can raise: [ColumnDoesNotExist] and
    [NotImplementedError] from its own checks, the errors of opening the
    file, and what the value codec raises for a provided value. It never
    raises [KeyError], and the length assertion of the row never fails: an
    [AssertionError] is always a string of more than 16 bytes. *)
Theorem insert_exceptions self inserted fs e fs' :
  Table.insert self inserted fs = (Raise e, fs') →
  match e with
  | ColumnDoesNotExist _ | NotImplementedError
  | FileNotFoundError | NotADirectoryError | IsADirectoryError
  | ValueError | UnicodeEncodeError | OverflowError => True
  | AssertionError =>
      ∃ c s encoded, (c, VStr s) ∈ inserted ∧ str_encode s = Ok encoded
                     ∧ 16 < len encoded
  | _ => False
  end.
Proof.
  intros H.
  destruct (decide ((list_to_set inserted.*1 : gset (list Z))
                      ∖ column_names (Table.info self) = ∅)) as [H1|H1];
    [|rewrite insert_extra in H by done; by injection H as <-].
  destruct (decide (column_names (Table.info self)
                      ∖ (list_to_set inserted.*1 : gset (list Z)) = ∅)) as [H2|H2];
    [|rewrite insert_missing in H by done; by injection H as <-].
  unfold Table.insert in H. rewrite !bool_decide_eq_true_2 in H by done.
  cbn [negb] in H. revert H. apply difference_empty in H2.
  unfold mbind, FS_bind, open_ab, fs_lift, append.
  destruct (walk fs [] (Table._location self)) as [q|e'] eqn:Hw.
  2:{ intros [= <- _]. by destruct (walk_exn _ _ _ _ Hw) as [-> | ->]. }
  assert (∀ fs1 old, fs1 !! q = Some (File old) →
            match _serialize_row (Table.info self) (mapping inserted) with
            | Ok a => match fs1 !! q with
                      | Some (File old) => (Ok (), <[q:=File (old ++ a)]> fs1)
                      | _ => (Raise FileNotFoundError, fs1)
                      end
            | Raise e0 => (Raise e0, fs1)
            end = (Raise e, fs') →
            match e with
            | ColumnDoesNotExist _ | NotImplementedError
            | FileNotFoundError | NotADirectoryError | IsADirectoryError
            | ValueError | UnicodeEncodeError | OverflowError => True
            | AssertionError =>
                ∃ c s encoded, (c, VStr s) ∈ inserted ∧ str_encode s = Ok encoded
                               ∧ 16 < len encoded
            | _ => False
            end) as Hrow.
  { intros fs1 old Hq.
    destruct (_serialize_row _ _) as [row|e0] eqn:Hs; [by rewrite Hq|].
    intros [= <- _]. apply _serialize_row_raises in Hs as (col & v & Hcol & Hv & Hs).
    - apply _serialize_value_raises in Hs
        as [->|[->|[->|(-> & s & encoded & -> & He & Hlen)]]]; try done.
      exists (name col), s, encoded. split; [|done].
      by apply mapping_lookup_Some.
    - intros col Hcol. destruct (mapping inserted !! name col) eqn:E; [eauto|].
      apply mapping_lookup_None in E. destruct E.
      apply (elem_of_list_to_set (C := gset (list Z))). apply H2.
      apply elem_of_list_to_set. apply list_elem_of_fmap. eauto. }
  destruct (fs !! q) as [[old|]|] eqn:Hq.
  - by apply (Hrow fs old).
  - by intros [= <- _].
  - apply (Hrow _ []). apply lookup_insert_eq.
Qed.

Lemma insert_exceptions_witness :
  ∃ c s encoded, (c, VStr s) ∈ oversized_row ∧ str_encode s = Ok encoded
                 ∧ 16 < len encoded.
Proof.
  apply (insert_exceptions example_table oversized_row example_fs AssertionError
           example_fs).
  by_compute.
Defined.

(** ** What a query can raise *)

Lemma fmap_Raise {A B} (f : A → B) (m : result A) e :
  f <$> m = Raise e → m = Raise e.
Proof. destruct m; [done|]. by intros [= <-]. Qed.

Lemma bytes_decode_exn bs e :
  bytes_decode strict bs = Raise e → e = UnicodeDecodeError.
Proof.
  revert e. induction bs as [bs IH] using (induction_ltof1 _ (@length Z)).
  unfold ltof in IH. destruct bs as [|b0 r0]; intros e H; [done|].
  cbn [bytes_decode] in H. split_decoder H;
    first [ by injection H as <-
          | apply fmap_Raise in H; apply IH in H; [done | cbn [length]; lia] ].
Qed.

(** Reading a value changes the position of the file object only, and
    fails only where bytes do not decode. *)
Lemma _deserialize_value_outcome datatype fd :
  ∃ p', (∃ v, _deserialize_value datatype fd = (Ok v, mkIO (content fd) p'))
        ∨ _deserialize_value datatype fd = (Raise UnicodeDecodeError, mkIO (content fd) p').
Proof.
  unfold _deserialize_value, read. eexists. destruct datatype; [|left; eauto].
  destruct (bytes_decode strict _) as [s|e] eqn:E; [left; eauto|].
  apply bytes_decode_exn in E as ->. by right.
Qed.





Lemma query_row_eq self (cols : list (list Z)) (k : Z) fd :
  let start := Table._data_start self + k * row_length (Table.info self) in
  query_row self cols k fd
  = match mapM (fun col =>
                  offset ← io_lift (getitem (column_offsets (Table.info self)) col);
                  _ ← io_seek (start + offset);
                  info ← io_lift (getitem (columns_dict (Table.info self)) col);
                  _deserialize_value (datatype info))
               cols (mkIO (content fd) start) with
    | (Ok values, fd') => (dict <$> zip_strict cols values, fd')
    | (Raise e, fd') => (Raise e, fd')
    end.
Proof. reflexivity. Qed.





(** ** A column asked for twice *)

Lemma first_occurrences_from_elem seen cols c :
  c ∈ first_occurrences_from seen cols ↔ c ∈ cols ∧ c ∉ seen.
Proof.
  revert seen. induction cols as [|c' cols IH]; intros seen; cbn [first_occurrences_from].
  - rewrite !elem_of_nil. tauto.
  - case_bool_decide as Hs.
    + rewrite IH, elem_of_cons. split; [intros [? ?]; auto|].
      intros [[->|?] ?]; done.
    + rewrite !elem_of_cons, IH, elem_of_app, list_elem_of_singleton.
      split.
      * intros [->|[? Hn]]; [auto|]. split; [auto|]. intros ?. apply Hn. by left.
      * intros [[->|?] Hn]; [by left|].
        destruct (decide (c = c')) as [->|Hne]; [by left|right].
        split; [done|]. by intros [?|?].
Qed.

Lemma dict_set_present {V} (h : list Z → V) (acc : list (list Z)) (c : list Z) :
  c ∈ acc →
  dict_set ((fun c => (c, h c)) <$> acc) c (h c) = (fun c => (c, h c)) <$> acc.
Proof.
  induction acc as [|a acc IH]; [by intros ?%elem_of_nil|].
  intros Hc. rewrite fmap_cons. cbn [dict_set]. case_bool_decide as Ha; [by subst|].
  apply elem_of_cons in Hc as [->|Hc]; [done|]. by rewrite IH.
Qed.

Lemma dict_set_absent {V} (h : list Z → V) (acc : list (list Z)) (c : list Z) :
  c ∉ acc →
  dict_set ((fun c => (c, h c)) <$> acc) c (h c) = (fun c => (c, h c)) <$> (acc ++ [c]).
Proof.
  induction acc as [|a acc IH]; [done|].
  intros [Hne Hc]%not_elem_of_cons. rewrite fmap_cons. cbn [dict_set].
  rewrite bool_decide_eq_false_2 by done. by rewrite IH.
Qed.

(** A [dict] built from pairs whose value depends on the key only. *)
Lemma dict_first_occurrences {V} (h : list Z → V) (cols : list (list Z)) :
  dict ((fun c => (c, h c)) <$> cols) = (fun c => (c, h c)) <$> first_occurrences cols.
Proof.
  unfold dict, first_occurrences.
  enough (∀ acc, fold_left (fun d '(k, v) => dict_set d k v)
                   ((fun c => (c, h c)) <$> cols) ((fun c => (c, h c)) <$> acc)
                 = (fun c => (c, h c)) <$> (acc ++ first_occurrences_from acc cols)) as H
    by apply (H []).
  induction cols as [|c cols IH]; intros acc.
  - by rewrite app_nil_r.
  - rewrite fmap_cons. cbn [fold_left first_occurrences_from]. case_bool_decide as Hc.
    + by rewrite dict_set_present, IH.
    + rewrite dict_set_absent, IH by done. by rewrite <- app_assoc.
Qed.

Lemma mapM_result_fmap {A B} (g : A → result B) (h : A → B) (l : list A) ys :
  (∀ x y, g x = Ok y → h x = y) → mapM g l = Ok ys → ys = h <$> l.
Proof.
  intros Hh. revert ys. induction l as [|x l IH]; intros ys H.
  - by injection H as <-.
  - rewrite mapM_result_cons in H. apply bind_Ok in H as (y & Hy & H).
    apply bind_Ok in H as (k & Hk & [= <-]). rewrite fmap_cons.
    by rewrite (Hh _ _ Hy), (IH _ Hk).
Qed.

(** Leaving out what was read before does not change whether the reads
    succeed, nor the first exception. *)
Lemma mapM_first_occurrences {A} (g : list Z → result A) (seen cols : list (list Z)) :
  (∀ c, c ∈ seen → ∃ v, g c = Ok v) →
  match mapM g cols with
  | Ok _ => ∃ vs, mapM g (first_occurrences_from seen cols) = Ok vs
  | Raise e => mapM g (first_occurrences_from seen cols) = Raise e
  end.
Proof.
  revert seen. induction cols as [|c cols IH]; intros seen Hseen.
  - by exists [].
  - rewrite mapM_result_cons. cbn [first_occurrences_from]. case_bool_decide as Hc.
    + destruct (Hseen c Hc) as [v ->]. cbn [mbind result_bind].
      specialize (IH seen Hseen). by destruct (mapM g cols).
    + rewrite mapM_result_cons. destruct (g c) as [v|e] eqn:Hg; [|done].
      cbn [mbind result_bind].
      assert (∀ c', c' ∈ seen ++ [c] → ∃ v, g c' = Ok v) as Hseen'.
      { intros c' [?|E%list_elem_of_singleton]%elem_of_app; [eauto|]. subst. eauto. }
      specialize (IH (seen ++ [c]) Hseen'). destruct (mapM g cols).
      * destruct IH as [vs ->]. by eexists.
      * by rewrite IH.
Qed.

(** One record of the result, from reads that do not depend on one
    another. *)
Lemma record_first_occurrences (g : list Z → result value) (cols : list (list Z)) :
  (values ← mapM g cols; dict <$> zip_strict cols values)
  = (values ← mapM g (first_occurrences cols);
     dict <$> zip_strict (first_occurrences cols) values).
Proof.
  set (h := fun c => match g c with Ok v => v | Raise _ => VOther end).
  assert (∀ x y, g x = Ok y → h x = y) as Hh by (intros x y H; unfold h; by rewrite H).
  pose proof (mapM_first_occurrences g [] cols) as H. fold (first_occurrences cols) in H.
  destruct (mapM g cols) as [vs|e] eqn:Hm.
  - destruct H as [vs' Hm']; [by intros c ?%elem_of_nil|]. rewrite Hm'.
    apply (mapM_result_fmap _ h _ _ Hh) in Hm as ->.
    apply (mapM_result_fmap _ h _ _ Hh) in Hm' as ->.
    cbn [mbind result_bind]. rewrite !zip_strict_fmap. cbn [fmap result_fmap].
    f_equal. rewrite !dict_first_occurrences. f_equal.
    unfold first_occurrences.
    assert (∀ seen l, first_occurrences_from seen (first_occurrences_from seen l)
                      = first_occurrences_from seen l) as Hidem.
    { intros seen l. revert seen. induction l as [|c l IHl]; intros seen; [done|].
      cbn [first_occurrences_from]. case_bool_decide as Hc; [done|].
      cbn [first_occurrences_from]. rewrite bool_decide_eq_false_2 by done.
      by rewrite IHl. }
    by rewrite Hidem.
  - rewrite H; [done|]. by intros c ?%elem_of_nil.
Qed.

(** A loop of reads whose results do not depend on the position of the file
    object. *)
Lemma IO_mapM_pure {A B} (f : A → IO B) (g : A → result B) (l : list A) data :
  (∀ x p, ∃ p', f x (mkIO data p) = (g x, mkIO data p')) →
  ∀ p, ∃ p', mapM f l (mkIO data p) = (mapM g l, mkIO data p').
Proof.
  intros Hf. induction l as [|x l IH]; intros p; [by exists p|].
  rewrite IO_mapM_cons, mapM_result_cons. destruct (Hf x p) as [p1 ->].
  destruct (g x) as [y|e]; [|by exists p1]. cbn [mbind result_bind].
  destruct (IH p1) as [p' ->]. exists p'. by destruct (mapM g l).
Qed.

Lemma read_column_pure (info : TableInfo) (start : Z) (c : list Z) data p :
  ∃ p',
    (offset ← io_lift (getitem (column_offsets info) c);
     _ ← io_seek (start + offset);
     ci ← io_lift (getitem (columns_dict info) c);
     _deserialize_value (datatype ci)) (mkIO data p)
    = (column_at info data start c, mkIO data p').
Proof.
  unfold column_at, mbind at 1, IO_bind, io_lift, io_seek, seek. cbn [content].
  destruct (getitem (column_offsets info) c) as [offset|]; [|by exists p].
  cbn [mbind result_bind].
  destruct (getitem (columns_dict info) c) as [ci|]; [|by eexists].
  cbn [mbind result_bind].
  destruct (_deserialize_value_outcome (datatype ci) (mkIO data (start + offset)))
    as [p' [[v Hv]|Hv]]; cbn [content] in Hv; rewrite Hv; by exists p'.
Qed.

Lemma query_row_pure self (cols : list (list Z)) (k : Z) data p :
  let start := Table._data_start self + k * row_length (Table.info self) in
  ∃ p', query_row self cols k (mkIO data p)
        = (values ← mapM (column_at (Table.info self) data start) cols;
           dict <$> zip_strict cols values, mkIO data p').
Proof.
  intros start. rewrite query_row_eq. cbn [content]. fold start.
  destruct (IO_mapM_pure
              (fun col =>
                 offset ← io_lift (getitem (column_offsets (Table.info self)) col);
                 _ ← io_seek (start + offset);
                 info ← io_lift (getitem (columns_dict (Table.info self)) col);
                 _deserialize_value (datatype info))
              (column_at (Table.info self) data start) cols data
              (fun c p => read_column_pure (Table.info self) start c data p) start)
    as [p' ->].
  exists p'. by destruct (mapM _ cols).
Qed.

Lemma list_to_set_first_occurrences (cols : list (list Z)) :
  (list_to_set (first_occurrences cols) : gset (list Z)) = list_to_set cols.
Proof.
  apply leibniz_equiv. intros c. rewrite !elem_of_list_to_set.
  unfold first_occurrences. rewrite first_occurrences_from_elem.
  split; [by intros [? _] | intros ?; split; [done | by intros ?%elem_of_nil]].
Qed.

(** [query], one step at a time. *)
Lemma query_eq self (cols : list (list Z)) fs :
  Table.query self cols fs
  = if negb (bool_decide ((list_to_set cols : gset (list Z))
                            ∖ column_names (Table.info self) = ∅))
    then (Raise (ColumnDoesNotExist
                   (join_comma (elements ((list_to_set cols : gset (list Z))
                                            ∖ column_names (Table.info self))))), fs)
    else
      match open_rb (Table._location self) fs with
      | (Ok data, fs1) =>
          match Table.length self fs1 with
          | (Ok n, fs2) =>
              match (mapM (query_row self cols) (range n)
                       (seek (Table._data_start self) (BytesIO data))).1 with
              | Ok rows =>
                  match Table.length self fs2 with
                  | (Ok n', fs3) =>
                      (if len rows =? n' then Ok rows else Raise AssertionError, fs3)
                  | (Raise e, fs3) => (Raise e, fs3)
                  end
              | Raise e => (Raise e, fs2)
              end
          | (Raise e, fs2) => (Raise e, fs2)
          end
      | (Raise e, fs1) => (Raise e, fs1)
      end.
Proof.
  unfold Table.query. destruct (negb _); [done|].
  unfold mbind at 1, FS_bind at 1.
  destruct (open_rb (Table._location self) fs) as [[data|e] fs1]; [|done].
  unfold mbind at 1, FS_bind at 1.
  destruct (Table.length self fs1) as [[n|e] fs2]; [|done].
  unfold mbind at 1, FS_bind at 1, fs_lift at 1. unfold query_row.
  destruct (mapM (M := IO) _ (range n) _).1 as [rows|e]; [|done].
  unfold mbind at 1, FS_bind at 1.
  destruct (Table.length self fs2) as [[n'|e] fs3]; [|done].
  unfold mbind, FS_bind, fs_lift, assert. by destruct (len rows =? n').
Qed.

(** X30. Asking for a column more than once changes nothing: the query
    behaves as the query of the distinct names in the order in which they
    first occur, so that every record holds each requested column once. *)
Theorem query_repeated_columns self (cols : list (list Z)) fs :
  Table.query self cols fs = Table.query self (first_occurrences cols) fs.
Proof.
  rewrite !query_eq, list_to_set_first_occurrences.
  destruct (negb _); [done|].
  destruct (open_rb (Table._location self) fs) as [[data|e] fs1]; [|done].
  destruct (Table.length self fs1) as [[n|e] fs2]; [|done].
  enough ((mapM (query_row self cols) (range n)
             (seek (Table._data_start self) (BytesIO data))).1
          = (mapM (query_row self (first_occurrences cols)) (range n)
               (seek (Table._data_start self) (BytesIO data))).1) as H
    by (by rewrite H).
  unfold seek, BytesIO. cbn [content].
  set (G := fun cols k =>
              values ← mapM (column_at (Table.info self) data
                               (Table._data_start self + k * row_length (Table.info self)))
                          cols;
              dict <$> zip_strict cols values).
  destruct (IO_mapM_pure (query_row self cols) (G cols) (range n) data
              (fun k p => query_row_pure self cols k data p) (Table._data_start self))
    as [p1 ->].
  destruct (IO_mapM_pure (query_row self (first_occurrences cols))
              (G (first_occurrences cols)) (range n) data
              (fun k p => query_row_pure self (first_occurrences cols) k data p)
              (Table._data_start self))
    as [p2 ->].
  cbn [fst]. apply mapM_result_ext. intros k _. apply record_first_occurrences.
Qed.
